(** * Structural JSON diff engine of devkit

    A shallow embedding of [src/utils/jsonDiff.ts] (the comparator
    [compareJson], the subtree materializer [createNodesForValue], the
    key alignment [getAlignedKeys]) and of the collapse filter
    [filterNodes] of [src/components/DiffViewer.tsx], with the properties
    stated about them.

    Conventions of the embedding.
    - A JSON number is an integer [Z]: the engine only ever tests numbers
      for equality.
    - A JSON object is the association list of its own properties in
      [Object.keys] order; JavaScript objects have unique keys, which is
      the well-formedness predicate [wfJson].
    - [obj[k]] is modelled by [getProp], the lookup among the own
      properties of [obj]. JavaScript continues a failed lookup in
      [Object.prototype]: [lookup] models that, and [getProp] agrees with
      it unless [k] is one of the twelve [inheritedNames] and not an own
      key of [obj]. The comparator indexes each object with the keys of
      the other one (lines 152-153), so a statement that depends on what
      such a lookup returns is made under [ownLookups] (for one pair of
      objects) or [ownNamesOnly] (for whole documents).
      A loop [for (const k of Object.keys(obj)) { ... obj[k] ... }] visits
      the entries of the association list in order.
    - [undefined] is [None]; an optional field of a node is an [option].
    - lodash's [isEqual], [isPlainObject] and [isArray] are modelled on the
      JSON value model (deep equality, insensitive to the key order of
      objects, sensitive to the order of arrays). *)

From Stdlib Require Import ZArith Lia List String Ascii Bool Arith DecimalString.
From stdpp Require Import base decidable option list strings gmap sets.
Import ListNotations.

Local Open Scope string_scope.
Local Open Scope nat_scope.
Local Open Scope list_scope.

(** ** Data model: [src/types/diff.ts] *)

#[local] Unset Elimination Schemes.
Inductive JsonValue : Type :=
| JNull : JsonValue
| JBool : bool -> JsonValue
| JNum : Z -> JsonValue
| JStr : string -> JsonValue
| JObject : list (string * JsonValue) -> JsonValue
| JArray : list JsonValue -> JsonValue.
#[local] Set Elimination Schemes.

Definition JsonObject : Type := list (string * JsonValue).
Definition JsonArray : Type := list JsonValue.

Inductive DiffType : Type := ADDED | REMOVED | MODIFIED | UNCHANGED | SPACER.

Inductive BracketType : Type := BracketObject | BracketArray.

Record DiffNode : Type := mkDiffNode {
  type : DiffType;
  key : option string;
  path : string;
  leftValue : option JsonValue;
  rightValue : option JsonValue;
  indent : nat;
  isCollapsible : bool;
  isArrayItem : option bool;
  arrayIndex : option nat;
  isClosingBracket : option bool;
  bracketType : option BracketType
}.

Record DiffResult : Type := mkDiffResult {
  leftNodes : list DiffNode;
  rightNodes : list DiffNode
}.

(** Induction over JSON values that reaches below objects and arrays. *)
Section JsonValue_nested_induction.
Variable P : JsonValue -> Prop.
Hypothesis HNull : P JNull.
Hypothesis HBool : forall b, P (JBool b).
Hypothesis HNum : forall z, P (JNum z).
Hypothesis HStr : forall s, P (JStr s).
Hypothesis HObject : forall obj : JsonObject,
      Forall (fun kv => P (snd kv)) obj -> P (JObject obj).
Hypothesis HArray : forall arr : JsonArray, Forall P arr -> P (JArray arr).

Fixpoint JsonValue_nested_ind (v : JsonValue) : P v :=
    match v with
    | JNull => HNull
    | JBool b => HBool b
    | JNum z => HNum z
    | JStr s => HStr s
    | JObject obj =>
        HObject obj
          ((fix entries (l : list (string * JsonValue)) : Forall (fun kv => P (snd kv)) l :=
              match l with
              | [] => @List.Forall_nil _ _
              | kv :: rest => @List.Forall_cons _ _ kv rest (JsonValue_nested_ind (snd kv)) (entries rest)
              end) obj)
    | JArray arr =>
        HArray arr
          ((fix items (l : list JsonValue) : Forall P l :=
              match l with
              | [] => @List.Forall_nil _ _
              | x :: rest => @List.Forall_cons _ _ x rest (JsonValue_nested_ind x) (items rest)
              end) arr)
    end.
End JsonValue_nested_induction.

(** ** JavaScript primitives used by the engine *)

(** [Object.keys(obj)] *)
Definition Object_keys (obj : JsonObject) : list string := map fst obj.

(** [obj[k]] among the own properties of [obj]: the property's value,
    [undefined] when [k] is not a key. *)
Fixpoint getProp (obj : JsonObject) (k : string) : option JsonValue :=
  match obj with
  | [] => None
  | (k', v) :: rest => if String.eqb k' k then Some v else getProp rest k
  end.

(** [new Set(keys).has(k)] *)
Definition Set_has (keys : list string) (k : string) : bool :=
  existsb (String.eqb k) keys.

(** [String(i)] for an array index. *)
Definition String_of_index (i : nat) : string :=
  NilZero.string_of_uint (Nat.to_uint i).

(** [s.startsWith(p)] *)
Definition startsWith (s p : string) : bool := String.prefix p s.

(** Template [path ? `${path}.${k}` : k]: the empty string is falsy. *)
Definition objectChildPath (path k : string) : string :=
  if String.eqb path "" then k else path ++ "." ++ k.

(** Template [`${path}[${i}]`]. *)
Definition arrayChildPath (path : string) (i : nat) : string :=
  path ++ "[" ++ String_of_index i ++ "]".

(** Loops over the children of a container, threading the accumulated
    state: [for (const k of Object.keys(obj)) { ... obj[k] ... }] and
    [for (let i = 0; i < arr.length; i++) { ... arr[i] ... }]. *)
Section Loops.
Context {A : Type}.

Section ForEachEntry.
Variable body : A -> string -> JsonValue -> A.
Fixpoint forEachEntry (entries : JsonObject) (acc : A) : A :=
      match entries with
      | [] => acc
      | (k, v) :: rest => forEachEntry rest (body acc k v)
      end.
End ForEachEntry.

Section ForEachItem.
Variable body : A -> nat -> JsonValue -> A.
Fixpoint forEachItem (i : nat) (items : JsonArray) (acc : A) : A :=
      match items with
      | [] => acc
      | v :: rest => forEachItem (i + 1) rest (body acc i v)
      end.
End ForEachItem.
End Loops.

Section All2.
Context {A B : Type}.
Variable f : A -> B -> bool.
(** Element-wise test of two arrays of the same length. *)
Fixpoint all2 (l : list A) (r : list B) : bool :=
    match l, r with
    | [], [] => true
    | x :: l', y :: r' => f x y && all2 l' r'
    | _, _ => false
    end.
End All2.

(** lodash [isEqual] on JSON values: primitives by [===]; arrays of the
    same length, element by element; objects with the same number of keys,
    every key of the first being a key of the second with an equal value. *)
Fixpoint isEqual (a b : JsonValue) : bool :=
  match a, b with
  | JNull, JNull => true
  | JBool x, JBool y => Bool.eqb x y
  | JNum x, JNum y => Z.eqb x y
  | JStr x, JStr y => String.eqb x y
  | JObject lo, JObject ro =>
      Nat.eqb (length lo) (length ro)
      && forallb
           (fun kv =>
              match getProp ro (fst kv) with
              | Some w => isEqual (snd kv) w
              | None => false
              end) lo
  | JArray la, JArray ra => all2 (fun x y => isEqual x y) la ra
  | _, _ => false
  end.

(** ** [getValueType] *)

Inductive ValueType : Type := TObject | TArray | TPrimitive.

Definition getValueType (value : JsonValue) : ValueType :=
  match value with
  | JObject _ => TObject
  | JArray _ => TArray
  | _ => TPrimitive
  end.

Definition ValueType_eqb (a b : ValueType) : bool :=
  match a, b with
  | TObject, TObject | TArray, TArray | TPrimitive, TPrimitive => true
  | _, _ => false
  end.

(** ** [getAlignedKeys] *)

Definition getAlignedKeys (leftObj rightObj : JsonObject) : list string :=
  let leftKeys := Object_keys leftObj in
  let rightKeys := Object_keys rightObj in
  let allKeys := fold_left (fun allKeys k => allKeys ++ [k]) leftKeys [] in
  fold_left
    (fun allKeys k => if negb (Set_has leftKeys k) then allKeys ++ [k] else allKeys)
    rightKeys allKeys.

(** ** [createSpacer] *)

Definition createSpacer (indent : nat) : DiffNode :=
  {| type := SPACER; key := None; path := ""; leftValue := None; rightValue := None;
     indent := indent; isCollapsible := false; isArrayItem := None; arrayIndex := None;
     isClosingBracket := None; bracketType := None |}.

(** ** [createNodesForValue]: the subtree materializer *)

Definition isREMOVED (t : DiffType) : bool := match t with REMOVED => true | _ => false end.
Definition isADDED (t : DiffType) : bool := match t with ADDED => true | _ => false end.
Definition isMODIFIED (t : DiffType) : bool := match t with MODIFIED => true | _ => false end.
Definition isUNCHANGED (t : DiffType) : bool := match t with UNCHANGED => true | _ => false end.

(** [cond ? v : undefined] *)
Definition orUndefined (cond : bool) (v : JsonValue) : option JsonValue :=
  if cond then Some v else None.

Definition openingNode (diffType : DiffType) (key : option string) (path : string)
    (marker : string) (indent : nat) (isArrayItem : bool) (arrayIndex : option nat) : DiffNode :=
  {| type := diffType; key := key; path := path;
     leftValue := orUndefined (isREMOVED diffType) (JStr marker);
     rightValue := orUndefined (isADDED diffType) (JStr marker);
     indent := indent; isCollapsible := true;
     isArrayItem := Some isArrayItem; arrayIndex := arrayIndex;
     isClosingBracket := None; bracketType := None |}.

Definition closingNode (diffType : DiffType) (path : string) (marker : string)
    (indent : nat) (bracket : BracketType) : DiffNode :=
  {| type := diffType; key := None; path := path;
     leftValue := orUndefined (isREMOVED diffType) (JStr marker);
     rightValue := orUndefined (isADDED diffType) (JStr marker);
     indent := indent; isCollapsible := false;
     isArrayItem := None; arrayIndex := None;
     isClosingBracket := Some true; bracketType := Some bracket |}.

Definition primitiveNode (diffType : DiffType) (key : option string) (path : string)
    (value : JsonValue) (indent : nat) (isArrayItem : bool) (arrayIndex : option nat) : DiffNode :=
  {| type := diffType; key := key; path := path;
     leftValue := orUndefined (isREMOVED diffType || isMODIFIED diffType || isUNCHANGED diffType) value;
     rightValue := orUndefined (isADDED diffType || isMODIFIED diffType || isUNCHANGED diffType) value;
     indent := indent; isCollapsible := false;
     isArrayItem := Some isArrayItem; arrayIndex := arrayIndex;
     isClosingBracket := None; bracketType := None |}.

Fixpoint createNodesForValue (value : JsonValue) (path : string) (indent : nat)
    (key : option string) (diffType : DiffType) (isArrayItem : bool)
    (arrayIndex : option nat) {struct value} : list DiffNode :=
  match value with
  | JObject obj =>
      let nodes := [openingNode diffType key path "{" indent isArrayItem arrayIndex] in
      let nodes :=
        forEachEntry
          (fun nodes k v =>
             let childPath := objectChildPath path k in
             let childNodes :=
               createNodesForValue v childPath (indent + 1) (Some k) diffType false None in
             nodes ++ childNodes)
          obj nodes in
      nodes ++ [closingNode diffType path "}" indent BracketObject]
  | JArray arr =>
      let nodes := [openingNode diffType key path "[" indent isArrayItem arrayIndex] in
      let nodes :=
        forEachItem
          (fun nodes i v =>
             let childPath := arrayChildPath path i in
             let childNodes :=
               createNodesForValue v childPath (indent + 1) None diffType true (Some i) in
             nodes ++ childNodes)
          0 arr nodes in
      nodes ++ [closingNode diffType path "]" indent BracketArray]
  | _ => [primitiveNode diffType key path value indent isArrayItem arrayIndex]
  end.

(** ** [compareJson]: the structural comparator *)

(** [leftNodes.push(...child.leftNodes); rightNodes.push(...child.rightNodes)] *)
Definition pushNodes (acc child : DiffResult) : DiffResult :=
  {| leftNodes := leftNodes acc ++ leftNodes child;
     rightNodes := rightNodes acc ++ rightNodes child |}.

(** [for (let i = 0; i < nodes.length; i++) side.push(createSpacer(indent))] *)
Definition spacersFor (nodes : list DiffNode) (indent : nat) : list DiffNode :=
  repeat (createSpacer indent) (length nodes).

(** [while (nodes.length < maxLen) nodes.push(createSpacer(indent))] *)
Definition padSpacers (nodes : list DiffNode) (maxLen indent : nat) : list DiffNode :=
  nodes ++ repeat (createSpacer indent) (maxLen - length nodes).

Definition pairedOpenNode (key : option string) (path marker : string) (indent : nat)
    (isArrayItem : bool) (arrayIndex : option nat) : DiffNode :=
  {| type := UNCHANGED; key := key; path := path;
     leftValue := Some (JStr marker); rightValue := Some (JStr marker);
     indent := indent; isCollapsible := true;
     isArrayItem := Some isArrayItem; arrayIndex := arrayIndex;
     isClosingBracket := None; bracketType := None |}.

Definition pairedCloseNode (path marker : string) (indent : nat) (bracket : BracketType)
    : DiffNode :=
  {| type := UNCHANGED; key := None; path := path;
     leftValue := Some (JStr marker); rightValue := Some (JStr marker);
     indent := indent; isCollapsible := false;
     isArrayItem := None; arrayIndex := None;
     isClosingBracket := Some true; bracketType := Some bracket |}.

Definition modifiedLeftNode (key : option string) (path : string) (value : JsonValue)
    (indent : nat) (isArrayItem : bool) (arrayIndex : option nat) : DiffNode :=
  {| type := MODIFIED; key := key; path := path;
     leftValue := Some value; rightValue := None;
     indent := indent; isCollapsible := false;
     isArrayItem := Some isArrayItem; arrayIndex := arrayIndex;
     isClosingBracket := None; bracketType := None |}.

Definition modifiedRightNode (key : option string) (path : string) (value : JsonValue)
    (indent : nat) (isArrayItem : bool) (arrayIndex : option nat) : DiffNode :=
  {| type := MODIFIED; key := key; path := path;
     leftValue := None; rightValue := Some value;
     indent := indent; isCollapsible := false;
     isArrayItem := Some isArrayItem; arrayIndex := arrayIndex;
     isClosingBracket := None; bracketType := None |}.

(** One iteration of a child loop: run the recursive call, then append its
    two columns to the accumulated ones; running out of fuel propagates. *)
Definition loopStep {A : Type} (child : A -> option DiffResult)
    (acc : option DiffResult) (x : A) : option DiffResult :=
  match acc with
  | None => None
  | Some nodes =>
      match child x with
      | None => None
      | Some childResult => Some (pushNodes nodes childResult)
      end
  end.

(** The recursion of [compareJson] is not structural in either argument
    (children are fetched by key and by index), so the embedding counts
    the remaining recursion depth; [None] means the count ran out. *)
Fixpoint compareJson_fuel (fuel : nat) (leftValue rightValue : option JsonValue)
    (path : string) (indent : nat) (key : option string) (isArrayItem : bool)
    (arrayIndex : option nat) {struct fuel} : option DiffResult :=
  match fuel with
  | 0 => None
  | S fuel' =>
      let leftType := option_map getValueType leftValue in
      let rightType := option_map getValueType rightValue in
      match leftValue, rightValue with
      | Some lv, None =>
          (* Case 1: value only exists in left (REMOVED) *)
          let nodes := createNodesForValue lv path indent key REMOVED isArrayItem arrayIndex in
          Some {| leftNodes := nodes; rightNodes := spacersFor nodes indent |}
      | None, Some rv =>
          (* Case 2: value only exists in right (ADDED) *)
          let nodes := createNodesForValue rv path indent key ADDED isArrayItem arrayIndex in
          Some {| leftNodes := spacersFor nodes indent; rightNodes := nodes |}
      | Some lv, Some rv =>
          (* Case 3: both values exist *)
          if isEqual lv rv then
            let nodes := createNodesForValue lv path indent key UNCHANGED isArrayItem arrayIndex in
            Some {| leftNodes := nodes; rightNodes := map (fun n => n) nodes |}
          else if negb (ValueType_eqb (getValueType lv) (getValueType rv)) then
            let leftNodesList :=
              createNodesForValue lv path indent key MODIFIED isArrayItem arrayIndex in
            let rightNodesList :=
              createNodesForValue rv path indent key MODIFIED isArrayItem arrayIndex in
            let maxLen := Nat.max (length leftNodesList) (length rightNodesList) in
            Some {| leftNodes := padSpacers leftNodesList maxLen indent;
                    rightNodes := padSpacers rightNodesList maxLen indent |}
          else
            match lv, rv with
            | JObject leftObj, JObject rightObj =>
                let openNode := pairedOpenNode key path "{" indent isArrayItem arrayIndex in
                let alignedKeys := getAlignedKeys leftObj rightObj in
                let children :=
                  fold_left
                    (loopStep (fun k =>
                       compareJson_fuel fuel' (getProp leftObj k) (getProp rightObj k)
                         (objectChildPath path k) (indent + 1) (Some k) false None))
                    alignedKeys
                    (Some {| leftNodes := [openNode]; rightNodes := [openNode] |}) in
                let closeNode := pairedCloseNode path "}" indent BracketObject in
                option_map
                  (fun nodes => pushNodes nodes
                     {| leftNodes := [closeNode]; rightNodes := [closeNode] |})
                  children
            | JArray leftArr, JArray rightArr =>
                let openNode := pairedOpenNode key path "[" indent isArrayItem arrayIndex in
                let maxLen := Nat.max (length leftArr) (length rightArr) in
                let children :=
                  fold_left
                    (loopStep (fun i =>
                       compareJson_fuel fuel' (nth_error leftArr i) (nth_error rightArr i)
                         (arrayChildPath path i) (indent + 1) None true (Some i)))
                    (seq 0 maxLen)
                    (Some {| leftNodes := [openNode]; rightNodes := [openNode] |}) in
                let closeNode := pairedCloseNode path "]" indent BracketArray in
                option_map
                  (fun nodes => pushNodes nodes
                     {| leftNodes := [closeNode]; rightNodes := [closeNode] |})
                  children
            | _, _ =>
                (* both are primitives but different values: MODIFIED *)
                Some {| leftNodes := [modifiedLeftNode key path lv indent isArrayItem arrayIndex];
                        rightNodes := [modifiedRightNode key path rv indent isArrayItem arrayIndex] |}
            end
      | None, None => Some {| leftNodes := []; rightNodes := [] |}
      end
  end.

(** Nesting depth of a value: 0 for a primitive, one more than the deepest
    child for an object or an array. *)
Fixpoint jsonDepth (v : JsonValue) : nat :=
  match v with
  | JObject obj => S (list_max (map (fun kv => jsonDepth (snd kv)) obj))
  | JArray arr => S (list_max (map (fun x => jsonDepth x) arr))
  | _ => 0
  end.

Definition depthOf (v : option JsonValue) : nat :=
  match v with
  | Some x => jsonDepth x
  | None => 0
  end.

Definition emptyResult : DiffResult := {| leftNodes := []; rightNodes := [] |}.

(** [compareJson]: the comparator run with a recursion budget that always
    suffices (see [compareJson_fuel_enough]). *)
Definition compareJson (leftValue rightValue : option JsonValue) (path : string)
    (indent : nat) (key : option string) (isArrayItem : bool) (arrayIndex : option nat)
    : DiffResult :=
  match compareJson_fuel (S (depthOf leftValue)) leftValue rightValue path indent key
          isArrayItem arrayIndex with
  | Some result => result
  | None => emptyResult
  end.

(** The call as the page makes it: [compareJson(left, right)] with the
    default [path = ''], [indent = 0], no key, not an array item. *)
Definition compareJsonTop (leftValue rightValue : option JsonValue) : DiffResult :=
  compareJson leftValue rightValue "" 0 None false None.

Definition typesOf (nodes : list DiffNode) : list DiffType := map type nodes.


(** The comparator's case analysis with the child loops written as
    concatenations and the recursive calls taken from [rec]; [compareJson]
    is shown below to satisfy [compareJson = compareBody compareJson]. *)
Definition compareBody
    (rec : option JsonValue -> option JsonValue -> string -> nat -> option string ->
           bool -> option nat -> DiffResult)
    (leftValue rightValue : option JsonValue) (path : string) (indent : nat)
    (key : option string) (isArrayItem : bool) (arrayIndex : option nat) : DiffResult :=
  match leftValue, rightValue with
  | Some lv, None =>
      let nodes := createNodesForValue lv path indent key REMOVED isArrayItem arrayIndex in
      {| leftNodes := nodes; rightNodes := spacersFor nodes indent |}
  | None, Some rv =>
      let nodes := createNodesForValue rv path indent key ADDED isArrayItem arrayIndex in
      {| leftNodes := spacersFor nodes indent; rightNodes := nodes |}
  | Some lv, Some rv =>
      if isEqual lv rv then
        let nodes := createNodesForValue lv path indent key UNCHANGED isArrayItem arrayIndex in
        {| leftNodes := nodes; rightNodes := nodes |}
      else if negb (ValueType_eqb (getValueType lv) (getValueType rv)) then
        let leftNodesList :=
          createNodesForValue lv path indent key MODIFIED isArrayItem arrayIndex in
        let rightNodesList :=
          createNodesForValue rv path indent key MODIFIED isArrayItem arrayIndex in
        let maxLen := Nat.max (length leftNodesList) (length rightNodesList) in
        {| leftNodes := padSpacers leftNodesList maxLen indent;
           rightNodes := padSpacers rightNodesList maxLen indent |}
      else
        match lv, rv with
        | JObject leftObj, JObject rightObj =>
            let child k :=
              rec (getProp leftObj k) (getProp rightObj k)
                (objectChildPath path k) (indent + 1) (Some k) false None in
            let alignedKeys := getAlignedKeys leftObj rightObj in
            {| leftNodes :=
                 [pairedOpenNode key path "{" indent isArrayItem arrayIndex]
                 ++ flat_map (fun k => leftNodes (child k)) alignedKeys
                 ++ [pairedCloseNode path "}" indent BracketObject];
               rightNodes :=
                 [pairedOpenNode key path "{" indent isArrayItem arrayIndex]
                 ++ flat_map (fun k => rightNodes (child k)) alignedKeys
                 ++ [pairedCloseNode path "}" indent BracketObject] |}
        | JArray leftArr, JArray rightArr =>
            let child i :=
              rec (nth_error leftArr i) (nth_error rightArr i)
                (arrayChildPath path i) (indent + 1) None true (Some i) in
            let indices := seq 0 (Nat.max (length leftArr) (length rightArr)) in
            {| leftNodes :=
                 [pairedOpenNode key path "[" indent isArrayItem arrayIndex]
                 ++ flat_map (fun i => leftNodes (child i)) indices
                 ++ [pairedCloseNode path "]" indent BracketArray];
               rightNodes :=
                 [pairedOpenNode key path "[" indent isArrayItem arrayIndex]
                 ++ flat_map (fun i => rightNodes (child i)) indices
                 ++ [pairedCloseNode path "]" indent BracketArray] |}
        | _, _ =>
            {| leftNodes := [modifiedLeftNode key path lv indent isArrayItem arrayIndex];
               rightNodes := [modifiedRightNode key path rv indent isArrayItem arrayIndex] |}
        end
  | None, None => emptyResult
  end.

(** ** Well-formed values and the line count *)

(** No key occurs twice. *)
Fixpoint uniqueKeys (keys : list string) : bool :=
  match keys with
  | [] => true
  | k :: rest => negb (Set_has rest k) && uniqueKeys rest
  end.

(** A value as JavaScript can hold it: the keys of every object in it are
    pairwise distinct. *)
Fixpoint wfJson (v : JsonValue) : bool :=
  match v with
  | JObject obj => uniqueKeys (Object_keys obj) && forallb (fun kv => wfJson (snd kv)) obj
  | JArray arr => forallb (fun x => wfJson x) arr
  | _ => true
  end.

(** The line count of a value: one line per scalar, one per object open,
    one per array open and one per closing bracket. *)
Fixpoint sizeOf (v : JsonValue) : nat :=
  match v with
  | JObject obj => 1 + list_sum (map (fun kv => sizeOf (snd kv)) obj) + 1
  | JArray arr => 1 + list_sum (map (fun x => sizeOf x) arr) + 1
  | _ => 1
  end.

(** ** Views of a node sequence *)

Definition hasValue (v : option JsonValue) : Prop := v <> None.

Definition isOpenMarker (v : option JsonValue) : Prop :=
  v = Some (JStr "{") \/ v = Some (JStr "[").

(** The closing literal of a bracket kind. *)
Definition closeMarker (b : BracketType) : JsonValue :=
  match b with
  | BracketObject => JStr "}"
  | BracketArray => JStr "]"
  end.

Definition keyList (key : option string) : list string :=
  match key with
  | Some k => [k]
  | None => []
  end.

(** The keys carried by the nodes of nesting depth [d], in order. *)
Definition keysAt (d : nat) (nodes : list DiffNode) : list string :=
  flat_map
    (fun n =>
       if Nat.eqb (indent n) d then keyList (key n) else [])
    nodes.

(** ** [filterNodes]: the collapse filter of [DiffViewer.tsx] *)

(** JavaScript truthiness of an optional boolean field. *)
Definition truthy (flag : option bool) : bool :=
  match flag with
  | Some true => true
  | _ => false
  end.

(** The inner loop over the collapsed paths, left at the first hit. *)
Definition shouldSkip (collapsedPaths : gset string) (node : DiffNode) : bool :=
  existsb
    (fun collapsedPath =>
       startsWith (path node) (collapsedPath ++ ".")
       || startsWith (path node) (collapsedPath ++ "["))
    (elements collapsedPaths).

Definition filterNodes (collapsedPaths : gset string) (nodes : list DiffNode)
    : list DiffNode :=
  fold_left
    (fun result node =>
       if shouldSkip collapsedPaths node then result
       else if truthy (isClosingBracket node)
               && bool_decide (path node ∈ collapsedPaths) then result
       else result ++ [node])
    nodes [].

(** [p] extends [c] at a ['.'] or ['['] boundary. *)
Definition strictDescendant (p c : string) : Prop :=
  exists rest : string, p = (c ++ "." ++ rest)%string \/ p = (c ++ "[" ++ rest)%string.

(** The nodes the collapse filter is to drop. *)
Definition dropped (collapsedPaths : gset string) (node : DiffNode) : Prop :=
  (exists c, c ∈ collapsedPaths /\ strictDescendant (path node) c)
  \/ (isClosingBracket node = Some true /\ path node ∈ collapsedPaths).

(** [FilteredBy D nodes out]: [out] is [nodes] with exactly the nodes
    satisfying [D] removed, the others kept in their order. *)
Inductive FilteredBy (D : DiffNode -> Prop) : list DiffNode -> list DiffNode -> Prop :=
| FilteredBy_nil : FilteredBy D [] []
| FilteredBy_drop (n : DiffNode) (nodes out : list DiffNode) :
    D n -> FilteredBy D nodes out -> FilteredBy D (n :: nodes) out
| FilteredBy_keep (n : DiffNode) (nodes out : list DiffNode) :
    ~ D n -> FilteredBy D nodes out -> FilteredBy D (n :: nodes) (n :: out).

(** ** Marker values of structural nodes *)

(** What the engine guarantees about the displayed values of the nodes
    that open or close an object or an array. An opening node
    ([isCollapsible]) carries on each side the opening literal or nothing:
    the literal on the left only when Removed, on the right only when
    Added, and the same on both sides otherwise. The closing nodes are the
    nodes with a [bracketType], they are the flagged ones, and carry on
    each side the closing literal of their bracket kind or nothing: on the
    left only when Removed, on the right only when Added, on neither side
    when Modified, and the same on both sides when Unchanged. *)
Definition markerDiscipline (n : DiffNode) : Prop :=
  (isCollapsible n = true ->
     bracketType n = None
     /\ match type n with
        | REMOVED => isOpenMarker (leftValue n) /\ rightValue n = None
        | ADDED => leftValue n = None /\ isOpenMarker (rightValue n)
        | _ => leftValue n = rightValue n
               /\ (leftValue n = None \/ isOpenMarker (leftValue n))
        end)
  /\ (isClosingBracket n = Some true <-> bracketType n <> None)
  /\ (forall b, bracketType n = Some b ->
        isCollapsible n = false
        /\ match type n with
           | REMOVED => leftValue n = Some (closeMarker b) /\ rightValue n = None
           | ADDED => leftValue n = None /\ rightValue n = Some (closeMarker b)
           | MODIFIED => leftValue n = None /\ rightValue n = None
           | _ => leftValue n = rightValue n
                  /\ (leftValue n = None \/ leftValue n = Some (closeMarker b))
           end).

(** Both columns of [result] begin with one and the same opening node,
    which carries the literal [opening] on both sides, and end with one
    and the same closing node, which is flagged, has the bracket kind [b]
    and carries the closing literal of [b] on both sides. *)
Definition sharedBrackets (opening : string) (b : BracketType) (result : DiffResult) : Prop :=
  exists (o c : DiffNode) (betweenLeft betweenRight : list DiffNode),
    leftNodes result = o :: betweenLeft ++ [c]
    /\ rightNodes result = o :: betweenRight ++ [c]
    /\ type o = UNCHANGED /\ isCollapsible o = true
    /\ leftValue o = Some (JStr opening) /\ rightValue o = Some (JStr opening)
    /\ type c = UNCHANGED /\ isCollapsible c = false
    /\ isClosingBracket c = Some true /\ bracketType c = Some b
    /\ leftValue c = Some (closeMarker b) /\ rightValue c = Some (closeMarker b).

(** The reading under which every opening node shows its literal on the
    side of the column it stands in, and closing nodes carry no value. *)
Definition markersEverywhere (result : DiffResult) : Prop :=
  (forall n, In n (leftNodes result) ->
             isCollapsible n = true -> isOpenMarker (leftValue n))
  /\ (forall n, In n (rightNodes result) ->
               isCollapsible n = true -> isOpenMarker (rightValue n))
  /\ (forall n, In n (leftNodes result ++ rightNodes result) ->
               bracketType n <> None ->
               isClosingBracket n = Some true
               /\ leftValue n = None /\ rightValue n = None).

(** Two objects with the same keys, in whatever order. *)
Definition sameKeySet (leftObj rightObj : JsonObject) : bool :=
  forallb (Set_has (Object_keys rightObj)) (Object_keys leftObj)
  && forallb (Set_has (Object_keys leftObj)) (Object_keys rightObj).

(** ** Swapping the two arguments *)

(** Removed and Added exchanged, the other classifications kept. *)
Definition swapRoles (t : DiffType) : DiffType :=
  match t with
  | ADDED => REMOVED
  | REMOVED => ADDED
  | _ => t
  end.

Section AllCommon.
Context {A B : Type}.
Variable f : A -> B -> bool.
(** Element-wise test over the indices two arrays have in common. *)
Fixpoint allCommon (l : list A) (r : list B) : bool :=
  match l, r with
  | x :: l', y :: r' => f x y && allCommon l' r'
  | _, _ => true
  end.
End AllCommon.

(** [keyOrderAgrees a b]: wherever the comparator walks two objects of [a]
    and [b] key by key (they are at the same position and not deep-equal),
    the aligned key order is the same from both sides, that is
    [getAlignedKeys l r = getAlignedKeys r l]; this is the case when the key
    sequence of one object is a prefix of the other's. *)
Fixpoint keyOrderAgrees (a b : JsonValue) : bool :=
  isEqual a b
  || match a, b with
     | JObject lo, JObject ro =>
         bool_decide (getAlignedKeys lo ro = getAlignedKeys ro lo)
         && forallb
              (fun kv =>
                 match getProp ro (fst kv) with
                 | Some w => keyOrderAgrees (snd kv) w
                 | None => true
                 end) lo
     | JArray la, JArray ra => allCommon (fun x y => keyOrderAgrees x y) la ra
     | _, _ => true
     end.

Definition wfOpt (v : option JsonValue) : bool :=
  match v with
  | Some x => wfJson x
  | None => true
  end.

Definition keyOrderAgreesOpt (l r : option JsonValue) : bool :=
  match l, r with
  | Some a, Some b => keyOrderAgrees a b
  | _, _ => true
  end.

(** The two columns of [compare(l, r)] mirror those of [compare(r, l)]. *)
Definition mirrored (l r : option JsonValue) : Prop :=
  forall path indent key isArr idx,
    typesOf (leftNodes (compareJson l r path indent key isArr idx))
    = map swapRoles (typesOf (rightNodes (compareJson r l path indent key isArr idx)))
    /\ typesOf (rightNodes (compareJson l r path indent key isArr idx))
       = map swapRoles (typesOf (leftNodes (compareJson r l path indent key isArr idx))).

(** ** [handleToggleCollapse] of [DiffViewer.tsx] and the toggle of [DiffLine] *)

(** The state update of [handleToggleCollapse]: a copy of the previous set
    with [path] deleted when it was there, added otherwise. *)
Definition handleToggleCollapse (path : string) (prev : gset string) : gset string :=
  if bool_decide (path ∈ prev) then prev ∖ {[ path ]} else prev ∪ {[ path ]}.

(** The column a row is rendered in. *)
Inductive Side : Type := SideLeft | SideRight.

(** [side === 'left' ? node.leftValue : node.rightValue] *)
Definition sideValue (node : DiffNode) (side : Side) : option JsonValue :=
  match side with
  | SideLeft => leftValue node
  | SideRight => rightValue node
  end.

(** [value === '{' || value === '['] *)
Definition isBracketLiteral (value : option JsonValue) : bool :=
  match value with
  | Some (JStr s) => String.eqb s "{" || String.eqb s "["
  | _ => false
  end.

(** [showCollapseToggle] of [DiffLine]. *)
Definition showCollapseToggle (node : DiffNode) (side : Side) : bool :=
  isCollapsible node && isBracketLiteral (sideValue node side).

(** ** Rows, spacers and the shape of a line *)

Definition isSpacer (n : DiffNode) : bool :=
  match type n with
  | SPACER => true
  | _ => false
  end.

(** A column without its spacer rows. *)
Definition nonSpacers (nodes : list DiffNode) : list DiffNode :=
  List.filter (fun n => negb (isSpacer n)) nodes.

(** What a row says about the place it stands for, apart from its
    classification and its displayed values. *)
Definition skeleton (n : DiffNode)
    : option string * string * nat * bool * option bool * option nat
      * option bool * option BracketType :=
  (key n, path n, indent n, isCollapsible n, isArrayItem n, arrayIndex n,
   isClosingBracket n, bracketType n).

(** The pairs of nodes that can face each other on a row. *)
Definition rowPair (l r : DiffNode) : Prop :=
  (type l = UNCHANGED /\ r = l)
  \/ (type l = MODIFIED /\ type r = MODIFIED)
  \/ (type l = MODIFIED /\ type r = SPACER)
  \/ (type l = SPACER /\ type r = MODIFIED)
  \/ (type l = REMOVED /\ type r = SPACER)
  \/ (type l = SPACER /\ type r = ADDED).

(** A row that is neither a spacer nor an opening or closing bracket. *)
Definition isLeaf (n : DiffNode) : bool :=
  negb (isSpacer n) && negb (isCollapsible n) && negb (truthy (isClosingBracket n)).

(** Opening rows count [+1], closing rows [-1]. *)
Definition bracketWeight (n : DiffNode) : Z :=
  ((if isCollapsible n then 1 else 0) - (if truthy (isClosingBracket n) then 1 else 0))%Z.

Definition bracketBalance (nodes : list DiffNode) : Z :=
  fold_right Z.add 0%Z (map bracketWeight nodes).

(** The test the collapse filter applies to one node. *)
Definition keptNode (collapsedPaths : gset string) (node : DiffNode) : bool :=
  negb (shouldSkip collapsedPaths node)
  && negb (truthy (isClosingBracket node) && bool_decide (path node ∈ collapsedPaths)).

(** [q] is [p] followed by something, possibly nothing. *)
Definition pathExtends (p q : string) : Prop :=
  exists rest : string, q = (p ++ rest)%string.

(** A key that is not empty and starts with neither ['.'] nor ['[']. *)
Definition plainKey (k : string) : bool :=
  match k with
  | EmptyString => false
  | String c _ => negb (Ascii.eqb c ".") && negb (Ascii.eqb c "[")
  end.

(** The two inputs at a position differ: one is absent, or both are
    present and not deep-equal. *)
Definition differAt (l r : option JsonValue) : bool :=
  match l, r with
  | Some a, Some b => negb (isEqual a b)
  | None, None => false
  | _, _ => true
  end.

(** [getValueClass] of [jsonDiff.ts]: the CSS class of a displayed value. *)
Definition getValueClass (value : JsonValue) : string :=
  match value with
  | JNull => "json-null"
  | JStr _ => "json-string"
  | JNum _ => "json-number"
  | JBool _ => "json-boolean"
  | _ => ""
  end.

(** ** Own and inherited properties *)

(** The names of the properties an object created by [JSON.parse]
    inherits from [Object.prototype]: eleven built-in functions and the
    accessor [__proto__], which reads [Object.prototype] itself. *)
Definition inheritedNames : list string :=
  ["constructor"; "hasOwnProperty"; "isPrototypeOf"; "propertyIsEnumerable";
   "toLocaleString"; "toString"; "valueOf"; "__defineGetter__";
   "__defineSetter__"; "__lookupGetter__"; "__lookupSetter__"; "__proto__"].

(** What [obj[k]] evaluates to: the value of an own property, something
    read from [Object.prototype] (not a JSON value), or [undefined]. *)
Inductive Lookup : Type :=
| Own (v : JsonValue)
| Inherited (name : string)
| Undefined.

(** [obj[k]], as JavaScript evaluates it (lines 152-153 of [jsonDiff.ts]). *)
Definition lookup (obj : JsonObject) (k : string) : Lookup :=
  match getProp obj k with
  | Some v => Own v
  | None => if Set_has inheritedNames k then Inherited k else Undefined
  end.

Definition ofOption (v : option JsonValue) : Lookup :=
  match v with
  | Some x => Own x
  | None => Undefined
  end.

Definition isInherited (x : Lookup) : bool :=
  match x with
  | Inherited _ => true
  | _ => false
  end.

(** No lookup made by the loop over the aligned keys of two objects
    (lines 149-161) reads [Object.prototype]. *)
Definition ownLookups (leftObj rightObj : JsonObject) : bool :=
  forallb
    (fun k => negb (isInherited (lookup leftObj k))
              && negb (isInherited (lookup rightObj k)))
    (getAlignedKeys leftObj rightObj).

(** A key with a meaning of its own to the runtime: an inherited name, or
    [__wrapped__], by which lodash's [isEqual] recognises the wrapper
    objects of lodash. *)
Definition reservedName (k : string) : bool :=
  Set_has (inheritedNames ++ ["__wrapped__"]) k.

(** No object anywhere in the value has a reserved name among its keys. *)
Fixpoint ownNamesOnly (v : JsonValue) : bool :=
  match v with
  | JObject obj =>
      forallb (fun kv => negb (reservedName (fst kv)) && ownNamesOnly (snd kv)) obj
  | JArray arr => forallb (fun x => ownNamesOnly x) arr
  | _ => true
  end.

Definition ownNamesOnlyOpt (v : option JsonValue) : bool :=
  match v with
  | Some x => ownNamesOnly x
  | None => true
  end.

(** The two blocks of rows the walk over the aligned keys emits for the
    key [k], at nesting depth [d + 1]: equally long, not empty, at that
    depth or deeper, showing at that depth the key [k] and no other, on at
    least one side. *)
Definition keyBlock (d : nat) (k : string) (ls rs : list DiffNode) : Prop :=
  length ls = length rs
  /\ ls <> []
  /\ Forall (fun n => d + 1 <= indent n) ls
  /\ Forall (fun n => d + 1 <= indent n) rs
  /\ (keysAt (d + 1) ls = [k] \/ keysAt (d + 1) ls = [])
  /\ (keysAt (d + 1) rs = [k] \/ keysAt (d + 1) rs = [])
  /\ (keysAt (d + 1) ls = [k] \/ keysAt (d + 1) rs = [k]).

(** ** Paths as sequences of steps *)

(** One step from a container to a child: by key, or by index. *)
Inductive PathStep : Type :=
| StepKey (k : string)
| StepIndex (i : nat).

Definition childPath (p : string) (s : PathStep) : string :=
  match s with
  | StepKey k => objectChildPath p k
  | StepIndex i => arrayChildPath p i
  end.

(** The path reached from [p] by the steps, taken in order. *)
Definition descend (p : string) (steps : list PathStep) : string :=
  fold_left childPath steps p.

(** The steps lead from the value to a value inside it. *)
Fixpoint reaches (steps : list PathStep) (v : JsonValue) : bool :=
  match steps with
  | [] => true
  | StepKey k :: rest =>
      match v with
      | JObject obj =>
          existsb (fun kv => String.eqb (fst kv) k && reaches rest (snd kv)) obj
      | _ => false
      end
  | StepIndex i :: rest =>
      match v with
      | JArray arr =>
          match nth_error arr i with
          | Some x => reaches rest x
          | None => false
          end
      | _ => false
      end
  end.

Definition reachesOpt (steps : list PathStep) (v : option JsonValue) : bool :=
  match v with
  | Some x => reaches steps x
  | None => false
  end.

(** [n] stands [length steps] levels below the position [(p, i)], at the
    path the steps lead to, and the steps lead to a value of [l] or of [r]. *)
Definition placedBelow (l r : option JsonValue) (p : string) (i : nat) (n : DiffNode) : Prop :=
  exists steps : list PathStep,
    path n = descend p steps
    /\ indent n = i + length steps
    /\ (reachesOpt steps l = true \/ reachesOpt steps r = true).

(** ** One-sided nodes *)

(** Every node has a value on at most one side. *)
Definition populatedOneSideOnly (nodes : list DiffNode) : Prop :=
  Forall (fun n => leftValue n = None \/ rightValue n = None) nodes.

(** ** Loops as concatenations *)

Lemma forEachEntry_append (f : string -> JsonValue -> list DiffNode) (obj : JsonObject)
    (acc : list DiffNode) :
  forEachEntry (fun nodes k v => nodes ++ f k v) obj acc
  = acc ++ flat_map (fun kv => f (fst kv) (snd kv)) obj.
Proof.
  revert acc. induction obj as [|[k v] rest IH]; intros acc; simpl.
  - now rewrite app_nil_r.
  - rewrite IH. now rewrite <- app_assoc.
Qed.

Lemma forEachItem_append (f : nat -> JsonValue -> list DiffNode) (arr : JsonArray)
    (i : nat) (acc : list DiffNode) :
  forEachItem (fun nodes j v => nodes ++ f j v) i arr acc
  = acc ++ flat_map (fun jv => f (fst jv) (snd jv)) (combine (seq i (length arr)) arr).
Proof.
  revert i acc. induction arr as [|v rest IH]; intros i acc; simpl.
  - now rewrite app_nil_r.
  - rewrite IH. replace (i + 1) with (S i) by lia. now rewrite <- app_assoc.
Qed.

Lemma loop_total {A : Type} (child : A -> option DiffResult) (f : A -> DiffResult)
    (xs : list A) (acc : DiffResult) :
  (forall x, In x xs -> child x = Some (f x)) ->
  fold_left (loopStep child) xs (Some acc)
  = Some {| leftNodes := leftNodes acc ++ flat_map (fun x => leftNodes (f x)) xs;
            rightNodes := rightNodes acc ++ flat_map (fun x => rightNodes (f x)) xs |}.
Proof.
  revert acc. induction xs as [|x xs IH]; intros acc Hchild; simpl.
  - rewrite !app_nil_r. now destruct acc.
  - rewrite (Hchild x) by (now left). rewrite IH by (intros; apply Hchild; now right).
    simpl. now rewrite <- !app_assoc.
Qed.

(** ** Depth of children *)

Lemma list_max_In (n : nat) (l : list nat) : In n l -> n <= list_max l.
Proof.
  induction l as [|m l IH]; simpl; [tauto|].
  intros [->|Hin]; [lia|]. specialize (IH Hin). lia.
Qed.

Lemma getProp_In (obj : JsonObject) (k : string) (v : JsonValue) :
  getProp obj k = Some v -> In (k, v) obj.
Proof.
  induction obj as [|[k' v'] rest IH]; simpl; [discriminate|].
  destruct (String.eqb_spec k' k) as [->|Hne].
  - intros [= ->]. now left.
  - intros H. right. auto.
Qed.

Lemma jsonDepth_getProp (obj : JsonObject) (k : string) :
  depthOf (getProp obj k) < jsonDepth (JObject obj).
Proof.
  destruct (getProp obj k) as [v|] eqn:Hget; simpl; [|lia].
  apply getProp_In in Hget.
  assert (jsonDepth v <= list_max (map (fun kv => jsonDepth (snd kv)) obj)); [|lia].
  apply list_max_In. apply in_map_iff. now exists (k, v).
Qed.

Lemma jsonDepth_nth_error (arr : JsonArray) (i : nat) :
  depthOf (nth_error arr i) < jsonDepth (JArray arr).
Proof.
  destruct (nth_error arr i) as [v|] eqn:Hget; simpl; [|lia].
  apply nth_error_In in Hget.
  assert (jsonDepth v <= list_max (map (fun x => jsonDepth x) arr)); [|lia].
  apply list_max_In. apply in_map_iff. now exists v.
Qed.

(** ** The recursion budget always suffices *)

Lemma compareJson_fuel_step (fuel : nat)
    (rec : option JsonValue -> option JsonValue -> string -> nat -> option string ->
           bool -> option nat -> DiffResult)
    (l r : option JsonValue) (path : string) (indent : nat) (key : option string)
    (isArr : bool) (idx : option nat) :
  (forall l' r' p i k a x,
      depthOf l' < depthOf l ->
      compareJson_fuel fuel l' r' p i k a x = Some (rec l' r' p i k a x)) ->
  compareJson_fuel (S fuel) l r path indent key isArr idx
  = Some (compareBody rec l r path indent key isArr idx).
Proof.
  intros Hrec. cbn [compareJson_fuel]. unfold compareBody.
  destruct l as [lv|], r as [rv|]; try reflexivity.
  destruct (isEqual lv rv); [now rewrite map_id|].
  destruct (negb (ValueType_eqb (getValueType lv) (getValueType rv))); [reflexivity|].
  destruct lv as [| | | |lo|la], rv as [| | | |ro|ra]; try reflexivity.
  - rewrite (loop_total _
      (fun k => rec (getProp lo k) (getProp ro k) (objectChildPath path k)
                  (indent + 1) (Some k) false None)).
    + reflexivity.
    + intros k _. apply Hrec. apply jsonDepth_getProp.
  - rewrite (loop_total _
      (fun i => rec (nth_error la i) (nth_error ra i) (arrayChildPath path i)
                  (indent + 1) None true (Some i))).
    + reflexivity.
    + intros i _. apply Hrec. apply jsonDepth_nth_error.
Qed.

Lemma compareJson_fuel_enough (fuel : nat) :
  forall (l r : option JsonValue) (path : string) (indent : nat) (key : option string)
         (isArr : bool) (idx : option nat),
    depthOf l < fuel ->
    compareJson_fuel fuel l r path indent key isArr idx
    = Some (compareJson l r path indent key isArr idx).
Proof.
  induction fuel as [fuel IH] using lt_wf_ind.
  intros l r path indent key isArr idx Hlt.
  destruct fuel as [|fuel]; [lia|].
  assert (Hcanon : compareJson_fuel (S (depthOf l)) l r path indent key isArr idx
                   = Some (compareBody compareJson l r path indent key isArr idx)).
  { apply compareJson_fuel_step. intros. apply IH; lia. }
  rewrite (compareJson_fuel_step fuel compareJson).
  - unfold compareJson at 2. now rewrite Hcanon.
  - intros. apply IH; lia.
Qed.

(** The defining equation of the comparator. *)
Lemma compareJson_unfold (l r : option JsonValue) (path : string) (indent : nat)
    (key : option string) (isArr : bool) (idx : option nat) :
  compareJson l r path indent key isArr idx
  = compareBody compareJson l r path indent key isArr idx.
Proof.
  unfold compareJson at 1.
  rewrite (compareJson_fuel_step (depthOf l) compareJson); [reflexivity|].
  intros. apply compareJson_fuel_enough. lia.
Qed.

(** Induction following the recursive calls of the comparator. *)
Lemma compareJson_cases (P : option JsonValue -> option JsonValue -> Prop) :
  P None None ->
  (forall lv, P (Some lv) None) ->
  (forall rv, P None (Some rv)) ->
  (forall lv rv, isEqual lv rv = true -> P (Some lv) (Some rv)) ->
  (forall lv rv,
      isEqual lv rv = false ->
      ValueType_eqb (getValueType lv) (getValueType rv) = false ->
      P (Some lv) (Some rv)) ->
  (forall lo ro,
      isEqual (JObject lo) (JObject ro) = false ->
      (forall k, P (getProp lo k) (getProp ro k)) ->
      P (Some (JObject lo)) (Some (JObject ro))) ->
  (forall la ra,
      isEqual (JArray la) (JArray ra) = false ->
      (forall i, P (nth_error la i) (nth_error ra i)) ->
      P (Some (JArray la)) (Some (JArray ra))) ->
  (forall lv rv,
      isEqual lv rv = false ->
      getValueType lv = TPrimitive -> getValueType rv = TPrimitive ->
      P (Some lv) (Some rv)) ->
  forall l r, P l r.
Proof.
  intros HNN HSN HNS Heq Hty Hobj Harr Hprim l.
  remember (depthOf l) as d eqn:Hd. revert l Hd.
  induction d as [d IH] using lt_wf_ind. intros l Hd r.
  destruct l as [lv|], r as [rv|]; auto.
  destruct (isEqual lv rv) eqn:E; [auto|].
  destruct (ValueType_eqb (getValueType lv) (getValueType rv)) eqn:T; [|auto].
  destruct lv as [| | | |lo|la], rv as [| | | |ro|ra]; try discriminate T;
    try (apply Hprim; auto; fail).
  - apply Hobj; [exact E|]. intros k.
    apply (IH (depthOf (getProp lo k))); [|reflexivity].
    subst d. apply jsonDepth_getProp.
  - apply Harr; [exact E|]. intros i.
    apply (IH (depthOf (nth_error la i))); [|reflexivity].
    subst d. apply jsonDepth_nth_error.
Qed.

(** ** The subtree materializer as a concatenation *)

Lemma createNodes_object (obj : JsonObject) (path : string) (indent : nat)
    (key : option string) (diffType : DiffType) (isArr : bool) (idx : option nat) :
  createNodesForValue (JObject obj) path indent key diffType isArr idx
  = [openingNode diffType key path "{" indent isArr idx]
    ++ flat_map
         (fun kv =>
            createNodesForValue (snd kv) (objectChildPath path (fst kv)) (indent + 1)
              (Some (fst kv)) diffType false None) obj
    ++ [closingNode diffType path "}" indent BracketObject].
Proof.
  cbn [createNodesForValue].
  rewrite (forEachEntry_append
             (fun k v => createNodesForValue v (objectChildPath path k) (indent + 1)
                           (Some k) diffType false None)).
  now rewrite <- app_assoc.
Qed.

Lemma createNodes_array (arr : JsonArray) (path : string) (indent : nat)
    (key : option string) (diffType : DiffType) (isArr : bool) (idx : option nat) :
  createNodesForValue (JArray arr) path indent key diffType isArr idx
  = [openingNode diffType key path "[" indent isArr idx]
    ++ flat_map
         (fun jv =>
            createNodesForValue (snd jv) (arrayChildPath path (fst jv)) (indent + 1)
              None diffType true (Some (fst jv))) (combine (seq 0 (length arr)) arr)
    ++ [closingNode diffType path "]" indent BracketArray].
Proof.
  cbn [createNodesForValue].
  rewrite (forEachItem_append
             (fun j v => createNodesForValue v (arrayChildPath path j) (indent + 1)
                           None diffType true (Some j))).
  now rewrite <- app_assoc.
Qed.

Lemma createNodes_primitive (v : JsonValue) (path : string) (indent : nat)
    (key : option string) (diffType : DiffType) (isArr : bool) (idx : option nat) :
  getValueType v = TPrimitive ->
  createNodesForValue v path indent key diffType isArr idx
  = [primitiveNode diffType key path v indent isArr idx].
Proof. destruct v; simpl; intros H; try reflexivity; discriminate H. Qed.

Lemma Forall_flat_map_intro {A B : Type} (P : B -> Prop) (f : A -> list B) (xs : list A) :
  (forall x, In x xs -> Forall P (f x)) -> Forall P (flat_map f xs).
Proof.
  induction xs as [|x xs IH]; intros H; simpl; [constructor|].
  apply Forall_app; split; [apply H; now left|].
  apply IH. intros y Hy. apply H. now right.
Qed.

Lemma length_flat_map_ext {A B C : Type} (f : A -> list B) (g : A -> list C) (xs : list A) :
  (forall x, In x xs -> length (f x) = length (g x)) ->
  length (flat_map f xs) = length (flat_map g xs).
Proof.
  induction xs as [|x xs IH]; intros H; simpl; [reflexivity|].
  rewrite !length_app, (H x) by (now left).
  f_equal. apply IH. intros y Hy. apply H. now right.
Qed.

(** Every node of a materialized subtree satisfies [P] as soon as the
    three node shapes of the materializer do. *)
Lemma createNodes_Forall (P : DiffNode -> Prop) (diffType : DiffType) :
  (forall key path indent isArr idx,
      P (openingNode diffType key path "{" indent isArr idx)
      /\ P (openingNode diffType key path "[" indent isArr idx)) ->
  (forall path indent,
      P (closingNode diffType path "}" indent BracketObject)
      /\ P (closingNode diffType path "]" indent BracketArray)) ->
  (forall key path v indent isArr idx,
      getValueType v = TPrimitive ->
      P (primitiveNode diffType key path v indent isArr idx)) ->
  forall v path indent key isArr idx,
    Forall P (createNodesForValue v path indent key diffType isArr idx).
Proof.
  intros Hopen Hclose Hprim.
  induction v as [| b | z | s | obj IH | arr IH] using JsonValue_nested_ind;
    intros path indent key isArr idx;
    try (rewrite createNodes_primitive by reflexivity; repeat constructor;
         now apply Hprim).
  - rewrite createNodes_object. repeat (apply Forall_app; split).
    + repeat constructor. apply Hopen.
    + apply Forall_flat_map_intro. intros kv Hin.
      rewrite List.Forall_forall in IH. now apply IH.
    + repeat constructor. apply Hclose.
  - rewrite createNodes_array. repeat (apply Forall_app; split).
    + repeat constructor. apply Hopen.
    + apply Forall_flat_map_intro. intros [j x] Hin.
      rewrite List.Forall_forall in IH. apply IH.
      now apply in_combine_r in Hin.
    + repeat constructor. apply Hclose.
Qed.

Lemma length_spacersFor (nodes : list DiffNode) (indent : nat) :
  length (spacersFor nodes indent) = length nodes.
Proof. unfold spacersFor. apply repeat_length. Qed.

Lemma length_padSpacers (nodes : list DiffNode) (maxLen indent : nat) :
  length nodes <= maxLen -> length (padSpacers nodes maxLen indent) = maxLen.
Proof. intros H. unfold padSpacers. rewrite length_app, repeat_length. lia. Qed.

(** ** C1: alignment *)

(** C1. For every pair of inputs, each a value or absent, and every path,
    indent, key and array position, the left and the right node sequences
    returned by [compareJson] have the same length. *)
Theorem compareJson_alignment (l r : option JsonValue) (path : string) (indent : nat)
    (key : option string) (isArr : bool) (idx : option nat) :
  length (leftNodes (compareJson l r path indent key isArr idx))
  = length (rightNodes (compareJson l r path indent key isArr idx)).
Proof.
  revert path indent key isArr idx.
  apply (compareJson_cases
           (fun l r => forall path indent key isArr idx,
                length (leftNodes (compareJson l r path indent key isArr idx))
                = length (rightNodes (compareJson l r path indent key isArr idx))));
    clear l r.
  - intros. now rewrite compareJson_unfold.
  - intros lv *. rewrite compareJson_unfold. cbn. now rewrite length_spacersFor.
  - intros rv *. rewrite compareJson_unfold. cbn. now rewrite length_spacersFor.
  - intros lv rv E *. rewrite compareJson_unfold. cbn. now rewrite E.
  - intros lv rv E T *. rewrite compareJson_unfold. cbn. rewrite E, T. cbn.
    rewrite !length_padSpacers; lia.
  - intros lo ro E IH *. rewrite compareJson_unfold. unfold compareBody.
    rewrite E. cbn [getValueType ValueType_eqb negb leftNodes rightNodes].
    rewrite !length_app. f_equal. f_equal.
    apply length_flat_map_ext. intros k _. apply IH.
  - intros la ra E IH *. rewrite compareJson_unfold. unfold compareBody.
    rewrite E. cbn [getValueType ValueType_eqb negb leftNodes rightNodes].
    rewrite !length_app. f_equal. f_equal.
    apply length_flat_map_ext. intros i _. apply IH.
  - intros lv rv E Tl Tr *. rewrite compareJson_unfold. unfold compareBody.
    rewrite E. destruct lv, rv; try discriminate; reflexivity.
Qed.

(** ** C9, C10: totality and the empty alignment *)


(** C10. When both inputs are absent, [compareJson] returns two empty node
    sequences, whatever the path, indent, key and array position: no node
    at all, not even a spacer. *)
Theorem compareJson_both_absent (path : string) (indent : nat) (key : option string)
    (isArr : bool) (idx : option nat) :
  compareJson None None path indent key isArr idx
  = {| leftNodes := []; rightNodes := [] |}
  /\ forall fuel : nat,
      compareJson_fuel (S fuel) None None path indent key isArr idx
      = Some {| leftNodes := []; rightNodes := [] |}.
Proof. split; [now rewrite compareJson_unfold|reflexivity]. Qed.

(** ** C5: positional array semantics *)

(** C5. [compare([1,2,3], [0,1,2,3])]: both columns open and close with the
    shared bracket nodes; the entries at indices 0, 1 and 2 are Modified on
    both sides (1 vs 0, 2 vs 1, 3 vs 2); the entry at index 3 is Added on
    the right, facing a Spacer on the left. *)
Theorem compareJson_positional_arrays :
  compareJsonTop (Some (JArray [JNum 1; JNum 2; JNum 3]))
                 (Some (JArray [JNum 0; JNum 1; JNum 2; JNum 3]))
  = {| leftNodes :=
         [ pairedOpenNode None "" "[" 0 false None;
           modifiedLeftNode None "[0]" (JNum 1) 1 true (Some 0);
           modifiedLeftNode None "[1]" (JNum 2) 1 true (Some 1);
           modifiedLeftNode None "[2]" (JNum 3) 1 true (Some 2);
           createSpacer 1;
           pairedCloseNode "" "]" 0 BracketArray ];
       rightNodes :=
         [ pairedOpenNode None "" "[" 0 false None;
           modifiedRightNode None "[0]" (JNum 0) 1 true (Some 0);
           modifiedRightNode None "[1]" (JNum 1) 1 true (Some 1);
           modifiedRightNode None "[2]" (JNum 2) 1 true (Some 2);
           primitiveNode ADDED None "[3]" (JNum 3) 1 true (Some 3);
           pairedCloseNode "" "]" 0 BracketArray ] |}
  /\ typesOf (leftNodes (compareJsonTop (Some (JArray [JNum 1; JNum 2; JNum 3]))
                           (Some (JArray [JNum 0; JNum 1; JNum 2; JNum 3]))))
     = [UNCHANGED; MODIFIED; MODIFIED; MODIFIED; SPACER; UNCHANGED]
  /\ typesOf (rightNodes (compareJsonTop (Some (JArray [JNum 1; JNum 2; JNum 3]))
                            (Some (JArray [JNum 0; JNum 1; JNum 2; JNum 3]))))
     = [UNCHANGED; MODIFIED; MODIFIED; MODIFIED; ADDED; UNCHANGED].
Proof. repeat split; vm_compute; reflexivity. Qed.

(** ** Facts about keys, deep equality and the line count *)

Lemma Set_has_In (keys : list string) (k : string) :
  Set_has keys k = true <-> In k keys.
Proof.
  unfold Set_has. rewrite existsb_exists. split.
  - intros (x & Hin & Heq). apply String.eqb_eq in Heq. now subst.
  - intros Hin. exists k. split; [exact Hin|apply String.eqb_refl].
Qed.

Lemma Set_has_false (keys : list string) (k : string) :
  Set_has keys k = false <-> ~ In k keys.
Proof.
  rewrite <- Set_has_In. destruct (Set_has keys k); split; congruence.
Qed.

Lemma uniqueKeys_NoDup (keys : list string) :
  uniqueKeys keys = true <-> List.NoDup keys.
Proof.
  induction keys as [|k rest IH]; simpl.
  - split; [constructor|reflexivity].
  - rewrite andb_true_iff, negb_true_iff, Set_has_false, IH. split.
    + intros [H1 H2]. now constructor.
    + intros H. inversion H; subst. now split.
Qed.

Lemma getProp_None (obj : JsonObject) (k : string) :
  getProp obj k = None <-> ~ In k (Object_keys obj).
Proof.
  induction obj as [|[k' v'] rest IH]; simpl; [tauto|].
  destruct (String.eqb_spec k' k) as [->|Hne].
  - split; [discriminate|]. intros H. exfalso. apply H. now left.
  - rewrite IH. unfold Object_keys. tauto.
Qed.

Lemma getProp_unique (obj : JsonObject) (k : string) (v : JsonValue) :
  uniqueKeys (Object_keys obj) = true -> In (k, v) obj -> getProp obj k = Some v.
Proof.
  induction obj as [|[k' v'] rest IH]; simpl; [tauto|].
  rewrite andb_true_iff, negb_true_iff, Set_has_false. intros [Hfresh Huniq] [Heq|Hin].
  - inversion Heq; subst. now rewrite String.eqb_refl.
  - destruct (String.eqb_spec k' k) as [->|Hne]; [|now apply IH].
    exfalso. apply Hfresh. apply in_map_iff. now exists (k, v).
Qed.

Lemma all2_refl {A : Type} (f : A -> A -> bool) (l : list A) :
  Forall (fun x => f x x = true) l -> all2 f l l = true.
Proof.
  induction 1 as [|x l Hx _ IH]; simpl; [reflexivity|]. now rewrite Hx, IH.
Qed.

Lemma isEqual_refl (v : JsonValue) : wfJson v = true -> isEqual v v = true.
Proof.
  induction v as [| b | z | s | obj IH | arr IH] using JsonValue_nested_ind;
    simpl; intros Hwf.
  - reflexivity.
  - now destruct b.
  - apply Z.eqb_refl.
  - apply String.eqb_refl.
  - apply andb_true_iff in Hwf as [Huniq Hall].
    rewrite Nat.eqb_refl. simpl. apply forallb_forall. intros [k v] Hin.
    simpl. rewrite (getProp_unique obj k v Huniq Hin).
    rewrite List.Forall_forall in IH. apply (IH (k, v) Hin).
    rewrite forallb_forall in Hall. apply (Hall (k, v) Hin).
  - apply all2_refl. rewrite List.Forall_forall in *. intros x Hin.
    apply IH; [exact Hin|]. rewrite forallb_forall in Hwf. now apply Hwf.
Qed.

Lemma length_flat_map_sum {A B : Type} (f : A -> list B) (g : A -> nat) (xs : list A) :
  (forall x, In x xs -> length (f x) = g x) ->
  length (flat_map f xs) = list_sum (map g xs).
Proof.
  induction xs as [|x xs IH]; intros H; simpl; [reflexivity|].
  rewrite length_app, (H x) by (now left). f_equal.
  apply IH. intros y Hy. apply H. now right.
Qed.

Lemma map_snd_combine_seq {A : Type} (l : list A) (i : nat) :
  map snd (combine (seq i (length l)) l) = l.
Proof.
  revert i. induction l as [|x l IH]; intros i; simpl; [reflexivity|].
  now rewrite IH.
Qed.

(** The materializer emits [sizeOf v] lines, whatever the classification. *)
Lemma length_createNodes (v : JsonValue) :
  forall path indent key diffType isArr idx,
    length (createNodesForValue v path indent key diffType isArr idx) = sizeOf v.
Proof.
  induction v as [| b | z | s | obj IH | arr IH] using JsonValue_nested_ind;
    intros path indent key diffType isArr idx; try reflexivity.
  - rewrite createNodes_object, !length_app. cbn [sizeOf length].
    rewrite (length_flat_map_sum _ (fun kv => sizeOf (snd kv))); [lia|].
    intros kv Hin. rewrite List.Forall_forall in IH. now apply IH.
  - rewrite createNodes_array, !length_app. cbn [sizeOf length].
    rewrite (length_flat_map_sum _ (fun jv => sizeOf (snd jv))).
    + rewrite <- (map_map snd (fun x => sizeOf x)), map_snd_combine_seq. lia.
    + intros [j x] Hin. rewrite List.Forall_forall in IH. apply IH.
      now apply in_combine_r in Hin.
Qed.

(** ** C7: one-sided materialization *)

(** C7, as the code has it. A materialized subtree has one node per line
    of the value, hence at least one. Every node of a subtree materialized
    as Removed is classified Removed, has its [leftValue] populated and
    its [rightValue] empty; every node of a subtree materialized as Added
    is classified Added, has its [rightValue] populated and its
    [leftValue] empty. In a subtree materialized as Modified (the
    type-mismatch case) or as Unchanged, every node has that
    classification and every leaf node, that is every node that neither
    opens nor closes an object or an array, has both sides populated, with
    the same value. For a primitive value the subtree is the single leaf
    carrying that value: on the left when Removed, on the right when
    Added, on both sides when Modified or Unchanged. *)
Theorem createNodesForValue_one_sided (v : JsonValue) (path : string) (indent : nat)
    (key : option string) (isArr : bool) (idx : option nat) :
  Forall (fun n => type n = REMOVED /\ hasValue (leftValue n) /\ rightValue n = None)
    (createNodesForValue v path indent key REMOVED isArr idx)
  /\ Forall (fun n => type n = ADDED /\ hasValue (rightValue n) /\ leftValue n = None)
       (createNodesForValue v path indent key ADDED isArr idx)
  /\ (forall diffType,
        diffType = MODIFIED \/ diffType = UNCHANGED ->
        Forall (fun n => type n = diffType
                         /\ (isCollapsible n = false -> isClosingBracket n = None ->
                             hasValue (leftValue n) /\ rightValue n = leftValue n))
          (createNodesForValue v path indent key diffType isArr idx))
  /\ (forall diffType,
        length (createNodesForValue v path indent key diffType isArr idx) = sizeOf v
        /\ createNodesForValue v path indent key diffType isArr idx <> [])
  /\ (getValueType v = TPrimitive ->
      forall diffType,
        exists n,
          createNodesForValue v path indent key diffType isArr idx = [n]
          /\ type n = diffType
          /\ leftValue n = match diffType with
                           | REMOVED | MODIFIED | UNCHANGED => Some v
                           | _ => None
                           end
          /\ rightValue n = match diffType with
                            | ADDED | MODIFIED | UNCHANGED => Some v
                            | _ => None
                            end).
Proof.
  split; [|split; [|split; [|split]]].
  - apply createNodes_Forall; intros; unfold hasValue; cbn; repeat split; congruence.
  - apply createNodes_Forall; intros; unfold hasValue; cbn; repeat split; congruence.
  - intros diffType [->| ->]; apply createNodes_Forall; intros; unfold hasValue; cbn;
      repeat split; intros; congruence.
  - intros diffType. split; [apply length_createNodes|].
    intros Hnil. apply (f_equal (@length DiffNode)) in Hnil.
    rewrite length_createNodes in Hnil. destruct v; cbn in Hnil; lia.
  - intros Hprim diffType. destruct v; try discriminate Hprim;
      (eexists; split; [reflexivity|]); destruct diffType; repeat split.
Qed.

Lemma createNodesForValue_one_sided_witness :
  Forall (fun n => type n = MODIFIED
                   /\ (isCollapsible n = false -> isClosingBracket n = None ->
                       hasValue (leftValue n) /\ rightValue n = leftValue n))
    (createNodesForValue (JObject [("a", JNum 1)]) "" 0 None MODIFIED false None)
  /\ getValueType (JNum 1) = TPrimitive
  /\ exists n,
       createNodesForValue (JNum 1) "" 0 None MODIFIED false None = [n]
       /\ type n = MODIFIED
       /\ leftValue n = Some (JNum 1)
       /\ rightValue n = Some (JNum 1).
Proof.
  split; [|split; [reflexivity|]].
  - destruct (createNodesForValue_one_sided (JObject [("a", JNum 1)]) "" 0 None false None)
      as (_ & _ & H & _).
    apply (H MODIFIED). now left.
  - destruct (createNodesForValue_one_sided (JNum 1) "" 0 None false None)
      as (_ & _ & _ & _ & H).
    exact (H eq_refl MODIFIED).
Defined.

(** C7, as stated, fails for the type-mismatch case: in [compare(1, [])]
    the left column is the subtree of [1] materialized as Modified
    followed by one spacer, and the node of that subtree carries the value
    [1] on both sides. *)
Lemma createNodesForValue_one_sided_counterexample :
  leftNodes (compareJsonTop (Some (JNum 1)) (Some (JArray [])))
  = createNodesForValue (JNum 1) "" 0 None MODIFIED false None ++ [createSpacer 0]
  /\ ~ populatedOneSideOnly (createNodesForValue (JNum 1) "" 0 None MODIFIED false None).
Proof.
  split; [reflexivity|].
  intros H. inversion H as [|n rest [Hl|Hr] _]; discriminate.
Qed.

(** ** C2: reflexivity *)

(** C2. For every value [V] (with unique keys in each object),
    [compare(V, V)] yields only Unchanged nodes on both sides, both
    sequences have [sizeOf V] entries, and [sizeOf V] is the number of
    nodes the subtree materializer produces for [V] under any
    classification. *)
Theorem compareJson_reflexive (V : JsonValue) (path : string) (indent : nat)
    (key : option string) (isArr : bool) (idx : option nat) :
  wfJson V = true ->
  Forall (fun n => type n = UNCHANGED)
    (leftNodes (compareJson (Some V) (Some V) path indent key isArr idx))
  /\ Forall (fun n => type n = UNCHANGED)
       (rightNodes (compareJson (Some V) (Some V) path indent key isArr idx))
  /\ length (leftNodes (compareJson (Some V) (Some V) path indent key isArr idx)) = sizeOf V
  /\ length (rightNodes (compareJson (Some V) (Some V) path indent key isArr idx)) = sizeOf V
  /\ forall diffType,
      length (createNodesForValue V path indent key diffType isArr idx) = sizeOf V.
Proof.
  intros Hwf. rewrite compareJson_unfold. unfold compareBody.
  rewrite (isEqual_refl V Hwf). cbn [leftNodes rightNodes].
  assert (Hall : Forall (fun n => type n = UNCHANGED)
                   (createNodesForValue V path indent key UNCHANGED isArr idx)).
  { apply createNodes_Forall; intros; cbn; auto. }
  repeat split; auto using length_createNodes.
Qed.

Lemma compareJson_reflexive_witness :
  wfJson (JObject [("a", JArray [JNum 1; JNull]); ("b", JStr "x")]) = true
  /\ Forall (fun n => type n = UNCHANGED)
       (leftNodes (compareJson
          (Some (JObject [("a", JArray [JNum 1; JNull]); ("b", JStr "x")]))
          (Some (JObject [("a", JArray [JNum 1; JNull]); ("b", JStr "x")]))
          "" 0 None false None))
  /\ length (leftNodes (compareJson
          (Some (JObject [("a", JArray [JNum 1; JNull]); ("b", JStr "x")]))
          (Some (JObject [("a", JArray [JNum 1; JNull]); ("b", JStr "x")]))
          "" 0 None false None)) = 7.
Proof.
  split; [reflexivity|].
  pose proof (compareJson_reflexive
                (JObject [("a", JArray [JNum 1; JNull]); ("b", JStr "x")])
                "" 0 None false None eq_refl) as (Hl & _ & Hlen & _).
  split; [exact Hl|exact Hlen].
Defined.

(** ** C8: the collapse filter *)

Lemma string_app_assoc (a b c : string) : ((a ++ b) ++ c = a ++ b ++ c)%string.
Proof.
  induction a as [|x a IH]; [reflexivity|].
  change (String x ((a ++ b) ++ c) = String x (a ++ b ++ c))%string. now f_equal.
Qed.

Lemma startsWith_spec (s p : string) :
  startsWith s p = true <-> exists rest : string, s = (p ++ rest)%string.
Proof.
  unfold startsWith. revert s. induction p as [|x p IH]; intros s.
  - split; [intros _; now exists s|intros _; now destruct s].
  - destruct s as [|y s].
    { split; [discriminate|intros [rest H]; discriminate H]. }
    change (String.prefix (String x p) (String y s))
      with (if Ascii.ascii_dec x y then String.prefix p s else false).
    destruct (Ascii.ascii_dec x y) as [->|Hne].
    + rewrite IH. split; intros [rest H]; exists rest.
      * change (String y s = String y (p ++ rest))%string. now f_equal.
      * change (String y s = String y (p ++ rest))%string in H. now inversion H.
    + split; [discriminate|]. intros [rest H].
      change (String y s = String x (p ++ rest))%string in H. inversion H. congruence.
Qed.

Lemma shouldSkip_spec (collapsedPaths : gset string) (node : DiffNode) :
  shouldSkip collapsedPaths node = true
  <-> exists c, c ∈ collapsedPaths /\ strictDescendant (path node) c.
Proof.
  unfold shouldSkip, strictDescendant. rewrite existsb_exists. split.
  - intros (c & Hin & Hstart). exists c. split.
    + apply elem_of_elements. now apply list_elem_of_In.
    + apply orb_true_iff in Hstart as [H|H]; apply startsWith_spec in H as [rest H];
        exists rest; rewrite string_app_assoc in H; auto.
  - intros (c & Hin & rest & H). exists c. split.
    + apply list_elem_of_In. now apply elem_of_elements.
    + apply orb_true_iff.
      destruct H as [H|H]; [left|right]; apply startsWith_spec; exists rest;
        now rewrite string_app_assoc.
Qed.

Lemma truthy_spec (flag : option bool) : truthy flag = true <-> flag = Some true.
Proof. destruct flag as [[|]|]; simpl; split; congruence. Qed.

Lemma filterNodes_acc (collapsedPaths : gset string) (nodes acc : list DiffNode) :
  fold_left
    (fun result node =>
       if shouldSkip collapsedPaths node then result
       else if truthy (isClosingBracket node)
               && bool_decide (path node ∈ collapsedPaths) then result
       else result ++ [node])
    nodes acc
  = acc ++ filterNodes collapsedPaths nodes.
Proof.
  unfold filterNodes. revert acc.
  induction nodes as [|n nodes IH] using rev_ind; intros acc; simpl.
  - now rewrite app_nil_r.
  - rewrite !fold_left_app. simpl. rewrite IH.
    destruct (shouldSkip collapsedPaths n); [reflexivity|].
    destruct (truthy (isClosingBracket n) && bool_decide (path n ∈ collapsedPaths));
      [reflexivity|].
    now rewrite app_assoc.
Qed.

Lemma filterNodes_cons (collapsedPaths : gset string) (n : DiffNode)
    (nodes : list DiffNode) :
  filterNodes collapsedPaths (n :: nodes)
  = if shouldSkip collapsedPaths n then filterNodes collapsedPaths nodes
    else if truthy (isClosingBracket n) && bool_decide (path n ∈ collapsedPaths)
         then filterNodes collapsedPaths nodes
    else n :: filterNodes collapsedPaths nodes.
Proof.
  unfold filterNodes at 1. simpl.
  destruct (shouldSkip collapsedPaths n); [reflexivity|].
  destruct (truthy (isClosingBracket n) && bool_decide (path n ∈ collapsedPaths));
    [reflexivity|].
  now rewrite filterNodes_acc.
Qed.

(** C8. For every node sequence and every set of collapsed paths, the
    collapse filter returns the sequence with exactly the following nodes
    removed and all others kept in order: every node whose path extends a
    collapsed path at a ['.'] or ['['] boundary, and every closing-bracket
    node whose own path is collapsed. In particular a node that is not a
    closing bracket and whose path extends no collapsed path, such as the
    collapsed opening node itself, is kept. *)
Theorem filterNodes_collapse (collapsedPaths : gset string) (nodes : list DiffNode) :
  FilteredBy (dropped collapsedPaths) nodes (filterNodes collapsedPaths nodes)
  /\ forall n, In n nodes ->
       isClosingBracket n <> Some true ->
       (forall c, c ∈ collapsedPaths -> ~ strictDescendant (path n) c) ->
       In n (filterNodes collapsedPaths nodes).
Proof.
  assert (Hrel : FilteredBy (dropped collapsedPaths) nodes
                   (filterNodes collapsedPaths nodes)).
  { induction nodes as [|n nodes IH]; [constructor|].
    rewrite filterNodes_cons.
    destruct (shouldSkip collapsedPaths n) eqn:Hskip.
    { apply FilteredBy_drop; [|exact IH]. left. now apply shouldSkip_spec. }
    destruct (truthy (isClosingBracket n) && bool_decide (path n ∈ collapsedPaths))
      eqn:Hclose.
    { apply FilteredBy_drop; [|exact IH]. right.
      apply andb_true_iff in Hclose as [Hflag Hin].
      split; [now apply truthy_spec|now apply bool_decide_eq_true in Hin]. }
    apply FilteredBy_keep; [|exact IH].
    intros [Hdesc|[Hflag Hin]].
    - apply shouldSkip_spec in Hdesc. congruence.
    - apply truthy_spec in Hflag.
      rewrite Hflag, (bool_decide_eq_true_2 _ Hin) in Hclose. discriminate. }
  split; [exact Hrel|].
  intros n Hin Hflag Hdesc. clear Hrel.
  induction nodes as [|m nodes IH]; [contradiction|].
  rewrite filterNodes_cons. destruct Hin as [->|Hin].
  - destruct (shouldSkip collapsedPaths n) eqn:Hskip.
    { apply shouldSkip_spec in Hskip as (c & Hc & Hd). now destruct (Hdesc c Hc). }
    destruct (truthy (isClosingBracket n)) eqn:Ht;
      [apply truthy_spec in Ht; contradiction|].
    simpl. now left.
  - specialize (IH Hin).
    destruct (shouldSkip collapsedPaths m); [exact IH|].
    destruct (truthy (isClosingBracket m) && bool_decide (path m ∈ collapsedPaths));
      [exact IH|now right].
Qed.

(** ** Properties of all nodes of a comparison *)

Lemma Forall_repeat {A : Type} (P : A -> Prop) (x : A) (n : nat) :
  P x -> Forall P (repeat x n).
Proof. intros H. induction n; simpl; constructor; auto. Qed.

(** Every node of both columns satisfies [P] as soon as every node shape
    the engine can build does. *)
Lemma compareJson_Forall (P : DiffNode -> Prop) :
  (forall indent, P (createSpacer indent)) ->
  (forall diffType key path indent isArr idx,
      diffType <> SPACER ->
      P (openingNode diffType key path "{" indent isArr idx)
      /\ P (openingNode diffType key path "[" indent isArr idx)) ->
  (forall diffType path indent,
      diffType <> SPACER ->
      P (closingNode diffType path "}" indent BracketObject)
      /\ P (closingNode diffType path "]" indent BracketArray)) ->
  (forall diffType key path v indent isArr idx,
      diffType <> SPACER -> getValueType v = TPrimitive ->
      P (primitiveNode diffType key path v indent isArr idx)) ->
  (forall key path indent isArr idx,
      P (pairedOpenNode key path "{" indent isArr idx)
      /\ P (pairedOpenNode key path "[" indent isArr idx)) ->
  (forall path indent,
      P (pairedCloseNode path "}" indent BracketObject)
      /\ P (pairedCloseNode path "]" indent BracketArray)) ->
  (forall key path v indent isArr idx,
      getValueType v = TPrimitive ->
      P (modifiedLeftNode key path v indent isArr idx)
      /\ P (modifiedRightNode key path v indent isArr idx)) ->
  forall l r path indent key isArr idx,
    Forall P (leftNodes (compareJson l r path indent key isArr idx))
    /\ Forall P (rightNodes (compareJson l r path indent key isArr idx)).
Proof.
  intros Hsp Hopen Hclose Hprim Hpo Hpc Hmod.
  assert (Hcreate : forall diffType, diffType <> SPACER ->
            forall v path indent key isArr idx,
              Forall P (createNodesForValue v path indent key diffType isArr idx)).
  { intros diffType Hd. apply createNodes_Forall; intros; auto. }
  intros l r. apply (compareJson_cases
    (fun l r => forall path indent key isArr idx,
         Forall P (leftNodes (compareJson l r path indent key isArr idx))
         /\ Forall P (rightNodes (compareJson l r path indent key isArr idx)))); clear l r.
  - intros. rewrite compareJson_unfold. cbn. split; constructor.
  - intros lv *. rewrite compareJson_unfold. cbn. split.
    + now apply Hcreate.
    + now apply Forall_repeat.
  - intros rv *. rewrite compareJson_unfold. cbn. split.
    + now apply Forall_repeat.
    + now apply Hcreate.
  - intros lv rv E *. rewrite compareJson_unfold. cbn. rewrite E. cbn.
    split; now apply Hcreate.
  - intros lv rv E T *. rewrite compareJson_unfold. cbn. rewrite E, T. cbn.
    unfold padSpacers.
    split; apply Forall_app; split; try (now apply Hcreate); now apply Forall_repeat.
  - intros lo ro E IH *. rewrite compareJson_unfold. unfold compareBody.
    rewrite E. cbn [getValueType ValueType_eqb negb leftNodes rightNodes].
    split; repeat (apply Forall_app; split);
      try (repeat constructor; apply Hpo); try (repeat constructor; apply Hpc);
      apply Forall_flat_map_intro; intros k _; apply IH.
  - intros la ra E IH *. rewrite compareJson_unfold. unfold compareBody.
    rewrite E. cbn [getValueType ValueType_eqb negb leftNodes rightNodes].
    split; repeat (apply Forall_app; split);
      try (repeat constructor; apply Hpo); try (repeat constructor; apply Hpc);
      apply Forall_flat_map_intro; intros i _; apply IH.
  - intros lv rv E Tl Tr *. rewrite compareJson_unfold. unfold compareBody.
    rewrite E.
    destruct lv, rv; try discriminate; cbn; split; repeat constructor;
      now apply Hmod.
Qed.

(** ** C6: marker values of structural nodes *)

Ltac marker_shape :=
  unfold markerDiscipline, isOpenMarker; cbn;
  repeat split; intros; subst; cbn in *;
  try discriminate; try congruence; auto.

Lemma markerDiscipline_shapes :
  (forall indent, markerDiscipline (createSpacer indent))
  /\ (forall diffType key path indent isArr idx,
        markerDiscipline (openingNode diffType key path "{" indent isArr idx)
        /\ markerDiscipline (openingNode diffType key path "[" indent isArr idx))
  /\ (forall diffType path indent,
        markerDiscipline (closingNode diffType path "}" indent BracketObject)
        /\ markerDiscipline (closingNode diffType path "]" indent BracketArray))
  /\ (forall diffType key path v indent isArr idx,
        markerDiscipline (primitiveNode diffType key path v indent isArr idx))
  /\ (forall key path indent isArr idx,
        markerDiscipline (pairedOpenNode key path "{" indent isArr idx)
        /\ markerDiscipline (pairedOpenNode key path "[" indent isArr idx))
  /\ (forall path indent,
        markerDiscipline (pairedCloseNode path "}" indent BracketObject)
        /\ markerDiscipline (pairedCloseNode path "]" indent BracketArray))
  /\ (forall key path v indent isArr idx,
        markerDiscipline (modifiedLeftNode key path v indent isArr idx)
        /\ markerDiscipline (modifiedRightNode key path v indent isArr idx)).
Proof.
  repeat split; try (destruct diffType); marker_shape.
  all: match goal with
       | H : Some ?b = Some ?c |- _ => inversion H; subst; cbn; auto
       | _ => idtac
       end.
Qed.

(** C6, as the code has it. In every compare output, every node of either
    column obeys [markerDiscipline]: an opening node carries on each side
    the literal ["{"] or ["["] or nothing (on the left only when Removed,
    on the right only when Added, the same on both sides otherwise); the
    closing nodes are exactly the nodes flagged [isClosingBracket] and
    carry on each side the closing literal of their bracket kind or
    nothing (on the left only when Removed, on the right only when Added,
    on neither side when Modified, the same on both sides when Unchanged).
    Moreover, when both inputs are objects that are not deep-equal, both
    columns begin with the shared opening node, which carries ["{"] on
    both sides, and end with the shared closing node, which is flagged and
    carries ["}"] on both sides; likewise with ["["] and ["]"] when both
    inputs are arrays that are not deep-equal. *)
Theorem compareJson_markers (l r : option JsonValue) (path : string) (indent : nat)
    (key : option string) (isArr : bool) (idx : option nat) :
  Forall markerDiscipline (leftNodes (compareJson l r path indent key isArr idx))
  /\ Forall markerDiscipline (rightNodes (compareJson l r path indent key isArr idx))
  /\ (forall leftObj rightObj,
        l = Some (JObject leftObj) -> r = Some (JObject rightObj) ->
        isEqual (JObject leftObj) (JObject rightObj) = false ->
        sharedBrackets "{" BracketObject (compareJson l r path indent key isArr idx))
  /\ (forall leftArr rightArr,
        l = Some (JArray leftArr) -> r = Some (JArray rightArr) ->
        isEqual (JArray leftArr) (JArray rightArr) = false ->
        sharedBrackets "[" BracketArray (compareJson l r path indent key isArr idx)).
Proof.
  destruct markerDiscipline_shapes as (Hsp & Hop & Hcl & Hpr & Hpo & Hpc & Hmo).
  assert (Hall := compareJson_Forall markerDiscipline Hsp
                    (fun d k p i a x _ => Hop d k p i a x)
                    (fun d p i _ => Hcl d p i)
                    (fun d k p v i a x _ _ => Hpr d k p v i a x)
                    Hpo Hpc (fun k p v i a x _ => Hmo k p v i a x)
                    l r path indent key isArr idx).
  destruct Hall as [HL HR]. split; [exact HL|]. split; [exact HR|]. split.
  - intros lo ro -> -> E. rewrite compareJson_unfold. unfold compareBody.
    rewrite E. cbn [getValueType ValueType_eqb negb leftNodes rightNodes].
    eexists _, _, _, _. split; [reflexivity|]. split; [reflexivity|].
    cbn. repeat split.
  - intros la ra -> -> E. rewrite compareJson_unfold. unfold compareBody.
    rewrite E. cbn [getValueType ValueType_eqb negb leftNodes rightNodes].
    eexists _, _, _, _. split; [reflexivity|]. split; [reflexivity|].
    cbn. repeat split.
Qed.

Lemma compareJson_markers_witness :
  isEqual (JObject [("a", JNum 1)]) (JObject [("a", JNum 2)]) = false
  /\ sharedBrackets "{" BracketObject
       (compareJsonTop (Some (JObject [("a", JNum 1)])) (Some (JObject [("a", JNum 2)])))
  /\ isEqual (JArray [JNum 1]) (JArray [JNum 1; JNum 2]) = false
  /\ sharedBrackets "[" BracketArray
       (compareJsonTop (Some (JArray [JNum 1])) (Some (JArray [JNum 1; JNum 2]))).
Proof.
  split; [reflexivity|]. split.
  - destruct (compareJson_markers (Some (JObject [("a", JNum 1)]))
                (Some (JObject [("a", JNum 2)])) "" 0 None false None)
      as (_ & _ & H & _).
    apply (H [("a", JNum 1)] [("a", JNum 2)]); reflexivity.
  - split; [reflexivity|].
    destruct (compareJson_markers (Some (JArray [JNum 1]))
                (Some (JArray [JNum 1; JNum 2])) "" 0 None false None)
      as (_ & _ & _ & H).
    apply (H [JNum 1] [JNum 1; JNum 2]); reflexivity.
Defined.

(** C6, as stated, fails: in [compare({"a":1}, {"a":2})] the closing node
    of the root object carries the value ["}"] on both sides. *)
Lemma compareJson_markers_counterexample :
  ~ markersEverywhere
      (compareJsonTop (Some (JObject [("a", JNum 1)])) (Some (JObject [("a", JNum 2)]))).
Proof.
  intros (_ & _ & H).
  specialize (H (pairedCloseNode "" "}" 0 BracketObject)).
  assert (Hin : In (pairedCloseNode "" "}" 0 BracketObject)
                  (leftNodes (compareJsonTop (Some (JObject [("a", JNum 1)]))
                                (Some (JObject [("a", JNum 2)])))
                   ++ rightNodes (compareJsonTop (Some (JObject [("a", JNum 1)]))
                                    (Some (JObject [("a", JNum 2)]))))).
  { vm_compute. auto 10. }
  destruct (H Hin) as (_ & Hl & _); [discriminate|]. discriminate Hl.
Qed.

(** The opening node of a deep-equal (or type-mismatched) subtree is built
    by the materializer with a classification that is neither Removed nor
    Added, and then carries no literal on either side: here the opening
    node of [compare({}, {})]. *)
Example unchanged_opening_node_without_marker :
  leftNodes (compareJsonTop (Some (JObject [])) (Some (JObject [])))
  = [openingNode UNCHANGED None "" "{" 0 false None;
     closingNode UNCHANGED "" "}" 0 BracketObject]
  /\ leftValue (openingNode UNCHANGED None "" "{" 0 false None) = None
  /\ rightValue (openingNode UNCHANGED None "" "{" 0 false None) = None.
Proof. repeat split. Qed.

(** ** Aligned keys, lookups and the keys shown at a depth *)

Lemma fold_left_push {A : Type} (xs acc : list A) :
  fold_left (fun all x => all ++ [x]) xs acc = acc ++ xs.
Proof.
  revert acc. induction xs as [|x xs IH]; intros acc; simpl.
  - now rewrite app_nil_r.
  - rewrite IH. now rewrite <- app_assoc.
Qed.

Lemma fold_left_push_if {A : Type} (keep : A -> bool) (xs acc : list A) :
  fold_left (fun all x => if keep x then all ++ [x] else all) xs acc
  = acc ++ List.filter keep xs.
Proof.
  revert acc. induction xs as [|x xs IH]; intros acc; simpl.
  - now rewrite app_nil_r.
  - rewrite IH. destruct (keep x); [|reflexivity]. now rewrite <- app_assoc.
Qed.

Lemma getAlignedKeys_filter (leftObj rightObj : JsonObject) :
  getAlignedKeys leftObj rightObj
  = Object_keys leftObj
    ++ List.filter (fun k => negb (Set_has (Object_keys leftObj) k)) (Object_keys rightObj).
Proof.
  unfold getAlignedKeys. rewrite fold_left_push. simpl.
  apply (fold_left_push_if (fun k => negb (Set_has (Object_keys leftObj) k))).
Qed.

Lemma filter_right_only (leftKeys rightKeys : list string) :
  List.filter (fun k => negb (Set_has leftKeys k)) rightKeys
  = filter (fun k => k ∉ leftKeys) rightKeys.
Proof.
  induction rightKeys as [|k rest IH]; [reflexivity|].
  cbn [List.filter]. rewrite filter_cons. rewrite IH.
  destruct (Set_has leftKeys k) eqn:Hhas; cbn [negb].
  - apply Set_has_In, list_elem_of_In in Hhas. now rewrite decide_False by tauto.
  - apply Set_has_false in Hhas. rewrite <- list_elem_of_In in Hhas.
    now rewrite decide_True.
Qed.

Lemma keysAt_app (d : nat) (a b : list DiffNode) :
  keysAt d (a ++ b) = keysAt d a ++ keysAt d b.
Proof. unfold keysAt. apply flat_map_app. Qed.

Lemma keysAt_deeper (d : nat) (nodes : list DiffNode) :
  Forall (fun n => d < indent n) nodes -> keysAt d nodes = [].
Proof.
  induction 1 as [|n nodes Hn _ IH]; [reflexivity|].
  unfold keysAt in *. simpl. rewrite IH.
  destruct (Nat.eqb_spec (indent n) d); [lia|reflexivity].
Qed.

Lemma keysAt_no_key (d : nat) (nodes : list DiffNode) :
  Forall (fun n => key n = None) nodes -> keysAt d nodes = [].
Proof.
  induction 1 as [|n nodes Hn _ IH]; [reflexivity|].
  unfold keysAt in *. simpl. rewrite IH, Hn. now destruct (indent n =? d).
Qed.

Lemma Forall_flat_map_weaken {A : Type} (P Q : DiffNode -> Prop)
    (f : A -> list DiffNode) (xs : list A) :
  (forall n, P n -> Q n) ->
  (forall x, In x xs -> Forall P (f x)) -> Forall Q (flat_map f xs).
Proof.
  intros HPQ H. apply Forall_flat_map_intro. intros x Hx.
  eapply List.Forall_impl; [exact HPQ|]. now apply H.
Qed.

(** No node of a materialized subtree is shallower than its root. *)
Lemma createNodes_indent (v : JsonValue) :
  forall path indent0 key diffType isArr idx,
    Forall (fun n => indent0 <= indent n)
      (createNodesForValue v path indent0 key diffType isArr idx).
Proof.
  induction v as [| b | z | s | obj IH | arr IH] using JsonValue_nested_ind;
    intros path indent0 key diffType isArr idx;
    try (repeat constructor; cbn; lia).
  - rewrite createNodes_object. repeat (apply Forall_app; split);
      try (repeat constructor; cbn; lia).
    apply (Forall_flat_map_weaken (fun n => indent0 + 1 <= indent n)); [intros; lia|].
    intros kv Hin. rewrite List.Forall_forall in IH. now apply IH.
  - rewrite createNodes_array. repeat (apply Forall_app; split);
      try (repeat constructor; cbn; lia).
    apply (Forall_flat_map_weaken (fun n => indent0 + 1 <= indent n)); [intros; lia|].
    intros [j x] Hin. rewrite List.Forall_forall in IH. apply IH.
    now apply in_combine_r in Hin.
Qed.

Lemma keysAt_children_deeper {A : Type} (d : nat) (f : A -> list DiffNode) (xs : list A) :
  (forall x, In x xs -> Forall (fun n => d + 1 <= indent n) (f x)) ->
  keysAt d (flat_map f xs) = [].
Proof.
  intros H. apply keysAt_deeper.
  apply (Forall_flat_map_weaken (fun n => d + 1 <= indent n)); [intros; lia|exact H].
Qed.

(** At its own depth a materialized subtree shows the key of its root only. *)
Lemma createNodes_keysAt (v : JsonValue) (path : string) (d : nat) (key : option string)
    (diffType : DiffType) (isArr : bool) (idx : option nat) :
  keysAt d (createNodesForValue v path d key diffType isArr idx) = keyList key.
Proof.
  destruct v as [| b | z | s | obj | arr];
    try (unfold keysAt; cbn; rewrite Nat.eqb_refl; destruct key; reflexivity).
  - rewrite createNodes_object, !keysAt_app, keysAt_children_deeper.
    + unfold keysAt; cbn. rewrite Nat.eqb_refl. destruct key; reflexivity.
    + intros kv _. apply createNodes_indent.
  - rewrite createNodes_array, !keysAt_app, keysAt_children_deeper.
    + unfold keysAt; cbn. rewrite Nat.eqb_refl. destruct key; reflexivity.
    + intros jv _. apply createNodes_indent.
Qed.

Lemma keysAt_repeat_spacer (d indent0 n : nat) :
  keysAt d (repeat (createSpacer indent0) n) = [].
Proof. apply keysAt_no_key. now apply Forall_repeat. Qed.

(** No node of a comparison is shallower than the compared position. *)
Lemma compareJson_indent (l r : option JsonValue) :
  forall path indent0 key isArr idx,
    Forall (fun n => indent0 <= indent n)
      (leftNodes (compareJson l r path indent0 key isArr idx))
    /\ Forall (fun n => indent0 <= indent n)
         (rightNodes (compareJson l r path indent0 key isArr idx)).
Proof.
  apply (compareJson_cases
    (fun l r => forall path indent0 key isArr idx,
         Forall (fun n => indent0 <= indent n)
           (leftNodes (compareJson l r path indent0 key isArr idx))
         /\ Forall (fun n => indent0 <= indent n)
              (rightNodes (compareJson l r path indent0 key isArr idx)))); clear l r.
  - intros. rewrite compareJson_unfold. cbn. split; constructor.
  - intros lv *. rewrite compareJson_unfold. cbn. split.
    + apply createNodes_indent.
    + apply Forall_repeat. cbn. lia.
  - intros rv *. rewrite compareJson_unfold. cbn. split.
    + apply Forall_repeat. cbn. lia.
    + apply createNodes_indent.
  - intros lv rv E *. rewrite compareJson_unfold. cbn. rewrite E. cbn.
    split; apply createNodes_indent.
  - intros lv rv E T *. rewrite compareJson_unfold. cbn. rewrite E, T. cbn.
    unfold padSpacers.
    split; apply Forall_app; split; try apply createNodes_indent;
      apply Forall_repeat; cbn; lia.
  - intros lo ro E IH *. rewrite compareJson_unfold. unfold compareBody.
    rewrite E. cbn [getValueType ValueType_eqb negb leftNodes rightNodes].
    split; repeat (apply Forall_app; split); try (repeat constructor; cbn; lia);
      apply (Forall_flat_map_weaken (fun n => indent0 + 1 <= indent n));
      try (intros; lia); intros k _; apply IH.
  - intros la ra E IH *. rewrite compareJson_unfold. unfold compareBody.
    rewrite E. cbn [getValueType ValueType_eqb negb leftNodes rightNodes].
    split; repeat (apply Forall_app; split); try (repeat constructor; cbn; lia);
      apply (Forall_flat_map_weaken (fun n => indent0 + 1 <= indent n));
      try (intros; lia); intros i _; apply IH.
  - intros lv rv E Tl Tr *. rewrite compareJson_unfold. unfold compareBody.
    rewrite E.
    destruct lv, rv; try discriminate; cbn; split; repeat constructor; cbn; lia.
Qed.

Lemma keysAt_flat_map {A : Type} (d : nat) (f : A -> list DiffNode) (xs : list A) :
  keysAt d (flat_map f xs) = flat_map (fun x => keysAt d (f x)) xs.
Proof.
  induction xs as [|x xs IH]; [reflexivity|].
  simpl. now rewrite keysAt_app, IH.
Qed.

Lemma keysAt_single (d : nat) (n : DiffNode) :
  keysAt d [n] = if Nat.eqb (indent n) d then keyList (key n) else [].
Proof. unfold keysAt. simpl. now rewrite app_nil_r. Qed.

(** At the depth of the compared position, each column shows the key of
    that position if the column's input is present, and nothing else. *)
Lemma compareJson_keysAt (l r : option JsonValue) (path : string) (d : nat)
    (key : option string) (isArr : bool) (idx : option nat) :
  keysAt d (leftNodes (compareJson l r path d key isArr idx))
  = match l with Some _ => keyList key | None => [] end
  /\ keysAt d (rightNodes (compareJson l r path d key isArr idx))
     = match r with Some _ => keyList key | None => [] end.
Proof.
  rewrite compareJson_unfold. unfold compareBody.
  destruct l as [lv|], r as [rv|]; cbn [leftNodes rightNodes emptyResult].
  - destruct (isEqual lv rv) eqn:E; cbn [leftNodes rightNodes].
    { split; apply createNodes_keysAt. }
    destruct (negb (ValueType_eqb (getValueType lv) (getValueType rv))) eqn:T;
      cbn [leftNodes rightNodes].
    { unfold padSpacers.
      rewrite !keysAt_app, !createNodes_keysAt, !keysAt_repeat_spacer, !app_nil_r.
      now split. }
    destruct lv as [| | | |lo|la], rv as [| | | |ro|ra]; try discriminate T;
      cbn [leftNodes rightNodes];
      try (rewrite !keysAt_single; cbn; rewrite Nat.eqb_refl; now split).
    + rewrite !keysAt_app, !keysAt_children_deeper, !keysAt_single;
        try (intros k _; apply compareJson_indent).
      cbn. rewrite Nat.eqb_refl, !app_nil_r. now split.
    + rewrite !keysAt_app, !keysAt_children_deeper, !keysAt_single;
        try (intros k _; apply compareJson_indent).
      cbn. rewrite Nat.eqb_refl, !app_nil_r. now split.
  - split; [apply createNodes_keysAt|apply keysAt_repeat_spacer].
  - split; [apply keysAt_repeat_spacer|apply createNodes_keysAt].
  - now split.
Qed.

Lemma flat_map_present (obj : JsonObject) (keys : list string) :
  (forall k, In k keys -> In k (Object_keys obj)) ->
  flat_map (fun k => match getProp obj k with Some _ => [k] | None => [] end) keys = keys.
Proof.
  induction keys as [|k keys IH]; intros H; [reflexivity|]. simpl.
  destruct (getProp obj k) eqn:Hget.
  - simpl. f_equal. apply IH. intros k' Hk'. apply H. now right.
  - apply getProp_None in Hget. exfalso. apply Hget, H. now left.
Qed.

Lemma flat_map_absent (obj : JsonObject) (keys : list string) :
  (forall k, In k keys -> ~ In k (Object_keys obj)) ->
  flat_map (fun k => match getProp obj k with Some _ => [k] | None => [] end) keys = [].
Proof.
  induction keys as [|k keys IH]; intros H; [reflexivity|]. simpl.
  rewrite (proj2 (getProp_None obj k)) by (apply H; now left).
  apply IH. intros k' Hk'. apply H. now right.
Qed.

Lemma sameKeySet_spec (leftObj rightObj : JsonObject) :
  sameKeySet leftObj rightObj = true
  <-> (forall k, In k (Object_keys leftObj) <-> In k (Object_keys rightObj)).
Proof.
  unfold sameKeySet. rewrite andb_true_iff, !forallb_forall. split.
  - intros [H1 H2] k. split; intros Hk; apply Set_has_In; auto.
  - intros H. split; intros k Hk; apply Set_has_In; now apply H.
Qed.

Lemma createNodes_object_keysAt (obj : JsonObject) (path : string) (d : nat)
    (k0 : option string) (diffType : DiffType) (isArr : bool) (idx : option nat) :
  keysAt (d + 1) (createNodesForValue (JObject obj) path d k0 diffType isArr idx)
  = Object_keys obj.
Proof.
  rewrite createNodes_object, !keysAt_app, !keysAt_single, keysAt_flat_map.
  cbn [indent key openingNode closingNode keyList].
  replace (d =? d + 1) with false by (symmetry; apply Nat.eqb_neq; lia).
  rewrite app_nil_r. cbn [app].
  induction obj as [|[k v] rest IH]; [reflexivity|].
  cbn [flat_map fst snd Object_keys map]. rewrite createNodes_keysAt.
  cbn [keyList app]. f_equal. exact IH.
Qed.

(** Facts about [lookup]: the own-property lookup [getProp] is exact for
    every lookup that does not read [Object.prototype]; no lookup does
    when the two objects have the same keys, or when no key of either is
    a reserved name. *)
Lemma lookup_getProp (obj : JsonObject) (k : string) :
  isInherited (lookup obj k) = false -> lookup obj k = ofOption (getProp obj k).
Proof.
  unfold lookup. destruct (getProp obj k); [reflexivity|].
  destruct (Set_has inheritedNames k); [discriminate|reflexivity].
Qed.

Lemma ownLookups_spec (leftObj rightObj : JsonObject) (k : string) :
  ownLookups leftObj rightObj = true ->
  In k (getAlignedKeys leftObj rightObj) ->
  lookup leftObj k = ofOption (getProp leftObj k)
  /\ lookup rightObj k = ofOption (getProp rightObj k).
Proof.
  unfold ownLookups. rewrite forallb_forall. intros H Hin.
  apply H in Hin. apply andb_true_iff in Hin as [Hl Hr].
  apply negb_true_iff in Hl, Hr. split; now apply lookup_getProp.
Qed.

Lemma getProp_present (obj : JsonObject) (k : string) :
  In k (Object_keys obj) -> getProp obj k <> None.
Proof.
  induction obj as [|[k' v] rest IH]; cbn; [tauto|].
  intros [->|Hin].
  - now rewrite String.eqb_refl.
  - destruct (String.eqb k' k); [discriminate|auto].
Qed.

Lemma sameKeySet_ownLookups (leftObj rightObj : JsonObject) :
  sameKeySet leftObj rightObj = true -> ownLookups leftObj rightObj = true.
Proof.
  intros Hsame. rewrite sameKeySet_spec in Hsame.
  unfold ownLookups. apply forallb_forall. intros k Hin.
  assert (Hl : In k (Object_keys leftObj)).
  { rewrite getAlignedKeys_filter in Hin. apply in_app_or in Hin as [Hin|Hin]; [exact Hin|].
    apply filter_In in Hin as [Hin _]. now apply Hsame. }
  assert (Hr : In k (Object_keys rightObj)) by now apply Hsame.
  apply getProp_present in Hl, Hr. unfold lookup.
  destruct (getProp leftObj k); [|congruence].
  destruct (getProp rightObj k); [reflexivity|congruence].
Qed.

Lemma reservedName_inherited (k : string) :
  reservedName k = false -> Set_has inheritedNames k = false.
Proof.
  unfold reservedName, Set_has. rewrite existsb_app.
  intros H. now apply orb_false_iff in H as [H _].
Qed.

Lemma lookup_plain_name (obj : JsonObject) (k : string) :
  reservedName k = false -> lookup obj k = ofOption (getProp obj k).
Proof.
  intros H. apply lookup_getProp. unfold lookup.
  destruct (getProp obj k); [reflexivity|]. now rewrite reservedName_inherited.
Qed.

Lemma ownNamesOnly_keys (obj : JsonObject) (k : string) :
  ownNamesOnly (JObject obj) = true -> In k (Object_keys obj) -> reservedName k = false.
Proof.
  cbn [ownNamesOnly]. rewrite forallb_forall. intros H Hin.
  apply in_map_iff in Hin as ([k' v] & <- & Hin). apply H in Hin.
  apply andb_true_iff in Hin as [Hin _]. now apply negb_true_iff in Hin.
Qed.

Lemma ownNamesOnly_ownLookups (leftObj rightObj : JsonObject) :
  ownNamesOnly (JObject leftObj) = true -> ownNamesOnly (JObject rightObj) = true ->
  ownLookups leftObj rightObj = true.
Proof.
  intros Hl Hr. unfold ownLookups. apply forallb_forall. intros k Hin.
  assert (Hk : reservedName k = false).
  { rewrite getAlignedKeys_filter in Hin. apply in_app_or in Hin as [Hin|Hin].
    - now apply (ownNamesOnly_keys leftObj).
    - apply filter_In in Hin as [Hin _]. now apply (ownNamesOnly_keys rightObj). }
  rewrite !lookup_plain_name by exact Hk.
  now destruct (getProp leftObj k), (getProp rightObj k).
Qed.

Lemma ownNamesOnly_getProp (obj : JsonObject) (k : string) :
  ownNamesOnly (JObject obj) = true -> ownNamesOnlyOpt (getProp obj k) = true.
Proof.
  cbn [ownNamesOnly]. rewrite forallb_forall. intros H.
  destruct (getProp obj k) as [v|] eqn:E; [|reflexivity].
  apply getProp_In in E. apply H in E. now apply andb_true_iff in E as [_ E].
Qed.

Lemma ownNamesOnly_nth_error (arr : JsonArray) (i : nat) :
  ownNamesOnly (JArray arr) = true -> ownNamesOnlyOpt (nth_error arr i) = true.
Proof.
  cbn [ownNamesOnly]. rewrite forallb_forall. intros H.
  destruct (nth_error arr i) as [v|] eqn:E; [|reflexivity].
  apply nth_error_In in E. now apply H.
Qed.

(** ** Deep equality is symmetric and preserves the line count *)

Lemma wfJson_object (obj : JsonObject) :
  wfJson (JObject obj) = true ->
  uniqueKeys (Object_keys obj) = true
  /\ forall k v, In (k, v) obj -> wfJson v = true.
Proof.
  cbn [wfJson]. rewrite andb_true_iff, forallb_forall. intros [Hu Hall].
  split; [exact Hu|]. intros k v Hin. apply (Hall (k, v) Hin).
Qed.

Lemma wfJson_array (arr : JsonArray) :
  wfJson (JArray arr) = true -> forall x, In x arr -> wfJson x = true.
Proof. cbn [wfJson]. rewrite forallb_forall. auto. Qed.

Lemma isEqual_objects (lo ro : JsonObject) :
  isEqual (JObject lo) (JObject ro) = true
  <-> length lo = length ro
      /\ forall k v, In (k, v) lo ->
           exists w, getProp ro k = Some w /\ isEqual v w = true.
Proof.
  cbn [isEqual]. rewrite andb_true_iff, Nat.eqb_eq, forallb_forall. split.
  - intros [Hlen Hall]. split; [exact Hlen|]. intros k v Hin.
    specialize (Hall (k, v) Hin). cbn in Hall.
    destruct (getProp ro k) as [w|]; [now exists w|discriminate].
  - intros [Hlen Hall]. split; [exact Hlen|]. intros [k v] Hin.
    destruct (Hall k v Hin) as (w & Hget & Heq). cbn. now rewrite Hget.
Qed.

Lemma In_keys_entry (obj : JsonObject) (k : string) :
  In k (Object_keys obj) -> exists v, In (k, v) obj.
Proof.
  unfold Object_keys. rewrite in_map_iff. intros ([k' v] & Hk & Hin).
  cbn in Hk. subst. now exists v.
Qed.

Lemma entry_In_keys (obj : JsonObject) (k : string) (v : JsonValue) :
  In (k, v) obj -> In k (Object_keys obj).
Proof. intros Hin. apply in_map_iff. now exists (k, v). Qed.

(** Two objects of the same size with unique keys, the keys of the first
    being keys of the second, have the same keys. *)
Lemma equal_objects_same_keys (lo ro : JsonObject) :
  uniqueKeys (Object_keys lo) = true ->
  length lo = length ro ->
  (forall k, In k (Object_keys lo) -> In k (Object_keys ro)) ->
  forall k, In k (Object_keys ro) -> In k (Object_keys lo).
Proof.
  intros Hu Hlen Hincl.
  apply (NoDup_length_incl (l := Object_keys lo) (l' := Object_keys ro)).
  - now apply uniqueKeys_NoDup.
  - unfold Object_keys. rewrite !length_map. lia.
  - exact Hincl.
Qed.

Lemma all2_length {A B : Type} (f : A -> B -> bool) (l : list A) (r : list B) :
  all2 f l r = true -> length l = length r.
Proof.
  revert r. induction l as [|x l IH]; intros [|y r]; simpl; try discriminate; auto.
  rewrite andb_true_iff. intros [_ H]. f_equal. now apply IH.
Qed.

Lemma all2_nth {A B : Type} (f : A -> B -> bool) (l : list A) (r : list B) :
  all2 f l r = true ->
  forall i x y, nth_error l i = Some x -> nth_error r i = Some y -> f x y = true.
Proof.
  revert r. induction l as [|a l IH]; intros [|b r]; simpl; try discriminate.
  - intros _ [|i]; discriminate.
  - rewrite andb_true_iff. intros [Hab H] [|i] x y; simpl.
    + now intros [= <-] [= <-].
    + now apply IH.
Qed.

Lemma all2_intro {A B : Type} (f : A -> B -> bool) (l : list A) (r : list B) :
  length l = length r ->
  (forall i x y, nth_error l i = Some x -> nth_error r i = Some y -> f x y = true) ->
  all2 f l r = true.
Proof.
  revert r. induction l as [|a l IH]; intros [|b r]; simpl; try discriminate; auto.
  intros [= Hlen] H. rewrite (H 0 a b eq_refl eq_refl). simpl.
  apply IH; [exact Hlen|]. intros i x y. apply (H (S i)).
Qed.

Lemma isEqual_sym (a : JsonValue) :
  forall b, wfJson a = true -> wfJson b = true ->
            isEqual a b = true -> isEqual b a = true.
Proof.
  induction a as [| x | x | x | lo IH | la IH] using JsonValue_nested_ind;
    intros b Hwa Hwb E; destruct b as [| y | y | y | ro | ra]; try discriminate E.
  - reflexivity.
  - cbn in *. destruct x, y; auto.
  - cbn in *. apply Z.eqb_eq in E. subst. apply Z.eqb_refl.
  - cbn in *. apply String.eqb_eq in E. subst. apply String.eqb_refl.
  - apply wfJson_object in Hwa as [Hul Hwl]. apply wfJson_object in Hwb as [Hur Hwr].
    apply isEqual_objects in E as [Hlen Hall]. apply isEqual_objects.
    split; [auto|]. intros k w Hin.
    assert (Hk : In k (Object_keys lo)).
    { apply (equal_objects_same_keys lo ro Hul Hlen); [|now apply (entry_In_keys ro k w)].
      intros k' Hk'. apply In_keys_entry in Hk' as [v' Hv'].
      destruct (Hall k' v' Hv') as (w' & Hget & _).
      apply getProp_In in Hget. now apply (entry_In_keys ro k' w'). }
    apply In_keys_entry in Hk as [v Hv]. exists v.
    split; [now apply getProp_unique|].
    destruct (Hall k v Hv) as (w' & Hget & Heq).
    rewrite (getProp_unique ro k w Hur Hin) in Hget. inversion Hget; subst w'.
    rewrite List.Forall_forall in IH. apply (IH (k, v) Hv); eauto.
  - cbn [isEqual] in *. apply all2_intro.
    + symmetry. now apply all2_length in E.
    + intros i y x Hy Hx. rewrite List.Forall_forall in IH.
      apply (IH x).
      * now apply nth_error_In in Hx.
      * apply (wfJson_array la Hwa). now apply nth_error_In in Hx.
      * apply (wfJson_array ra Hwb). now apply nth_error_In in Hy.
      * apply (all2_nth _ la ra E i x y Hx Hy).
Qed.

Lemma isEqual_false_sym (a b : JsonValue) :
  wfJson a = true -> wfJson b = true -> isEqual a b = false -> isEqual b a = false.
Proof.
  intros Hwa Hwb E. destruct (isEqual b a) eqn:E'; [|reflexivity].
  apply isEqual_sym in E'; auto. congruence.
Qed.

Lemma list_sum_map_Permutation {A : Type} (g : A -> nat) (l l' : list A) :
  Permutation l l' -> list_sum (map g l) = list_sum (map g l').
Proof. induction 1; simpl; lia. Qed.

Lemma entries_sum_by_key (g : JsonValue -> nat) (obj : JsonObject) :
  uniqueKeys (Object_keys obj) = true ->
  list_sum (map (fun kv => g (snd kv)) obj)
  = list_sum (map (fun k => match getProp obj k with Some v => g v | None => 0 end)
                (Object_keys obj)).
Proof.
  intros Hu. unfold Object_keys. rewrite map_map. f_equal.
  apply map_ext_in. intros [k v] Hin. cbn.
  now rewrite (getProp_unique obj k v Hu Hin).
Qed.

Lemma all2_sum {A : Type} (f : A -> A -> bool) (g : A -> nat) (l r : list A) :
  all2 f l r = true ->
  (forall x y, In x l -> In y r -> f x y = true -> g x = g y) ->
  list_sum (map g l) = list_sum (map g r).
Proof.
  revert r. induction l as [|a l IH]; intros [|b r]; simpl; try discriminate; auto.
  rewrite andb_true_iff. intros [Hab Hrest] H.
  rewrite (H a b) by auto. f_equal. apply IH; auto.
Qed.

Lemma isEqual_sizeOf (a : JsonValue) :
  forall b, wfJson a = true -> wfJson b = true ->
            isEqual a b = true -> sizeOf a = sizeOf b.
Proof.
  induction a as [| x | x | x | lo IH | la IH] using JsonValue_nested_ind;
    intros b Hwa Hwb E; destruct b as [| y | y | y | ro | ra]; try discriminate E;
    try reflexivity.
  - pose proof Hwa as Hwa'. pose proof Hwb as Hwb'.
    apply wfJson_object in Hwa' as [Hul Hwl]. apply wfJson_object in Hwb' as [Hur Hwr].
    pose proof E as E'. apply isEqual_objects in E' as [Hlen Hall].
    assert (Hincl : forall k, In k (Object_keys lo) -> In k (Object_keys ro)).
    { intros k Hk. apply In_keys_entry in Hk as [v Hv].
      destruct (Hall k v Hv) as (w & Hget & _).
      apply getProp_In in Hget. now apply (entry_In_keys ro k w). }
    cbn [sizeOf]. do 2 f_equal.
    rewrite (entries_sum_by_key (fun x => sizeOf x) lo Hul).
    rewrite (entries_sum_by_key (fun x => sizeOf x) ro Hur).
    rewrite (list_sum_map_Permutation _ (Object_keys ro) (Object_keys lo)).
    + apply (f_equal list_sum). apply map_ext_in. intros k Hk.
      apply In_keys_entry in Hk as [v Hv].
      destruct (Hall k v Hv) as (w & Hget & Heq).
      rewrite (getProp_unique lo k v Hul Hv), Hget.
      rewrite List.Forall_forall in IH. apply (IH (k, v) Hv); eauto.
      apply getProp_In in Hget. eauto.
    + apply Permutation.NoDup_Permutation;
        [exact (proj1 (uniqueKeys_NoDup _) Hur)|exact (proj1 (uniqueKeys_NoDup _) Hul)|].
      intros k. split; [|apply Hincl].
      now apply equal_objects_same_keys.
  - cbn [isEqual sizeOf] in *. do 2 f_equal.
    apply (all2_sum _ _ la ra E). intros x y Hx Hy Exy.
    rewrite List.Forall_forall in IH. apply (IH x Hx); auto.
    + now apply (wfJson_array la Hwa).
    + now apply (wfJson_array ra Hwb).
Qed.

(** ** C3: swapping the arguments *)

Lemma typesOf_uniform (t : DiffType) (nodes : list DiffNode) :
  Forall (fun n => type n = t) nodes -> typesOf nodes = repeat t (length nodes).
Proof. induction 1 as [|n nodes Hn _ IH]; simpl; [reflexivity|]. now rewrite Hn, IH. Qed.

Lemma typesOf_createNodes (v : JsonValue) (path : string) (indent : nat)
    (key : option string) (diffType : DiffType) (isArr : bool) (idx : option nat) :
  typesOf (createNodesForValue v path indent key diffType isArr idx)
  = repeat diffType (sizeOf v).
Proof.
  rewrite (typesOf_uniform diffType), length_createNodes; [reflexivity|].
  apply createNodes_Forall; intros; cbn; auto.
Qed.

Lemma typesOf_repeat_spacer (indent n : nat) :
  typesOf (repeat (createSpacer indent) n) = repeat SPACER n.
Proof. unfold typesOf. now rewrite map_repeat. Qed.

Lemma typesOf_app (a b : list DiffNode) : typesOf (a ++ b) = typesOf a ++ typesOf b.
Proof. apply map_app. Qed.

Lemma typesOf_flat_map {A : Type} (f : A -> list DiffNode) (xs : list A) :
  typesOf (flat_map f xs) = flat_map (fun x => typesOf (f x)) xs.
Proof.
  induction xs as [|x xs IH]; [reflexivity|]. simpl. now rewrite typesOf_app, IH.
Qed.

Lemma map_flat_map_comm {A B C : Type} (g : B -> C) (f : A -> list B) (xs : list A) :
  map g (flat_map f xs) = flat_map (fun x => map g (f x)) xs.
Proof.
  induction xs as [|x xs IH]; [reflexivity|]. simpl. now rewrite map_app, IH.
Qed.

Lemma wfOpt_getProp (obj : JsonObject) (k : string) :
  wfJson (JObject obj) = true -> wfOpt (getProp obj k) = true.
Proof.
  intros Hwf. apply wfJson_object in Hwf as [_ Hall].
  destruct (getProp obj k) as [v|] eqn:Hget; [|reflexivity].
  apply getProp_In in Hget. now apply (Hall k v).
Qed.

Lemma wfOpt_nth_error (arr : JsonArray) (i : nat) :
  wfJson (JArray arr) = true -> wfOpt (nth_error arr i) = true.
Proof.
  intros Hwf. destruct (nth_error arr i) as [v|] eqn:Hget; [|reflexivity].
  apply nth_error_In in Hget. now apply (wfJson_array arr Hwf).
Qed.

Lemma keyOrderAgrees_objects (lo ro : JsonObject) :
  isEqual (JObject lo) (JObject ro) = false ->
  keyOrderAgrees (JObject lo) (JObject ro) = true ->
  getAlignedKeys lo ro = getAlignedKeys ro lo
  /\ forall k, keyOrderAgreesOpt (getProp lo k) (getProp ro k) = true.
Proof.
  intros E H. cbn [keyOrderAgrees] in H. rewrite E in H. cbn [orb] in H.
  apply andb_true_iff in H as [Hkeys Hall].
  apply bool_decide_eq_true in Hkeys. split; [exact Hkeys|].
  intros k. destruct (getProp lo k) as [v|] eqn:Hl; [|reflexivity].
  destruct (getProp ro k) as [w|] eqn:Hr; [|reflexivity].
  rewrite forallb_forall in Hall. apply getProp_In in Hl.
  specialize (Hall (k, v) Hl). cbn in Hall. now rewrite Hr in Hall.
Qed.

Lemma allCommon_nth {A B : Type} (f : A -> B -> bool) (l : list A) (r : list B) :
  allCommon f l r = true ->
  forall i x y, nth_error l i = Some x -> nth_error r i = Some y -> f x y = true.
Proof.
  revert r. induction l as [|a l IH]; intros [|b r]; simpl;
    try (intros _ [|i]; discriminate).
  rewrite andb_true_iff. intros [Hab H] [|i] x y; simpl.
  - now intros [= <-] [= <-].
  - now apply IH.
Qed.

Lemma keyOrderAgrees_arrays (la ra : JsonArray) :
  isEqual (JArray la) (JArray ra) = false ->
  keyOrderAgrees (JArray la) (JArray ra) = true ->
  forall i, keyOrderAgreesOpt (nth_error la i) (nth_error ra i) = true.
Proof.
  intros E H i. cbn [keyOrderAgrees] in H. rewrite E in H. cbn [orb] in H.
  destruct (nth_error la i) as [x|] eqn:Hl; [|reflexivity].
  destruct (nth_error ra i) as [y|] eqn:Hr; [|reflexivity].
  apply (allCommon_nth _ la ra H i x y Hl Hr).
Qed.

Lemma ValueType_eqb_sym (a b : ValueType) : ValueType_eqb a b = ValueType_eqb b a.
Proof. now destruct a, b. Qed.

Lemma compareJson_swap_opt (l r : option JsonValue) :
  wfOpt l = true -> wfOpt r = true -> keyOrderAgreesOpt l r = true -> mirrored l r.
Proof.
  apply (compareJson_cases
    (fun l r => wfOpt l = true -> wfOpt r = true -> keyOrderAgreesOpt l r = true ->
                mirrored l r)); clear l r; unfold mirrored.
  - intros _ _ _ *. rewrite compareJson_unfold. now cbn.
  - intros lv _ _ _ *. rewrite !compareJson_unfold. cbn. unfold spacersFor.
    rewrite !typesOf_createNodes, !typesOf_repeat_spacer, !length_createNodes, !map_repeat.
    now split.
  - intros rv _ _ _ *. rewrite !compareJson_unfold. cbn. unfold spacersFor.
    rewrite !typesOf_createNodes, !typesOf_repeat_spacer, !length_createNodes, !map_repeat.
    now split.
  - intros lv rv E Hwl Hwr _ *. cbn [wfOpt] in Hwl, Hwr.
    rewrite !compareJson_unfold. cbn. rewrite E, (isEqual_sym lv rv Hwl Hwr E). cbn.
    rewrite !typesOf_createNodes, !map_repeat, (isEqual_sizeOf lv rv Hwl Hwr E).
    now split.
  - intros lv rv E T Hwl Hwr _ *. cbn [wfOpt] in Hwl, Hwr.
    rewrite !compareJson_unfold. cbn.
    rewrite E, (isEqual_false_sym lv rv Hwl Hwr E), (ValueType_eqb_sym (getValueType rv)), T.
    cbn. unfold padSpacers.
    rewrite !typesOf_app, !typesOf_createNodes, !typesOf_repeat_spacer, !length_createNodes.
    rewrite !map_app, !map_repeat. cbn [swapRoles].
    rewrite (Nat.max_comm (sizeOf rv)). now split.
  - intros lo ro E IH Hwl Hwr Hagree *. cbn [wfOpt keyOrderAgreesOpt] in Hwl, Hwr, Hagree.
    destruct (keyOrderAgrees_objects lo ro E Hagree) as [Hkeys Hchildren].
    rewrite !compareJson_unfold. unfold compareBody.
    rewrite E, (isEqual_false_sym _ _ Hwl Hwr E).
    cbn [getValueType ValueType_eqb negb leftNodes rightNodes].
    rewrite <- Hkeys.
    rewrite !typesOf_app, !typesOf_flat_map, !map_app, !map_flat_map_comm.
    split; (f_equal; f_equal; apply flat_map_ext; intros k;
            apply IH; auto using wfOpt_getProp).
  - intros la ra E IH Hwl Hwr Hagree *. cbn [wfOpt keyOrderAgreesOpt] in Hwl, Hwr, Hagree.
    pose proof (keyOrderAgrees_arrays la ra E Hagree) as Hchildren.
    rewrite !compareJson_unfold. unfold compareBody.
    rewrite E, (isEqual_false_sym _ _ Hwl Hwr E).
    cbn [getValueType ValueType_eqb negb leftNodes rightNodes].
    rewrite (Nat.max_comm (length ra)).
    rewrite !typesOf_app, !typesOf_flat_map, !map_app, !map_flat_map_comm.
    split; (f_equal; f_equal; apply flat_map_ext; intros i;
            apply IH; auto using wfOpt_nth_error).
  - intros lv rv E Tl Tr Hwl Hwr _ *. cbn [wfOpt] in Hwl, Hwr.
    rewrite !compareJson_unfold. unfold compareBody.
    rewrite E, (isEqual_false_sym _ _ Hwl Hwr E).
    destruct lv, rv; try discriminate; now cbn.
Qed.

(** C3, as the code has it. For all values [A] and [B] (with unique keys
    in each object) such that the aligned key order of every pair of
    objects walked key by key is the same from both sides
    ([keyOrderAgrees]), the classifications of the left column of
    [compare(A, B)] are those of the right column of [compare(B, A)] with
    Removed and Added exchanged, row by row, and likewise for the right
    column of [compare(A, B)] and the left column of [compare(B, A)]. *)
Theorem compareJson_swap (A B : JsonValue) (path : string) (indent : nat)
    (key : option string) (isArr : bool) (idx : option nat) :
  wfJson A = true -> wfJson B = true -> keyOrderAgrees A B = true ->
  typesOf (leftNodes (compareJson (Some A) (Some B) path indent key isArr idx))
  = map swapRoles
      (typesOf (rightNodes (compareJson (Some B) (Some A) path indent key isArr idx)))
  /\ typesOf (rightNodes (compareJson (Some A) (Some B) path indent key isArr idx))
     = map swapRoles
         (typesOf (leftNodes (compareJson (Some B) (Some A) path indent key isArr idx))).
Proof.
  intros HA HB Hagree. now apply (compareJson_swap_opt (Some A) (Some B)).
Qed.

Lemma compareJson_swap_witness :
  wfJson (JObject [("a", JNum 1); ("b", JArray [JNum 1; JNum 2])]) = true
  /\ wfJson (JObject [("a", JStr "x"); ("b", JArray [JNum 1]); ("c", JNull)]) = true
  /\ keyOrderAgrees
       (JObject [("a", JNum 1); ("b", JArray [JNum 1; JNum 2])])
       (JObject [("a", JStr "x"); ("b", JArray [JNum 1]); ("c", JNull)]) = true
  /\ typesOf (leftNodes (compareJsonTop
               (Some (JObject [("a", JNum 1); ("b", JArray [JNum 1; JNum 2])]))
               (Some (JObject [("a", JStr "x"); ("b", JArray [JNum 1]); ("c", JNull)]))))
     = map swapRoles
         (typesOf (rightNodes (compareJsonTop
            (Some (JObject [("a", JStr "x"); ("b", JArray [JNum 1]); ("c", JNull)]))
            (Some (JObject [("a", JNum 1); ("b", JArray [JNum 1; JNum 2])]))))).
Proof.
  split; [reflexivity|]. split; [reflexivity|]. split; [vm_compute; reflexivity|].
  apply (compareJson_swap
           (JObject [("a", JNum 1); ("b", JArray [JNum 1; JNum 2])])
           (JObject [("a", JStr "x"); ("b", JArray [JNum 1]); ("c", JNull)])
           "" 0 None false None); vm_compute; reflexivity.
Defined.

(** C3, as stated, fails: for [A = {"a":1}] and [B = {"b":1}] the left
    column of [compare(A, B)] reads Unchanged, Removed, Spacer, Unchanged,
    while the right column of [compare(B, A)], with Removed and Added
    exchanged, reads Unchanged, Spacer, Removed, Unchanged: the aligned
    key order puts the first argument's keys first. *)
Lemma compareJson_swap_counterexample :
  typesOf (leftNodes (compareJsonTop (Some (JObject [("a", JNum 1)]))
                        (Some (JObject [("b", JNum 1)]))))
  = [UNCHANGED; REMOVED; SPACER; UNCHANGED]
  /\ map swapRoles
       (typesOf (rightNodes (compareJsonTop (Some (JObject [("b", JNum 1)]))
                               (Some (JObject [("a", JNum 1)])))))
     = [UNCHANGED; SPACER; REMOVED; UNCHANGED]
  /\ typesOf (leftNodes (compareJsonTop (Some (JObject [("a", JNum 1)]))
                           (Some (JObject [("b", JNum 1)]))))
     <> map swapRoles
          (typesOf (rightNodes (compareJsonTop (Some (JObject [("b", JNum 1)]))
                                  (Some (JObject [("a", JNum 1)]))))).
Proof. repeat split; vm_compute; try reflexivity. discriminate. Qed.

Lemma filterNodes_collapse_witness :
  In (pairedOpenNode (Some "a") "a" "{" 1 false None)
     (filterNodes {[ "a" ]}
        [pairedOpenNode (Some "a") "a" "{" 1 false None;
         modifiedLeftNode (Some "b") "a.b" (JNum 1) 2 false None;
         pairedCloseNode "a" "}" 1 BracketObject]).
Proof.
  apply (proj2 (filterNodes_collapse {[ "a" ]}
                  [pairedOpenNode (Some "a") "a" "{" 1 false None;
                   modifiedLeftNode (Some "b") "a.b" (JNum 1) 2 false None;
                   pairedCloseNode "a" "}" 1 BracketObject])).
  - simpl. auto.
  - discriminate.
  - intros c Hc [rest [H|H]]; apply elem_of_singleton in Hc; subst c; discriminate H.
Defined.

(** ** The comparator on small inputs *)

(** [compare({"a":1}, {"a":1})]: three Unchanged rows on each side. *)
Example scenario_equal_objects :
  typesOf (leftNodes (compareJsonTop (Some (JObject [("a", JNum 1)]))
                        (Some (JObject [("a", JNum 1)]))))
  = [UNCHANGED; UNCHANGED; UNCHANGED]
  /\ rightNodes (compareJsonTop (Some (JObject [("a", JNum 1)]))
                   (Some (JObject [("a", JNum 1)])))
     = leftNodes (compareJsonTop (Some (JObject [("a", JNum 1)]))
                    (Some (JObject [("a", JNum 1)]))).
Proof. split; reflexivity. Qed.

(** [compare({"a":1}, {"b":1})]: four rows, [a] Removed facing a Spacer,
    then a Spacer facing [b] Added. *)
Example scenario_renamed_key :
  compareJsonTop (Some (JObject [("a", JNum 1)])) (Some (JObject [("b", JNum 1)]))
  = {| leftNodes :=
         [ pairedOpenNode None "" "{" 0 false None;
           primitiveNode REMOVED (Some "a") "a" (JNum 1) 1 false None;
           createSpacer 1;
           pairedCloseNode "" "}" 0 BracketObject ];
       rightNodes :=
         [ pairedOpenNode None "" "{" 0 false None;
           createSpacer 1;
           primitiveNode ADDED (Some "b") "b" (JNum 1) 1 false None;
           pairedCloseNode "" "}" 0 BracketObject ] |}.
Proof. reflexivity. Qed.

(** [compare([], [1])]: a Spacer on the left faces the Added item. *)
Example scenario_array_growth :
  compareJsonTop (Some (JArray [])) (Some (JArray [JNum 1]))
  = {| leftNodes :=
         [ pairedOpenNode None "" "[" 0 false None;
           createSpacer 1;
           pairedCloseNode "" "]" 0 BracketArray ];
       rightNodes :=
         [ pairedOpenNode None "" "[" 0 false None;
           primitiveNode ADDED None "[0]" (JNum 1) 1 true (Some 0);
           pairedCloseNode "" "]" 0 BracketArray ] |}.
Proof. reflexivity. Qed.

(** [compare(5, "5")]: one Modified node on each side, no padding. *)
Example scenario_number_against_string :
  compareJsonTop (Some (JNum 5)) (Some (JStr "5"))
  = {| leftNodes := [modifiedLeftNode None "" (JNum 5) 0 false None];
       rightNodes := [modifiedRightNode None "" (JStr "5") 0 false None] |}.
Proof. reflexivity. Qed.

(** Collapsing ["a"] hides the rows below it and its closing bracket, on
    a column of [compare({"a":{"b":1},"c":null}, {"a":{"b":2}})]. *)
Example scenario_collapse :
  map path
    (filterNodes {[ "a" ]}
       (leftNodes (compareJsonTop
          (Some (JObject [("a", JObject [("b", JNum 1)]); ("c", JNull)]))
          (Some (JObject [("a", JObject [("b", JNum 2)])])))))
  = [""; "a"; "c"; ""].
Proof. vm_compute. reflexivity. Qed.

(** ** The collapse filter as a filter *)

Lemma filterNodes_filter (collapsedPaths : gset string) (nodes : list DiffNode) :
  filterNodes collapsedPaths nodes = List.filter (keptNode collapsedPaths) nodes.
Proof.
  induction nodes as [|n nodes IH]; [reflexivity|].
  rewrite filterNodes_cons. cbn [List.filter]. unfold keptNode at 1.
  destruct (shouldSkip collapsedPaths n); cbn [negb andb]; [exact IH|].
  destruct (truthy (isClosingBracket n) && bool_decide (path n ∈ collapsedPaths));
    cbn [negb]; [exact IH|now rewrite IH].
Qed.

Lemma shouldSkip_mono (small large : gset string) (n : DiffNode) :
  small ⊆ large -> shouldSkip small n = true -> shouldSkip large n = true.
Proof.
  intros Hsub H. apply shouldSkip_spec in H as (c & Hc & Hd).
  apply shouldSkip_spec. exists c. split; [set_solver|exact Hd].
Qed.

Lemma keptNode_mono (small large : gset string) (n : DiffNode) :
  small ⊆ large -> keptNode large n = true -> keptNode small n = true.
Proof.
  intros Hsub. unfold keptNode. rewrite !andb_true_iff, !negb_true_iff.
  intros [Hskip Hclose]. split.
  - destruct (shouldSkip small n) eqn:E; [|reflexivity].
    apply (shouldSkip_mono small large n Hsub) in E. congruence.
  - destruct (truthy (isClosingBracket n)); [|reflexivity]. cbn [andb] in *.
    apply bool_decide_eq_false in Hclose. apply bool_decide_eq_false. set_solver.
Qed.

Lemma filter_filter_weaker {A : Type} (strong weak : A -> bool) (l : list A) :
  (forall x, strong x = true -> weak x = true) ->
  List.filter strong (List.filter weak l) = List.filter strong l.
Proof.
  intros H. induction l as [|x l IH]; [reflexivity|]. cbn [List.filter].
  destruct (weak x) eqn:Hw; cbn [List.filter].
  - now rewrite IH.
  - destruct (strong x) eqn:Hs; [|exact IH].
    apply H in Hs. congruence.
Qed.

(** X1. The collapse filter is a plain filter of the node sequence: with no
    collapsed path it returns the sequence unchanged, it distributes over
    concatenation, filtering twice is filtering once, and filtering with a
    set after filtering with a subset of it is filtering with the set. *)
Theorem filterNodes_algebra (collapsedPaths : gset string) (nodes more : list DiffNode) :
  filterNodes ∅ nodes = nodes
  /\ filterNodes collapsedPaths (nodes ++ more)
     = filterNodes collapsedPaths nodes ++ filterNodes collapsedPaths more
  /\ filterNodes collapsedPaths (filterNodes collapsedPaths nodes)
     = filterNodes collapsedPaths nodes
  /\ (forall fewer : gset string,
        fewer ⊆ collapsedPaths ->
        filterNodes collapsedPaths (filterNodes fewer nodes)
        = filterNodes collapsedPaths nodes).
Proof.
  assert (Hstaged : forall fewer : gset string,
             fewer ⊆ collapsedPaths ->
             filterNodes collapsedPaths (filterNodes fewer nodes)
             = filterNodes collapsedPaths nodes).
  { intros fewer Hsub. rewrite !filterNodes_filter.
    apply filter_filter_weaker. intros n. now apply keptNode_mono. }
  split; [|split; [|split]].
  - rewrite filterNodes_filter. rewrite <- (filter_true nodes) at 2.
    apply filter_ext. intros n. unfold keptNode, shouldSkip.
    rewrite elements_empty. cbn [existsb negb andb].
    now rewrite bool_decide_eq_false_2, andb_false_r by set_solver.
  - rewrite !filterNodes_filter. apply List.filter_app.
  - now apply Hstaged.
  - exact Hstaged.
Qed.

Lemma filterNodes_algebra_witness :
  filterNodes {[ "a"; "b" ]}
    (filterNodes {[ "a" ]}
       [pairedOpenNode (Some "a") "a" "{" 1 false None;
        modifiedLeftNode (Some "x") "a.x" (JNum 1) 2 false None;
        pairedCloseNode "a" "}" 1 BracketObject;
        modifiedLeftNode (Some "b") "b" (JNum 1) 1 false None])
  = filterNodes {[ "a"; "b" ]}
      [pairedOpenNode (Some "a") "a" "{" 1 false None;
       modifiedLeftNode (Some "x") "a.x" (JNum 1) 2 false None;
       pairedCloseNode "a" "}" 1 BracketObject;
       modifiedLeftNode (Some "b") "b" (JNum 1) 1 false None].
Proof.
  apply (proj2 (proj2 (proj2 (filterNodes_algebra {[ "a"; "b" ]}
    [pairedOpenNode (Some "a") "a" "{" 1 false None;
     modifiedLeftNode (Some "x") "a.x" (JNum 1) 2 false None;
     pairedCloseNode "a" "}" 1 BracketObject;
     modifiedLeftNode (Some "b") "b" (JNum 1) 1 false None] [])))).
  set_solver.
Defined.

(** ** The collapse toggle *)

(** X2. Toggling a path flips its membership in the collapsed set and
    leaves every other path as it was; toggling the same path twice
    restores the set, and toggles of two paths commute. *)
Theorem handleToggleCollapse_flip (p q : string) (prev : gset string) :
  (p ∈ handleToggleCollapse p prev <-> p ∉ prev)
  /\ (q <> p -> (q ∈ handleToggleCollapse p prev <-> q ∈ prev))
  /\ handleToggleCollapse p (handleToggleCollapse p prev) = prev
  /\ handleToggleCollapse p (handleToggleCollapse q prev)
     = handleToggleCollapse q (handleToggleCollapse p prev).
Proof.
  assert (Hmem : forall a b s, a ∈ handleToggleCollapse b s
                               <-> (a = b /\ b ∉ s) \/ (a <> b /\ a ∈ s)).
  { intros a b s. unfold handleToggleCollapse. case_bool_decide.
    - rewrite elem_of_difference, elem_of_singleton.
      destruct (decide (a = b)); subst; tauto.
    - rewrite elem_of_union, elem_of_singleton.
      destruct (decide (a = b)); subst; tauto. }
  split; [|split; [|split]].
  - rewrite Hmem. tauto.
  - intros Hne. rewrite Hmem. tauto.
  - apply set_eq. intros a. rewrite !Hmem.
    destruct (decide (a = p)), (decide (p ∈ prev)); subst; tauto.
  - apply set_eq. intros a. rewrite !Hmem.
    destruct (decide (a = p)), (decide (a = q)), (decide (p = q)),
      (decide (p ∈ prev)), (decide (q ∈ prev)); subst; tauto.
Qed.

Lemma handleToggleCollapse_flip_witness :
  "b" ∈ handleToggleCollapse "a" {[ "b" ]}.
Proof.
  apply (proj1 (proj2 (handleToggleCollapse_flip "a" "b" {[ "b" ]}))).
  - discriminate.
  - set_solver.
Defined.

(** ** The aligned keys cover both objects *)

Lemma getAlignedKeys_In (leftObj rightObj : JsonObject) (k : string) :
  In k (getAlignedKeys leftObj rightObj)
  <-> In k (Object_keys leftObj) \/ In k (Object_keys rightObj).
Proof.
  rewrite getAlignedKeys_filter, in_app_iff, filter_In, negb_true_iff, Set_has_false.
  destruct (in_dec string_dec k (Object_keys leftObj)); tauto.
Qed.

Lemma getAlignedKeys_NoDup (leftObj rightObj : JsonObject) :
  uniqueKeys (Object_keys leftObj) = true ->
  uniqueKeys (Object_keys rightObj) = true ->
  List.NoDup (getAlignedKeys leftObj rightObj).
Proof.
  intros Hl Hr. rewrite getAlignedKeys_filter. apply List.NoDup_app.
  - now apply uniqueKeys_NoDup.
  - apply List.NoDup_filter. now apply uniqueKeys_NoDup.
  - intros k Hk Hin. apply filter_In in Hin as [_ Hin].
    apply negb_true_iff, Set_has_false in Hin. contradiction.
Qed.

Lemma filter_right_only_nil (leftKeys keys : list string) :
  (forall k, In k keys -> In k leftKeys) ->
  List.filter (fun k => negb (Set_has leftKeys k)) keys = [].
Proof.
  induction keys as [|x keys IH]; intros Hin; [reflexivity|]. cbn [List.filter].
  rewrite (proj2 (Set_has_In _ x)) by (apply Hin; now left). cbn [negb].
  apply IH. intros y Hy. apply Hin. now right.
Qed.

(** X3. The aligned key order lists exactly the keys of the two objects,
    and lists each of them once when neither object repeats a key; for an
    object against itself it is the object's own key order. *)
Theorem getAlignedKeys_union (leftObj rightObj : JsonObject) :
  (forall k, In k (getAlignedKeys leftObj rightObj)
             <-> In k (Object_keys leftObj) \/ In k (Object_keys rightObj))
  /\ (uniqueKeys (Object_keys leftObj) = true ->
      uniqueKeys (Object_keys rightObj) = true ->
      List.NoDup (getAlignedKeys leftObj rightObj))
  /\ getAlignedKeys leftObj leftObj = Object_keys leftObj.
Proof.
  split; [apply getAlignedKeys_In|]. split; [apply getAlignedKeys_NoDup|].
  rewrite getAlignedKeys_filter, filter_right_only_nil by auto.
  apply app_nil_r.
Qed.

Lemma getAlignedKeys_union_witness :
  List.NoDup (getAlignedKeys [("a", JNum 1); ("b", JNum 2)] [("c", JNull); ("a", JNum 3)]).
Proof.
  apply (proj1 (proj2 (getAlignedKeys_union
           [("a", JNum 1); ("b", JNum 2)] [("c", JNull); ("a", JNum 3)])));
    reflexivity.
Defined.

(** ** Rows of a comparison *)

Lemma createNodes_type (v : JsonValue) (path : string) (indent : nat)
    (key : option string) (diffType : DiffType) (isArr : bool) (idx : option nat) :
  Forall (fun n => type n = diffType)
    (createNodesForValue v path indent key diffType isArr idx).
Proof. apply createNodes_Forall; intros; cbn; auto. Qed.

Lemma Forall2_flat_map {A B C : Type} (R : B -> C -> Prop)
    (f : A -> list B) (g : A -> list C) (xs : list A) :
  (forall x, Forall2 R (f x) (g x)) -> Forall2 R (flat_map f xs) (flat_map g xs).
Proof.
  intros H. induction xs as [|x xs IH]; simpl; [constructor|].
  apply Forall2_app; auto.
Qed.

Lemma rows_removed (nodes : list DiffNode) (indent : nat) :
  Forall (fun n => type n = REMOVED) nodes ->
  Forall2 rowPair nodes (spacersFor nodes indent).
Proof.
  unfold spacersFor. induction 1 as [|n nodes Hn _ IH]; simpl; constructor; auto.
  unfold rowPair. cbn. tauto.
Qed.

Lemma rows_added (nodes : list DiffNode) (indent : nat) :
  Forall (fun n => type n = ADDED) nodes ->
  Forall2 rowPair (spacersFor nodes indent) nodes.
Proof.
  unfold spacersFor. induction 1 as [|n nodes Hn _ IH]; simpl; constructor; auto.
  unfold rowPair. cbn. tauto.
Qed.

Lemma rows_unchanged (nodes : list DiffNode) :
  Forall (fun n => type n = UNCHANGED) nodes -> Forall2 rowPair nodes nodes.
Proof.
  induction 1 as [|n nodes Hn _ IH]; constructor; auto. unfold rowPair. tauto.
Qed.

Lemma rows_modified_spacers (nodes : list DiffNode) (indent : nat) :
  Forall (fun n => type n = MODIFIED) nodes ->
  Forall2 rowPair nodes (repeat (createSpacer indent) (length nodes))
  /\ Forall2 rowPair (repeat (createSpacer indent) (length nodes)) nodes.
Proof.
  induction 1 as [|n nodes Hn _ [IH1 IH2]]; simpl; split; constructor; auto;
    unfold rowPair; cbn; tauto.
Qed.

Lemma rows_padded (ls rs : list DiffNode) (indent : nat) :
  Forall (fun n => type n = MODIFIED) ls ->
  Forall (fun n => type n = MODIFIED) rs ->
  Forall2 rowPair
    (padSpacers ls (Nat.max (length ls) (length rs)) indent)
    (padSpacers rs (Nat.max (length ls) (length rs)) indent).
Proof.
  unfold padSpacers. intros Hl. revert rs.
  induction Hl as [|a ls Ha Hls IH]; intros rs Hr.
  - replace (Nat.max (length (@nil DiffNode)) (length rs) - length (@nil DiffNode))
      with (length rs) by (cbn; lia).
    replace (Nat.max (length (@nil DiffNode)) (length rs) - length rs) with 0
      by (cbn; lia).
    cbn [app repeat]. rewrite app_nil_r. now apply rows_modified_spacers.
  - destruct Hr as [|b rs Hb Hr].
    + replace (Nat.max (length (a :: ls)) (length (@nil DiffNode)) - length (a :: ls))
        with 0 by (cbn; lia).
      replace (Nat.max (length (a :: ls)) (length (@nil DiffNode))
               - length (@nil DiffNode))
        with (length (a :: ls)) by (cbn; lia).
      cbn [app repeat]. rewrite app_nil_r.
      apply rows_modified_spacers. now constructor.
    + cbn [length app]. rewrite <- Nat.succ_max_distr. cbn [Nat.sub].
      constructor; [unfold rowPair; tauto|]. now apply IH.
Qed.

Lemma compareJson_rows (l r : option JsonValue) :
  forall path indent key isArr idx,
    Forall2 rowPair (leftNodes (compareJson l r path indent key isArr idx))
                    (rightNodes (compareJson l r path indent key isArr idx)).
Proof.
  apply (compareJson_cases
    (fun l r => forall path indent key isArr idx,
         Forall2 rowPair (leftNodes (compareJson l r path indent key isArr idx))
                         (rightNodes (compareJson l r path indent key isArr idx))));
    clear l r.
  - intros. rewrite compareJson_unfold. constructor.
  - intros lv *. rewrite compareJson_unfold. cbn.
    apply rows_removed, createNodes_type.
  - intros rv *. rewrite compareJson_unfold. cbn.
    apply rows_added, createNodes_type.
  - intros lv rv E *. rewrite compareJson_unfold. cbn. rewrite E. cbn.
    apply rows_unchanged, createNodes_type.
  - intros lv rv E T *. rewrite compareJson_unfold. cbn. rewrite E, T. cbn.
    apply rows_padded; apply createNodes_type.
  - intros lo ro E IH *. rewrite compareJson_unfold. unfold compareBody.
    rewrite E. cbn [getValueType ValueType_eqb negb leftNodes rightNodes].
    apply Forall2_app; [|apply Forall2_app];
      try (constructor; [unfold rowPair; cbn; tauto|constructor]).
    apply Forall2_flat_map. intros k. apply IH.
  - intros la ra E IH *. rewrite compareJson_unfold. unfold compareBody.
    rewrite E. cbn [getValueType ValueType_eqb negb leftNodes rightNodes].
    apply Forall2_app; [|apply Forall2_app];
      try (constructor; [unfold rowPair; cbn; tauto|constructor]).
    apply Forall2_flat_map. intros i. apply IH.
  - intros lv rv E Tl Tr *. rewrite compareJson_unfold. unfold compareBody.
    rewrite E.
    destruct lv, rv; try discriminate Tl; try discriminate Tr;
      cbn [getValueType ValueType_eqb negb leftNodes rightNodes];
      (constructor; [right; left; split; reflexivity|constructor]).
Qed.

(** ** C4: the walk over the aligned keys *)

(** C4. When both inputs are objects: (1) the aligned key order is all of
    the left object's keys in their order followed by the right object's
    keys that are not keys of the left, in right-hand order; (2) unless the
    two objects are deep-equal, each column is the shared opening node,
    then one block of rows per aligned key, in that order, then the shared
    closing node, where the two blocks of a key are equally long, not
    empty, lie at child depth or deeper, and show at child depth that key
    and no other, on at least one side; when none of the lookups
    [leftObj[k]], [rightObj[k]] reads [Object.prototype] ([ownLookups]),
    the blocks of a key are the columns of the comparison of the two
    children; (3) in that case the keys shown at child depth in the left
    column are the left object's keys in their original order; (4) when
    the two objects have the same key set, in whatever order, the left
    column and the right column both show the keys in the left object's
    original order. *)
Theorem compareJson_aligned_key_order (leftObj rightObj : JsonObject) (path : string)
    (d : nat) (key : option string) (isArr : bool) (idx : option nat) :
  getAlignedKeys leftObj rightObj
  = Object_keys leftObj
    ++ filter (fun k => k ∉ Object_keys leftObj) (Object_keys rightObj)
  /\ (isEqual (JObject leftObj) (JObject rightObj) = false ->
      exists childLeft childRight : string -> list DiffNode,
        leftNodes (compareJson (Some (JObject leftObj)) (Some (JObject rightObj))
                     path d key isArr idx)
        = [pairedOpenNode key path "{" d isArr idx]
          ++ flat_map childLeft (getAlignedKeys leftObj rightObj)
          ++ [pairedCloseNode path "}" d BracketObject]
        /\ rightNodes (compareJson (Some (JObject leftObj)) (Some (JObject rightObj))
                         path d key isArr idx)
           = [pairedOpenNode key path "{" d isArr idx]
             ++ flat_map childRight (getAlignedKeys leftObj rightObj)
             ++ [pairedCloseNode path "}" d BracketObject]
        /\ (forall k, In k (getAlignedKeys leftObj rightObj) ->
                      keyBlock d k (childLeft k) (childRight k))
        /\ (ownLookups leftObj rightObj = true ->
            forall k,
              childLeft k
              = leftNodes (compareJson (getProp leftObj k) (getProp rightObj k)
                             (objectChildPath path k) (d + 1) (Some k) false None)
              /\ childRight k
                 = rightNodes (compareJson (getProp leftObj k) (getProp rightObj k)
                                 (objectChildPath path k) (d + 1) (Some k) false None)))
  /\ (ownLookups leftObj rightObj = true ->
      keysAt (d + 1)
        (leftNodes (compareJson (Some (JObject leftObj)) (Some (JObject rightObj))
                      path d key isArr idx))
      = Object_keys leftObj)
  /\ (sameKeySet leftObj rightObj = true ->
      keysAt (d + 1)
        (leftNodes (compareJson (Some (JObject leftObj)) (Some (JObject rightObj))
                      path d key isArr idx))
      = Object_keys leftObj
      /\ keysAt (d + 1)
           (rightNodes (compareJson (Some (JObject leftObj)) (Some (JObject rightObj))
                          path d key isArr idx))
         = Object_keys leftObj).
Proof.
  assert (Hkeys := getAlignedKeys_filter leftObj rightObj).
  assert (Hwalk : isEqual (JObject leftObj) (JObject rightObj) = false ->
            compareJson (Some (JObject leftObj)) (Some (JObject rightObj))
              path d key isArr idx
            = {| leftNodes :=
                   [pairedOpenNode key path "{" d isArr idx]
                   ++ flat_map
                        (fun k =>
                           leftNodes (compareJson (getProp leftObj k) (getProp rightObj k)
                                        (objectChildPath path k) (d + 1) (Some k) false None))
                        (getAlignedKeys leftObj rightObj)
                   ++ [pairedCloseNode path "}" d BracketObject];
                 rightNodes :=
                   [pairedOpenNode key path "{" d isArr idx]
                   ++ flat_map
                        (fun k =>
                           rightNodes (compareJson (getProp leftObj k) (getProp rightObj k)
                                         (objectChildPath path k) (d + 1) (Some k) false None))
                        (getAlignedKeys leftObj rightObj)
                   ++ [pairedCloseNode path "}" d BracketObject] |}).
  { intros E. rewrite compareJson_unfold at 1. unfold compareBody. now rewrite E. }
  assert (Hequal : isEqual (JObject leftObj) (JObject rightObj) = true ->
            compareJson (Some (JObject leftObj)) (Some (JObject rightObj))
              path d key isArr idx
            = {| leftNodes :=
                   createNodesForValue (JObject leftObj) path d key UNCHANGED isArr idx;
                 rightNodes :=
                   createNodesForValue (JObject leftObj) path d key UNCHANGED isArr idx |}).
  { intros E. rewrite compareJson_unfold at 1. unfold compareBody. now rewrite E. }
  assert (Hshift : (d =? d + 1) = false) by (apply Nat.eqb_neq; lia).
  assert (Hleft : keysAt (d + 1)
                    (leftNodes (compareJson (Some (JObject leftObj))
                                  (Some (JObject rightObj)) path d key isArr idx))
                  = Object_keys leftObj).
  { destruct (isEqual (JObject leftObj) (JObject rightObj)) eqn:E.
    + rewrite (Hequal eq_refl). cbn [leftNodes]. apply createNodes_object_keysAt.
    + rewrite (Hwalk eq_refl). cbn [leftNodes].
      rewrite !keysAt_app, !keysAt_single, keysAt_flat_map. cbn. rewrite Hshift.
      rewrite app_nil_r. cbn.
      rewrite (flat_map_ext _
                 (fun k => match getProp leftObj k with Some _ => [k] | None => [] end))
        by (intros k; now rewrite (proj1 (compareJson_keysAt _ _ _ _ _ _ _))).
      rewrite Hkeys, flat_map_app.
      rewrite flat_map_present by auto.
      rewrite flat_map_absent; [apply app_nil_r|].
      intros k Hk. apply filter_In in Hk as [_ Hk].
      apply negb_true_iff in Hk. now apply Set_has_false. }
  split; [|split; [|split]].
  - rewrite Hkeys. f_equal. apply filter_right_only.
  - intros E. rewrite (Hwalk E). cbn [leftNodes rightNodes].
    eexists _, _. split; [reflexivity|]. split; [reflexivity|]. split; [|now split].
    intros k Hin. cbv beta.
    destruct (compareJson_keysAt (getProp leftObj k) (getProp rightObj k)
                (objectChildPath path k) (d + 1) (Some k) false None) as [KL KR].
    destruct (compareJson_indent (getProp leftObj k) (getProp rightObj k)
                (objectChildPath path k) (d + 1) (Some k) false None) as [IL IR].
    pose proof (Forall2_length _ _ _
                  (compareJson_rows (getProp leftObj k) (getProp rightObj k)
                     (objectChildPath path k) (d + 1) (Some k) false None)) as Hlen.
    assert (Hone : getProp leftObj k <> None \/ getProp rightObj k <> None).
    { rewrite Hkeys in Hin. apply in_app_or in Hin as [Hin|Hin].
      - left. now apply getProp_present.
      - right. apply filter_In in Hin as [Hin _]. now apply getProp_present. }
    assert (Hsome : keysAt (d + 1)
                      (leftNodes (compareJson (getProp leftObj k) (getProp rightObj k)
                                    (objectChildPath path k) (d + 1) (Some k) false None))
                    = [k]
                    \/ keysAt (d + 1)
                         (rightNodes (compareJson (getProp leftObj k) (getProp rightObj k)
                                        (objectChildPath path k) (d + 1) (Some k) false None))
                       = [k]).
    { rewrite KL, KR. destruct Hone as [Hone|Hone];
        [left; now destruct (getProp leftObj k)|right; now destruct (getProp rightObj k)]. }
    unfold keyBlock. split; [exact Hlen|]. split.
    { intros Hnil. destruct Hsome as [Hs|Hs].
      - rewrite Hnil in Hs. discriminate Hs.
      - rewrite Hnil in Hlen. symmetry in Hlen. apply length_zero_iff_nil in Hlen.
        rewrite Hlen in Hs. discriminate Hs. }
    split; [exact IL|]. split; [exact IR|].
    split; [rewrite KL; destruct (getProp leftObj k); cbn; auto|].
    split; [rewrite KR; destruct (getProp rightObj k); cbn; auto|].
    exact Hsome.
  - intros _. exact Hleft.
  - intros Hsame. split; [exact Hleft|]. rewrite sameKeySet_spec in Hsame.
    destruct (isEqual (JObject leftObj) (JObject rightObj)) eqn:E.
    + rewrite (Hequal eq_refl). cbn [rightNodes]. apply createNodes_object_keysAt.
    + rewrite (Hwalk eq_refl). cbn [rightNodes].
      rewrite !keysAt_app, !keysAt_single, keysAt_flat_map. cbn. rewrite Hshift.
      rewrite app_nil_r. cbn.
      rewrite (flat_map_ext _
                 (fun k => match getProp rightObj k with Some _ => [k] | None => [] end))
        by (intros k; now rewrite (proj2 (compareJson_keysAt _ _ _ _ _ _ _))).
      rewrite Hkeys, flat_map_app.
      rewrite flat_map_present by (intros k Hk; now apply Hsame).
      rewrite flat_map_absent; [apply app_nil_r|].
      intros k Hk. apply filter_In in Hk as [Hin Hk].
      apply negb_true_iff in Hk. apply Set_has_false in Hk.
      exfalso. apply Hk. now apply Hsame.
Qed.

Lemma compareJson_aligned_key_order_witness :
  isEqual (JObject [("a", JNum 1); ("b", JNum 2)])
          (JObject [("b", JNum 3); ("a", JNum 1)]) = false
  /\ sameKeySet [("a", JNum 1); ("b", JNum 2)] [("b", JNum 3); ("a", JNum 1)] = true
  /\ ownLookups [("a", JNum 1); ("b", JNum 2)] [("b", JNum 3); ("a", JNum 1)] = true
  /\ getAlignedKeys [("a", JNum 1); ("b", JNum 2)] [("b", JNum 3); ("a", JNum 1)]
     = ["a"; "b"]
  /\ (exists childLeft childRight : string -> list DiffNode,
        leftNodes (compareJsonTop (Some (JObject [("a", JNum 1); ("b", JNum 2)]))
                     (Some (JObject [("b", JNum 3); ("a", JNum 1)])))
        = [pairedOpenNode None "" "{" 0 false None]
          ++ flat_map childLeft ["a"; "b"]
          ++ [pairedCloseNode "" "}" 0 BracketObject]
        /\ rightNodes (compareJsonTop (Some (JObject [("a", JNum 1); ("b", JNum 2)]))
                         (Some (JObject [("b", JNum 3); ("a", JNum 1)])))
           = [pairedOpenNode None "" "{" 0 false None]
             ++ flat_map childRight ["a"; "b"]
             ++ [pairedCloseNode "" "}" 0 BracketObject]
        /\ keyBlock 0 "a" (childLeft "a") (childRight "a")
        /\ keyBlock 0 "b" (childLeft "b") (childRight "b")
        /\ childLeft "b"
           = leftNodes (compareJson (Some (JNum 2)) (Some (JNum 3)) "b" 1 (Some "b")
                          false None))
  /\ keysAt 1
       (leftNodes (compareJsonTop (Some (JObject [("a", JNum 1); ("b", JNum 2)]))
                     (Some (JObject [("b", JNum 3); ("a", JNum 1)]))))
     = ["a"; "b"]
  /\ keysAt 1
       (rightNodes (compareJsonTop (Some (JObject [("a", JNum 1); ("b", JNum 2)]))
                      (Some (JObject [("b", JNum 3); ("a", JNum 1)]))))
     = ["a"; "b"].
Proof.
  split; [reflexivity|]. split; [reflexivity|]. split; [reflexivity|].
  split; [reflexivity|].
  destruct (compareJson_aligned_key_order
              [("a", JNum 1); ("b", JNum 2)] [("b", JNum 3); ("a", JNum 1)]
              "" 0 None false None) as (_ & Hwalk & Hleft & Hboth).
  split.
  - destruct (Hwalk eq_refl) as (childLeft & childRight & HL & HR & Hblock & Hown).
    exists childLeft, childRight. split; [exact HL|]. split; [exact HR|].
    split; [apply Hblock; cbn; auto|]. split; [apply Hblock; cbn; auto|].
    exact (proj1 (Hown eq_refl "b")).
  - split; [exact (Hleft eq_refl)|exact (proj2 (Hboth eq_refl))].
Defined.

(** ** Rows face each other *)

Lemma Forall2_left {A B : Type} (R : A -> B -> Prop) (P : A -> Prop)
    (ls : list A) (rs : list B) :
  (forall a b, R a b -> P a) -> Forall2 R ls rs -> Forall P ls.
Proof. intros H. induction 1; constructor; eauto. Qed.

Lemma Forall2_right {A B : Type} (R : A -> B -> Prop) (P : B -> Prop)
    (ls : list A) (rs : list B) :
  (forall a b, R a b -> P b) -> Forall2 R ls rs -> Forall P rs.
Proof. intros H. induction 1; constructor; eauto. Qed.

(** X4. Row by row, the two columns of a comparison face each other in
    one of six ways only: the same Unchanged node on both sides, Modified
    against Modified, Modified against a Spacer (either way round), Removed
    on the left against a Spacer, a Spacer against Added on the right. So
    no row has a Spacer on both sides, the left column never holds an
    Added node and the right column never holds a Removed one. *)
Theorem compareJson_row_pairs (l r : option JsonValue) (path : string) (indent : nat)
    (key : option string) (isArr : bool) (idx : option nat) :
  Forall2 rowPair (leftNodes (compareJson l r path indent key isArr idx))
                  (rightNodes (compareJson l r path indent key isArr idx))
  /\ Forall2 (fun a b => ~ (type a = SPACER /\ type b = SPACER))
       (leftNodes (compareJson l r path indent key isArr idx))
       (rightNodes (compareJson l r path indent key isArr idx))
  /\ Forall (fun n => type n <> ADDED)
       (leftNodes (compareJson l r path indent key isArr idx))
  /\ Forall (fun n => type n <> REMOVED)
       (rightNodes (compareJson l r path indent key isArr idx)).
Proof.
  pose proof (compareJson_rows l r path indent key isArr idx) as Hrows.
  split; [exact Hrows|]. split; [|split].
  - eapply Forall2_impl; [exact Hrows|]. unfold rowPair.
    intros a b H [Ha Hb]. destruct H as [[H1 H2]|[[H1 H2]|[[H1 H2]|[[H1 H2]|[[H1 H2]|[H1 H2]]]]]];
      subst; congruence.
  - eapply Forall2_left; [|exact Hrows]. unfold rowPair.
    intros a b H Ha. destruct H as [[H1 H2]|[[H1 H2]|[[H1 H2]|[[H1 H2]|[[H1 H2]|[H1 H2]]]]]];
      congruence.
  - eapply Forall2_right; [|exact Hrows]. unfold rowPair.
    intros a b H Hb. destruct H as [[H1 H2]|[[H1 H2]|[[H1 H2]|[[H1 H2]|[[H1 H2]|[H1 H2]]]]]];
      subst; congruence.
Qed.

(** ** Properties of one column *)

(** Every node of the left column satisfies [PL] and every node of the
    right column [PR] as soon as the nodes each column can receive do. *)
Lemma compareJson_columns (PL PR : DiffNode -> Prop) :
  (forall indent, PL (createSpacer indent) /\ PR (createSpacer indent)) ->
  (forall v path indent key isArr idx,
      Forall PL (createNodesForValue v path indent key REMOVED isArr idx)) ->
  (forall v path indent key isArr idx,
      Forall PR (createNodesForValue v path indent key ADDED isArr idx)) ->
  (forall diffType v path indent key isArr idx,
      diffType = UNCHANGED \/ diffType = MODIFIED ->
      Forall PL (createNodesForValue v path indent key diffType isArr idx)
      /\ Forall PR (createNodesForValue v path indent key diffType isArr idx)) ->
  (forall key path marker indent isArr idx,
      marker = "{" \/ marker = "[" ->
      PL (pairedOpenNode key path marker indent isArr idx)
      /\ PR (pairedOpenNode key path marker indent isArr idx)) ->
  (forall path indent,
      (PL (pairedCloseNode path "}" indent BracketObject)
       /\ PR (pairedCloseNode path "}" indent BracketObject))
      /\ (PL (pairedCloseNode path "]" indent BracketArray)
          /\ PR (pairedCloseNode path "]" indent BracketArray))) ->
  (forall key path lv rv indent isArr idx,
      getValueType lv = TPrimitive -> getValueType rv = TPrimitive ->
      PL (modifiedLeftNode key path lv indent isArr idx)
      /\ PR (modifiedRightNode key path rv indent isArr idx)) ->
  forall l r path indent key isArr idx,
    Forall PL (leftNodes (compareJson l r path indent key isArr idx))
    /\ Forall PR (rightNodes (compareJson l r path indent key isArr idx)).
Proof.
  intros Hsp Hrem Hadd Hboth Hpo Hpc Hmod l r.
  apply (compareJson_cases
    (fun l r => forall path indent key isArr idx,
         Forall PL (leftNodes (compareJson l r path indent key isArr idx))
         /\ Forall PR (rightNodes (compareJson l r path indent key isArr idx))));
    clear l r.
  - intros. rewrite compareJson_unfold. cbn. split; constructor.
  - intros lv *. rewrite compareJson_unfold. cbn. split; [apply Hrem|].
    apply Forall_repeat, Hsp.
  - intros rv *. rewrite compareJson_unfold. cbn. split; [|apply Hadd].
    apply Forall_repeat, Hsp.
  - intros lv rv E *. rewrite compareJson_unfold. cbn. rewrite E. cbn.
    split; apply Hboth; auto.
  - intros lv rv E T *. rewrite compareJson_unfold. cbn. rewrite E, T. cbn.
    unfold padSpacers.
    split; apply Forall_app; split; try (apply Hboth; auto);
      apply Forall_repeat, Hsp.
  - intros lo ro E IH *. rewrite compareJson_unfold. unfold compareBody.
    rewrite E. cbn [getValueType ValueType_eqb negb leftNodes rightNodes].
    split; (apply Forall_app; split; [|apply Forall_app; split]);
      try (constructor; [|constructor]; try apply Hpo; try apply Hpc; auto);
      apply Forall_flat_map_intro; intros k _; apply IH.
  - intros la ra E IH *. rewrite compareJson_unfold. unfold compareBody.
    rewrite E. cbn [getValueType ValueType_eqb negb leftNodes rightNodes].
    split; (apply Forall_app; split; [|apply Forall_app; split]);
      try (constructor; [|constructor]; try apply Hpo; try apply Hpc; auto);
      apply Forall_flat_map_intro; intros i _; apply IH.
  - intros lv rv E Tl Tr p i k a x. rewrite compareJson_unfold. unfold compareBody.
    rewrite E.
    destruct (Hmod k p lv rv i a x Tl Tr) as [HL HR].
    destruct lv, rv; try discriminate Tl; try discriminate Tr;
      cbn [getValueType ValueType_eqb negb leftNodes rightNodes];
      (split; (constructor; [assumption|constructor])).
Qed.

Ltac node_shape :=
  intros; cbn in *; try discriminate; try congruence; auto.

(** X5. Every leaf row of a comparison (a row that is neither a spacer nor
    an opening or closing bracket) carries the value to display on the side
    of its column: [leftValue] in the left column, [rightValue] in the
    right column. *)
Theorem compareJson_leaf_values (l r : option JsonValue) (path : string) (indent : nat)
    (key : option string) (isArr : bool) (idx : option nat) :
  Forall (fun n => isLeaf n = true -> hasValue (leftValue n))
    (leftNodes (compareJson l r path indent key isArr idx))
  /\ Forall (fun n => isLeaf n = true -> hasValue (rightValue n))
       (rightNodes (compareJson l r path indent key isArr idx)).
Proof.
  apply compareJson_columns; unfold isLeaf, isSpacer, hasValue.
  - split; node_shape.
  - apply createNodes_Forall; node_shape.
  - apply createNodes_Forall; node_shape.
  - intros diffType v p i k a x [->| ->]; split; apply createNodes_Forall; node_shape.
  - split; node_shape.
  - repeat split; node_shape.
  - split; node_shape.
Qed.

Lemma compareJson_leaf_values_witness :
  Forall (fun n => isLeaf n = true -> hasValue (leftValue n))
    (leftNodes (compareJsonTop (Some (JObject [("a", JNum 1)])) (Some (JArray [JNull])))).
Proof.
  apply (proj1 (compareJson_leaf_values (Some (JObject [("a", JNum 1)]))
                  (Some (JArray [JNull])) "" 0 None false None)).
Defined.

(** ** Where the collapse toggle is offered *)

(** X6. In a subtree materialized as Removed the collapse toggle is offered
    on the left side of exactly the opening rows and nowhere on the right;
    in a subtree materialized as Added, on the right side of exactly the
    opening rows and nowhere on the left; in a subtree materialized as
    Unchanged or Modified no row offers it on either side. *)
Theorem createNodesForValue_toggles (v : JsonValue) (path : string) (indent : nat)
    (key : option string) (isArr : bool) (idx : option nat) :
  Forall (fun n => showCollapseToggle n SideLeft = isCollapsible n
                   /\ showCollapseToggle n SideRight = false)
    (createNodesForValue v path indent key REMOVED isArr idx)
  /\ Forall (fun n => showCollapseToggle n SideRight = isCollapsible n
                      /\ showCollapseToggle n SideLeft = false)
       (createNodesForValue v path indent key ADDED isArr idx)
  /\ Forall (fun n => forall side, showCollapseToggle n side = false)
       (createNodesForValue v path indent key UNCHANGED isArr idx)
  /\ Forall (fun n => forall side, showCollapseToggle n side = false)
       (createNodesForValue v path indent key MODIFIED isArr idx).
Proof.
  unfold showCollapseToggle.
  split; [|split; [|split]]; apply createNodes_Forall; intros; cbn;
    repeat split; try (intros []); reflexivity.
Qed.

Lemma no_toggle_when_unchanged (v : JsonValue) (path : string) (indent : nat)
    (key : option string) (isArr : bool) (idx : option nat) :
  Forall (fun n => forall side, showCollapseToggle n side = false)
    (createNodesForValue v path indent key UNCHANGED isArr idx).
Proof.
  unfold showCollapseToggle.
  apply createNodes_Forall; intros; cbn; repeat split; intros []; reflexivity.
Qed.

(** X7. When the two inputs are deep-equal, no row of either column offers
    the collapse toggle, on either side: the opening rows of the result
    carry no bracket literal. *)
Theorem compareJson_equal_no_toggle (lv rv : JsonValue) (path : string) (indent : nat)
    (key : option string) (isArr : bool) (idx : option nat) :
  isEqual lv rv = true ->
  Forall (fun n => forall side, showCollapseToggle n side = false)
    (leftNodes (compareJson (Some lv) (Some rv) path indent key isArr idx))
  /\ Forall (fun n => forall side, showCollapseToggle n side = false)
       (rightNodes (compareJson (Some lv) (Some rv) path indent key isArr idx)).
Proof.
  intros E. rewrite compareJson_unfold. unfold compareBody. rewrite E.
  cbn [leftNodes rightNodes]. split; apply no_toggle_when_unchanged.
Qed.

Lemma compareJson_equal_no_toggle_witness :
  isEqual (JObject [("a", JObject [("b", JNum 1)])])
          (JObject [("a", JObject [("b", JNum 1)])]) = true
  /\ Forall (fun n => forall side, showCollapseToggle n side = false)
       (leftNodes (compareJsonTop (Some (JObject [("a", JObject [("b", JNum 1)])]))
                     (Some (JObject [("a", JObject [("b", JNum 1)])])))).
Proof.
  split; [reflexivity|].
  apply (proj1 (compareJson_equal_no_toggle
                  (JObject [("a", JObject [("b", JNum 1)])])
                  (JObject [("a", JObject [("b", JNum 1)])])
                  "" 0 None false None eq_refl)).
Defined.

(** ** Brackets balance *)

Lemma bracketBalance_app (a b : list DiffNode) :
  bracketBalance (a ++ b) = (bracketBalance a + bracketBalance b)%Z.
Proof.
  unfold bracketBalance. induction a as [|n a IH]; simpl; [reflexivity|].
  rewrite IH. lia.
Qed.

Lemma bracketBalance_flat_map {A : Type} (f : A -> list DiffNode) (xs : list A) :
  (forall x, In x xs -> bracketBalance (f x) = 0%Z) ->
  bracketBalance (flat_map f xs) = 0%Z.
Proof.
  induction xs as [|x xs IH]; intros H; [reflexivity|]. simpl.
  rewrite bracketBalance_app, (H x) by (now left).
  rewrite IH; [reflexivity|]. intros y Hy. apply H. now right.
Qed.

Lemma bracketBalance_repeat_spacer (indent n : nat) :
  bracketBalance (repeat (createSpacer indent) n) = 0%Z.
Proof. induction n as [|n IH]; [reflexivity|]. unfold bracketBalance in *. simpl. now rewrite IH. Qed.

Lemma createNodes_balance (v : JsonValue) :
  forall path indent key diffType isArr idx,
    bracketBalance (createNodesForValue v path indent key diffType isArr idx) = 0%Z.
Proof.
  induction v as [| b | z | s | obj IH | arr IH] using JsonValue_nested_ind;
    intros p i k d a x; try reflexivity.
  - rewrite createNodes_object, !bracketBalance_app, bracketBalance_flat_map.
    + reflexivity.
    + intros kv Hin. rewrite List.Forall_forall in IH. now apply IH.
  - rewrite createNodes_array, !bracketBalance_app, bracketBalance_flat_map.
    + reflexivity.
    + intros [j y] Hin. rewrite List.Forall_forall in IH. apply IH.
      now apply in_combine_r in Hin.
Qed.

Lemma compareJson_balance (l r : option JsonValue) :
  forall path indent key isArr idx,
    bracketBalance (leftNodes (compareJson l r path indent key isArr idx)) = 0%Z
    /\ bracketBalance (rightNodes (compareJson l r path indent key isArr idx)) = 0%Z.
Proof.
  apply (compareJson_cases
    (fun l r => forall path indent key isArr idx,
         bracketBalance (leftNodes (compareJson l r path indent key isArr idx)) = 0%Z
         /\ bracketBalance (rightNodes (compareJson l r path indent key isArr idx)) = 0%Z));
    clear l r.
  - intros. rewrite compareJson_unfold. now cbn.
  - intros lv *. rewrite compareJson_unfold. unfold compareBody, spacersFor. cbn [leftNodes rightNodes].
    now rewrite createNodes_balance, bracketBalance_repeat_spacer.
  - intros rv *. rewrite compareJson_unfold. unfold compareBody, spacersFor. cbn [leftNodes rightNodes].
    now rewrite createNodes_balance, bracketBalance_repeat_spacer.
  - intros lv rv E *. rewrite compareJson_unfold. unfold compareBody. rewrite E. cbn [leftNodes rightNodes].
    now rewrite createNodes_balance.
  - intros lv rv E T *. rewrite compareJson_unfold. unfold compareBody. rewrite E, T. cbn [negb leftNodes rightNodes].
    unfold padSpacers.
    now rewrite !bracketBalance_app, !createNodes_balance, !bracketBalance_repeat_spacer.
  - intros lo ro E IH *. rewrite compareJson_unfold. unfold compareBody.
    rewrite E. cbn [getValueType ValueType_eqb negb leftNodes rightNodes].
    rewrite !bracketBalance_app, !bracketBalance_flat_map;
      try (intros k _; apply IH). now split.
  - intros la ra E IH *. rewrite compareJson_unfold. unfold compareBody.
    rewrite E. cbn [getValueType ValueType_eqb negb leftNodes rightNodes].
    rewrite !bracketBalance_app, !bracketBalance_flat_map;
      try (intros i _; apply IH). now split.
  - intros lv rv E Tl Tr *. rewrite compareJson_unfold. unfold compareBody.
    rewrite E.
    destruct lv, rv; try discriminate Tl; try discriminate Tr; now split.
Qed.

(** X8. In each column of a comparison, and in every materialized subtree,
    opening rows and closing rows balance: there are as many rows with
    [isCollapsible] as rows flagged [isClosingBracket]. *)
Theorem compareJson_brackets_balance (l r : option JsonValue) (v : JsonValue)
    (path : string) (indent : nat) (key : option string) (diffType : DiffType)
    (isArr : bool) (idx : option nat) :
  bracketBalance (leftNodes (compareJson l r path indent key isArr idx)) = 0%Z
  /\ bracketBalance (rightNodes (compareJson l r path indent key isArr idx)) = 0%Z
  /\ bracketBalance (createNodesForValue v path indent key diffType isArr idx) = 0%Z.
Proof.
  destruct (compareJson_balance l r path indent key isArr idx) as [HL HR].
  repeat split; auto using createNodes_balance.
Qed.

(** ** A column without its spacers is its document *)

Lemma nonSpacers_app (a b : list DiffNode) :
  nonSpacers (a ++ b) = nonSpacers a ++ nonSpacers b.
Proof. apply List.filter_app. Qed.

Lemma nonSpacers_flat_map {A : Type} (f : A -> list DiffNode) (xs : list A) :
  nonSpacers (flat_map f xs) = flat_map (fun x => nonSpacers (f x)) xs.
Proof.
  induction xs as [|x xs IH]; [reflexivity|]. simpl. now rewrite nonSpacers_app, IH.
Qed.

Lemma nonSpacers_repeat_spacer (indent n : nat) :
  nonSpacers (repeat (createSpacer indent) n) = [].
Proof. induction n as [|n IH]; [reflexivity|]. exact IH. Qed.

Lemma nonSpacers_all (nodes : list DiffNode) :
  Forall (fun n => isSpacer n = false) nodes -> nonSpacers nodes = nodes.
Proof.
  induction 1 as [|n nodes Hn _ IH]; [reflexivity|].
  unfold nonSpacers in *. cbn [List.filter]. now rewrite Hn, IH.
Qed.

Lemma nonSpacers_createNodes (v : JsonValue) (path : string) (indent : nat)
    (key : option string) (diffType : DiffType) (isArr : bool) (idx : option nat) :
  diffType <> SPACER ->
  nonSpacers (createNodesForValue v path indent key diffType isArr idx)
  = createNodesForValue v path indent key diffType isArr idx.
Proof.
  intros Hd. apply nonSpacers_all.
  eapply List.Forall_impl; [|apply createNodes_type].
  intros n Hn. unfold isSpacer. rewrite Hn. now destruct diffType.
Qed.

Lemma flat_map_ext_In {A B : Type} (f g : A -> list B) (xs : list A) :
  (forall x, In x xs -> f x = g x) -> flat_map f xs = flat_map g xs.
Proof.
  induction xs as [|x xs IH]; intros H; [reflexivity|]. simpl.
  rewrite (H x) by (now left). f_equal. apply IH. intros y Hy. apply H. now right.
Qed.

(** The skeleton of a materialized subtree does not depend on the
    classification. *)
Lemma skeleton_createNodes (v : JsonValue) (d d' : DiffType) :
  forall path indent key isArr idx,
    map skeleton (createNodesForValue v path indent key d isArr idx)
    = map skeleton (createNodesForValue v path indent key d' isArr idx).
Proof.
  induction v as [| b | z | s | obj IH | arr IH] using JsonValue_nested_ind;
    intros p i k a x; try reflexivity.
  - rewrite !createNodes_object, !map_app, !map_flat_map_comm. f_equal. f_equal.
    apply flat_map_ext_In. intros kv Hin. rewrite List.Forall_forall in IH.
    now apply IH.
  - rewrite !createNodes_array, !map_app, !map_flat_map_comm. f_equal. f_equal.
    apply flat_map_ext_In. intros [j y] Hin. rewrite List.Forall_forall in IH.
    apply IH. now apply in_combine_r in Hin.
Qed.

Lemma flat_map_by_key {B : Type} (F : string -> JsonValue -> list B) (obj : JsonObject) :
  uniqueKeys (Object_keys obj) = true ->
  flat_map (fun k => match getProp obj k with Some v => F k v | None => [] end)
    (Object_keys obj)
  = flat_map (fun kv => F (fst kv) (snd kv)) obj.
Proof.
  intros Hu. unfold Object_keys. rewrite flat_map_concat_map, map_map.
  rewrite <- flat_map_concat_map. apply flat_map_ext_In. intros [k v] Hin. cbn.
  now rewrite (getProp_unique obj k v Hu Hin).
Qed.

Lemma flat_map_absent_keys {B : Type} (F : string -> JsonValue -> list B)
    (obj : JsonObject) (keys : list string) :
  (forall k, In k keys -> ~ In k (Object_keys obj)) ->
  flat_map (fun k => match getProp obj k with Some v => F k v | None => [] end) keys = [].
Proof.
  induction keys as [|k keys IH]; intros H; [reflexivity|]. simpl.
  rewrite (proj2 (getProp_None obj k)) by (apply H; now left).
  apply IH. intros k' Hk'. apply H. now right.
Qed.

Lemma flat_map_by_index_from {B : Type} (arr : JsonArray) :
  forall (s : nat) (F : nat -> JsonValue -> list B),
    flat_map (fun i => match nth_error arr i with Some v => F (s + i) v | None => [] end)
      (seq 0 (length arr))
    = flat_map (fun jv => F (fst jv) (snd jv)) (combine (seq s (length arr)) arr).
Proof.
  induction arr as [|x arr IH]; intros s F; [reflexivity|].
  cbn [length seq combine flat_map nth_error fst snd].
  rewrite Nat.add_0_r. f_equal.
  rewrite <- seq_shift, flat_map_concat_map, map_map, <- flat_map_concat_map.
  cbn [nth_error]. rewrite <- (IH (S s) F).
  apply flat_map_ext. intros i. now rewrite Nat.add_succ_r.
Qed.

Lemma flat_map_beyond {B : Type} (arr : JsonArray) (F : nat -> JsonValue -> list B)
    (n : nat) :
  flat_map (fun i => match nth_error arr i with Some v => F i v | None => [] end)
    (seq (length arr) n) = [].
Proof.
  rewrite (flat_map_ext_In _ (fun _ => [])).
  - induction (seq (length arr) n) as [|i l IH]; [reflexivity|exact IH].
  - intros i Hi. apply in_seq in Hi.
    now rewrite (proj2 (nth_error_None arr i)) by lia.
Qed.

Lemma flat_map_by_index {B : Type} (arr : JsonArray) (F : nat -> JsonValue -> list B)
    (m : nat) :
  length arr <= m ->
  flat_map (fun i => match nth_error arr i with Some v => F i v | None => [] end)
    (seq 0 m)
  = flat_map (fun jv => F (fst jv) (snd jv)) (combine (seq 0 (length arr)) arr).
Proof.
  intros Hle. replace m with (length arr + (m - length arr)) by lia.
  rewrite seq_app, flat_map_app, flat_map_beyond, app_nil_r.
  apply (flat_map_by_index_from arr 0 F).
Qed.

Lemma compareJson_left_skeleton (l r : option JsonValue) :
  wfOpt l = true ->
  forall path indent key isArr idx,
    map skeleton (nonSpacers (leftNodes (compareJson l r path indent key isArr idx)))
    = match l with
      | Some lv =>
          map skeleton (createNodesForValue lv path indent key UNCHANGED isArr idx)
      | None => []
      end.
Proof.
  apply (compareJson_cases
    (fun l r =>
       wfOpt l = true ->
       forall path indent key isArr idx,
         map skeleton (nonSpacers (leftNodes (compareJson l r path indent key isArr idx)))
         = match l with
           | Some lv =>
               map skeleton (createNodesForValue lv path indent key UNCHANGED isArr idx)
           | None => []
           end)); clear l r.
  - intros _ *. now rewrite compareJson_unfold.
  - intros lv _ *. rewrite compareJson_unfold. unfold compareBody.
    cbn [leftNodes]. rewrite nonSpacers_createNodes by discriminate.
    apply skeleton_createNodes.
  - intros rv _ *. rewrite compareJson_unfold. unfold compareBody, spacersFor.
    cbn [leftNodes]. now rewrite nonSpacers_repeat_spacer.
  - intros lv rv E _ *. rewrite compareJson_unfold. unfold compareBody. rewrite E.
    cbn [leftNodes]. now rewrite nonSpacers_createNodes by discriminate.
  - intros lv rv E T _ *. rewrite compareJson_unfold. unfold compareBody, padSpacers.
    rewrite E, T. cbn [negb leftNodes].
    rewrite nonSpacers_app, nonSpacers_repeat_spacer, app_nil_r.
    rewrite nonSpacers_createNodes by discriminate. apply skeleton_createNodes.
  - intros lo ro E IH Hwf p i k a x. cbn [wfOpt] in Hwf.
    rewrite compareJson_unfold. unfold compareBody. rewrite E.
    cbn [getValueType ValueType_eqb negb leftNodes].
    rewrite !nonSpacers_app, nonSpacers_flat_map, !map_app, map_flat_map_comm.
    rewrite createNodes_object, !map_app, map_flat_map_comm.
    f_equal. f_equal.
    rewrite (flat_map_ext _
      (fun k' => match getProp lo k' with
                 | Some v => map skeleton
                               (createNodesForValue v (objectChildPath p k') (i + 1)
                                  (Some k') UNCHANGED false None)
                 | None => []
                 end)).
    + rewrite getAlignedKeys_filter, flat_map_app.
      rewrite (flat_map_by_key
                 (fun k' v => map skeleton
                    (createNodesForValue v (objectChildPath p k') (i + 1)
                       (Some k') UNCHANGED false None)) lo)
        by (now apply wfJson_object in Hwf).
      rewrite flat_map_absent_keys; [apply app_nil_r|].
      intros k' Hk'. apply filter_In in Hk' as [_ Hk'].
      apply negb_true_iff in Hk'. now apply Set_has_false.
    + intros k'. rewrite (IH k' (wfOpt_getProp lo k' Hwf)).
      now destruct (getProp lo k').
  - intros la ra E IH Hwf p i k a x. cbn [wfOpt] in Hwf.
    rewrite compareJson_unfold. unfold compareBody. rewrite E.
    cbn [getValueType ValueType_eqb negb leftNodes].
    rewrite !nonSpacers_app, nonSpacers_flat_map, !map_app, map_flat_map_comm.
    rewrite createNodes_array, !map_app, map_flat_map_comm.
    f_equal. f_equal.
    rewrite (flat_map_ext _
      (fun j => match nth_error la j with
                | Some v => map skeleton
                              (createNodesForValue v (arrayChildPath p j) (i + 1)
                                 None UNCHANGED true (Some j))
                | None => []
                end)).
    + apply (flat_map_by_index la
               (fun j v => map skeleton
                  (createNodesForValue v (arrayChildPath p j) (i + 1)
                     None UNCHANGED true (Some j)))). lia.
    + intros j. rewrite (IH j (wfOpt_nth_error la j Hwf)).
      now destruct (nth_error la j).
  - intros lv rv E Tl Tr _ *. rewrite compareJson_unfold. unfold compareBody.
    rewrite E.
    destruct lv, rv; try discriminate Tl; try discriminate Tr; reflexivity.
Qed.

(** X9. Take the spacers out of the left column: what remains is the left
    document, row for row. The rows carry the keys, paths, indents, array
    positions and bracket flags of the left value materialized on its own,
    in the same order, so they are [sizeOf] of the left value many. This
    is stated for documents in which every object has unique keys and no
    key is a reserved name ([ownNamesOnly]): a right-hand key that the
    left object inherits from [Object.prototype] would otherwise put a row
    of its own into the left column. *)
Theorem compareJson_left_column_is_left_document (lv : JsonValue)
    (r : option JsonValue) (path : string) (indent : nat) (key : option string)
    (isArr : bool) (idx : option nat) :
  wfJson lv = true -> ownNamesOnly lv = true -> ownNamesOnlyOpt r = true ->
  map skeleton
    (nonSpacers (leftNodes (compareJson (Some lv) r path indent key isArr idx)))
  = map skeleton (createNodesForValue lv path indent key UNCHANGED isArr idx)
  /\ length (nonSpacers (leftNodes (compareJson (Some lv) r path indent key isArr idx)))
     = sizeOf lv.
Proof.
  intros Hwf _ _.
  pose proof (compareJson_left_skeleton (Some lv) r Hwf path indent key isArr idx) as H.
  split; [exact H|].
  apply (f_equal (@length _)) in H. rewrite !length_map, length_createNodes in H.
  exact H.
Qed.

Lemma compareJson_left_column_is_left_document_witness :
  wfJson (JObject [("a", JNum 1); ("b", JArray [JNull])]) = true
  /\ ownNamesOnly (JObject [("a", JNum 1); ("b", JArray [JNull])]) = true
  /\ ownNamesOnlyOpt (Some (JObject [("c", JNull); ("b", JNum 2)])) = true
  /\ length (nonSpacers (leftNodes (compareJsonTop
                (Some (JObject [("a", JNum 1); ("b", JArray [JNull])]))
                (Some (JObject [("c", JNull); ("b", JNum 2)]))))) = 6.
Proof.
  split; [reflexivity|]. split; [reflexivity|]. split; [reflexivity|].
  apply (proj2 (compareJson_left_column_is_left_document
                  (JObject [("a", JNum 1); ("b", JArray [JNull])])
                  (Some (JObject [("c", JNull); ("b", JNum 2)]))
                  "" 0 None false None eq_refl eq_refl eq_refl)).
Defined.

Lemma list_sum_filter_zero {A : Type} (g : A -> nat) (q : A -> bool) (l : list A) :
  (forall x, In x l -> q x = false -> g x = 0) ->
  list_sum (map g l) = list_sum (map g (List.filter q l)).
Proof.
  induction l as [|x l IH]; intros H; [reflexivity|]. simpl.
  rewrite IH by (intros y Hy; apply H; now right).
  destruct (q x) eqn:Hq; [reflexivity|]. now rewrite (H x) by auto using in_eq.
Qed.

Lemma list_sum_partition {A : Type} (g : A -> nat) (q : A -> bool) (l : list A) :
  list_sum (map g l)
  = list_sum (map g (List.filter q l))
    + list_sum (map g (List.filter (fun x => negb (q x)) l)).
Proof.
  induction l as [|x l IH]; [reflexivity|]. simpl.
  rewrite IH. destruct (q x); simpl; lia.
Qed.

Lemma common_keys_Permutation (leftKeys rightKeys : list string) :
  List.NoDup leftKeys -> List.NoDup rightKeys ->
  Permutation (List.filter (Set_has rightKeys) leftKeys)
              (List.filter (Set_has leftKeys) rightKeys).
Proof.
  intros Hl Hr. apply Permutation.NoDup_Permutation; try now apply List.NoDup_filter.
  intros k. rewrite !filter_In, !Set_has_In. tauto.
Qed.

(** Summing over the aligned keys a quantity that vanishes off the right
    object is summing over the right object's keys. *)
Lemma aligned_sum_right (g : string -> nat) (leftObj rightObj : JsonObject) :
  uniqueKeys (Object_keys leftObj) = true ->
  uniqueKeys (Object_keys rightObj) = true ->
  (forall k, ~ In k (Object_keys rightObj) -> g k = 0) ->
  list_sum (map g (getAlignedKeys leftObj rightObj))
  = list_sum (map g (Object_keys rightObj)).
Proof.
  intros Hl Hr Hzero. apply uniqueKeys_NoDup in Hl, Hr.
  rewrite getAlignedKeys_filter, map_app, list_sum_app.
  rewrite (list_sum_filter_zero g (Set_has (Object_keys rightObj)) (Object_keys leftObj)).
  - rewrite (list_sum_map_Permutation g _ _
               (common_keys_Permutation _ _ Hl Hr)).
    symmetry. apply list_sum_partition.
  - intros k _ Hk. apply Hzero. now apply Set_has_false.
Qed.

Lemma list_sum_zeros {A : Type} (g : A -> nat) (l : list A) :
  (forall x, In x l -> g x = 0) -> list_sum (map g l) = 0.
Proof.
  induction l as [|x l IH]; intros H; [reflexivity|]. simpl.
  rewrite (H x) by auto using in_eq. apply IH. intros y Hy. apply H. now right.
Qed.

Lemma sum_by_index (g : JsonValue -> nat) (arr : JsonArray) :
  forall m, length arr <= m ->
    list_sum (map (fun i => match nth_error arr i with Some v => g v | None => 0 end)
                (seq 0 m))
    = list_sum (map g arr).
Proof.
  induction arr as [|x arr IH]; intros m Hle.
  - apply list_sum_zeros. intros i _. now destruct i.
  - destruct m as [|m]; [cbn in Hle; lia|].
    simpl. f_equal.
    rewrite <- seq_shift, map_map. simpl.
    apply IH. cbn in Hle. lia.
Qed.

Lemma compareJson_right_count (l r : option JsonValue) :
  wfOpt l = true -> wfOpt r = true ->
  forall path indent key isArr idx,
    length (nonSpacers (rightNodes (compareJson l r path indent key isArr idx)))
    = match r with Some rv => sizeOf rv | None => 0 end.
Proof.
  apply (compareJson_cases
    (fun l r =>
       wfOpt l = true -> wfOpt r = true ->
       forall path indent key isArr idx,
         length (nonSpacers (rightNodes (compareJson l r path indent key isArr idx)))
         = match r with Some rv => sizeOf rv | None => 0 end)); clear l r.
  - intros _ _ *. now rewrite compareJson_unfold.
  - intros lv _ _ *. rewrite compareJson_unfold. unfold compareBody, spacersFor.
    cbn [rightNodes]. now rewrite nonSpacers_repeat_spacer.
  - intros rv _ _ *. rewrite compareJson_unfold. unfold compareBody.
    cbn [rightNodes]. rewrite nonSpacers_createNodes by discriminate.
    apply length_createNodes.
  - intros lv rv E Hwl Hwr *. cbn [wfOpt] in Hwl, Hwr.
    rewrite compareJson_unfold. unfold compareBody. rewrite E.
    cbn [rightNodes]. rewrite nonSpacers_createNodes by discriminate.
    rewrite length_createNodes. now apply isEqual_sizeOf.
  - intros lv rv E T _ _ *. rewrite compareJson_unfold. unfold compareBody, padSpacers.
    rewrite E, T. cbn [negb rightNodes].
    rewrite nonSpacers_app, nonSpacers_repeat_spacer, app_nil_r.
    rewrite nonSpacers_createNodes by discriminate. apply length_createNodes.
  - intros lo ro E IH Hwl Hwr p i k a x. cbn [wfOpt] in Hwl, Hwr.
    rewrite compareJson_unfold. unfold compareBody. rewrite E.
    cbn [getValueType ValueType_eqb negb rightNodes].
    rewrite !nonSpacers_app, nonSpacers_flat_map, !length_app.
    rewrite (length_flat_map_sum _
      (fun k' => match getProp ro k' with Some v => sizeOf v | None => 0 end))
      by (intros k' _; apply IH; auto using wfOpt_getProp).
    pose proof (wfJson_object lo Hwl) as [Hul _].
    pose proof (wfJson_object ro Hwr) as [Hur _].
    rewrite (aligned_sum_right _ lo ro Hul Hur).
    + cbn [sizeOf]. rewrite (entries_sum_by_key (fun v => sizeOf v) ro Hur).
      cbn [nonSpacers List.filter isSpacer type pairedOpenNode pairedCloseNode negb length].
      lia.
    + intros k' Hk'. now rewrite (proj2 (getProp_None ro k')).
  - intros la ra E IH Hwl Hwr p i k a x. cbn [wfOpt] in Hwl, Hwr.
    rewrite compareJson_unfold. unfold compareBody. rewrite E.
    cbn [getValueType ValueType_eqb negb rightNodes].
    rewrite !nonSpacers_app, nonSpacers_flat_map, !length_app.
    rewrite (length_flat_map_sum _
      (fun j => match nth_error ra j with Some v => sizeOf v | None => 0 end))
      by (intros j _; apply IH; auto using wfOpt_nth_error).
    rewrite (sum_by_index (fun v => sizeOf v) ra) by lia.
    cbn [sizeOf nonSpacers List.filter isSpacer type pairedOpenNode pairedCloseNode
         negb length].
    lia.
  - intros lv rv E Tl Tr _ _ *. rewrite compareJson_unfold. unfold compareBody.
    rewrite E.
    destruct lv, rv; try discriminate Tl; try discriminate Tr; reflexivity.
Qed.

(** X10. Take the spacers out of the right column: [sizeOf] of the right
    value many rows remain, one per line of the right document, whatever
    the left input is. This is stated for documents in which every object
    has unique keys and no key is a reserved name ([ownNamesOnly]): a
    left-hand key that the right object inherits from [Object.prototype]
    would otherwise put a row of its own into the right column. *)
Theorem compareJson_right_column_count (l : option JsonValue) (rv : JsonValue)
    (path : string) (indent : nat) (key : option string) (isArr : bool)
    (idx : option nat) :
  wfOpt l = true -> wfJson rv = true ->
  ownNamesOnlyOpt l = true -> ownNamesOnly rv = true ->
  length (nonSpacers (rightNodes (compareJson l (Some rv) path indent key isArr idx)))
  = sizeOf rv.
Proof.
  intros Hl Hr _ _. now apply (compareJson_right_count l (Some rv)).
Qed.

Lemma compareJson_right_column_count_witness :
  wfOpt (Some (JObject [("a", JNum 1); ("b", JArray [JNull])])) = true
  /\ wfJson (JObject [("c", JNull); ("b", JNum 2)]) = true
  /\ ownNamesOnlyOpt (Some (JObject [("a", JNum 1); ("b", JArray [JNull])])) = true
  /\ ownNamesOnly (JObject [("c", JNull); ("b", JNum 2)]) = true
  /\ length (nonSpacers (rightNodes (compareJsonTop
                (Some (JObject [("a", JNum 1); ("b", JArray [JNull])]))
                (Some (JObject [("c", JNull); ("b", JNum 2)]))))) = 4.
Proof.
  split; [reflexivity|]. split; [reflexivity|].
  split; [reflexivity|]. split; [reflexivity|].
  apply (compareJson_right_column_count
           (Some (JObject [("a", JNum 1); ("b", JArray [JNull])]))
           (JObject [("c", JNull); ("b", JNum 2)])
           "" 0 None false None); reflexivity.
Defined.

(** ** Paths below a position *)

Lemma pathExtends_refl (p : string) : pathExtends p p.
Proof.
  exists "". induction p as [|c p IH]; [reflexivity|].
  change (String c p = String c (p ++ ""))%string. now f_equal.
Qed.

Lemma pathExtends_trans (p q r : string) :
  pathExtends p q -> pathExtends q r -> pathExtends p r.
Proof.
  intros [a ->] [b ->]. exists (a ++ b)%string. apply string_app_assoc.
Qed.

Lemma objectChildPath_extends (p k : string) : pathExtends p (objectChildPath p k).
Proof.
  unfold objectChildPath. destruct (String.eqb_spec p "") as [->|_].
  - now exists k.
  - now exists ("." ++ k)%string.
Qed.

Lemma arrayChildPath_extends (p : string) (i : nat) :
  pathExtends p (arrayChildPath p i).
Proof. unfold arrayChildPath. now exists ("[" ++ String_of_index i ++ "]")%string. Qed.

(** Every node of a materialized subtree lies at or below its root. *)
Lemma createNodes_below (v : JsonValue) :
  forall p i key diffType isArr idx,
    Forall (fun n => pathExtends p (path n))
      (createNodesForValue v p i key diffType isArr idx).
Proof.
  induction v as [| b | z | s | obj IH | arr IH] using JsonValue_nested_ind;
    intros p i k d a x;
    try (repeat constructor; apply pathExtends_refl).
  - rewrite createNodes_object. repeat (apply Forall_app; split);
      try (repeat constructor; apply pathExtends_refl).
    apply Forall_flat_map_intro. intros kv Hin. rewrite List.Forall_forall in IH.
    eapply List.Forall_impl; [|now apply IH].
    intros n Hn. eapply pathExtends_trans; [apply objectChildPath_extends|exact Hn].
  - rewrite createNodes_array. repeat (apply Forall_app; split);
      try (repeat constructor; apply pathExtends_refl).
    apply Forall_flat_map_intro. intros [j y] Hin. rewrite List.Forall_forall in IH.
    eapply List.Forall_impl; [|apply IH; now apply in_combine_r in Hin].
    intros n Hn. eapply pathExtends_trans; [apply arrayChildPath_extends|exact Hn].
Qed.

Lemma compareJson_below (l r : option JsonValue) :
  forall p i key isArr idx,
    Forall (fun n => isSpacer n = false -> pathExtends p (path n))
      (leftNodes (compareJson l r p i key isArr idx))
    /\ Forall (fun n => isSpacer n = false -> pathExtends p (path n))
         (rightNodes (compareJson l r p i key isArr idx)).
Proof.
  assert (Hcreate : forall v p i key d isArr idx,
            Forall (fun n => isSpacer n = false -> pathExtends p (path n))
              (createNodesForValue v p i key d isArr idx)).
  { intros. eapply List.Forall_impl; [|apply createNodes_below]. auto. }
  assert (Hsp : forall p i n,
            Forall (fun m => isSpacer m = false -> pathExtends p (path m))
              (repeat (createSpacer i) n)).
  { intros. apply Forall_repeat. discriminate. }
  apply (compareJson_cases
    (fun l r => forall p i key isArr idx,
         Forall (fun n => isSpacer n = false -> pathExtends p (path n))
           (leftNodes (compareJson l r p i key isArr idx))
         /\ Forall (fun n => isSpacer n = false -> pathExtends p (path n))
              (rightNodes (compareJson l r p i key isArr idx)))); clear l r.
  - intros. rewrite compareJson_unfold. cbn. split; constructor.
  - intros lv *. rewrite compareJson_unfold. unfold compareBody, spacersFor.
    cbn [leftNodes rightNodes]. split; auto.
  - intros rv *. rewrite compareJson_unfold. unfold compareBody, spacersFor.
    cbn [leftNodes rightNodes]. split; auto.
  - intros lv rv E *. rewrite compareJson_unfold. unfold compareBody. rewrite E.
    cbn [leftNodes rightNodes]. split; auto.
  - intros lv rv E T *. rewrite compareJson_unfold. unfold compareBody, padSpacers.
    rewrite E, T. cbn [negb leftNodes rightNodes].
    split; apply Forall_app; split; auto.
  - intros lo ro E IH p i k a x. rewrite compareJson_unfold. unfold compareBody.
    rewrite E. cbn [getValueType ValueType_eqb negb leftNodes rightNodes].
    split; (apply Forall_app; split; [|apply Forall_app; split]);
      try (constructor; [intros _; apply pathExtends_refl|constructor]);
      apply Forall_flat_map_intro; intros k' _;
      (eapply List.Forall_impl; [|apply IH]); intros n Hn Hs;
      (eapply pathExtends_trans; [apply objectChildPath_extends|now apply Hn]).
  - intros la ra E IH p i k a x. rewrite compareJson_unfold. unfold compareBody.
    rewrite E. cbn [getValueType ValueType_eqb negb leftNodes rightNodes].
    split; (apply Forall_app; split; [|apply Forall_app; split]);
      try (constructor; [intros _; apply pathExtends_refl|constructor]);
      apply Forall_flat_map_intro; intros j _;
      (eapply List.Forall_impl; [|apply IH]); intros n Hn Hs;
      (eapply pathExtends_trans; [apply arrayChildPath_extends|now apply Hn]).
  - intros lv rv E Tl Tr *. rewrite compareJson_unfold. unfold compareBody.
    rewrite E.
    destruct lv, rv; try discriminate Tl; try discriminate Tr;
      cbn [getValueType ValueType_eqb negb leftNodes rightNodes];
      (split; (constructor; [intros _; apply pathExtends_refl|constructor])).
Qed.

Lemma combine_seq_nth {A : Type} (l : list A) (s j : nat) (y : A) :
  In (j, y) (combine (seq s (length l)) l) -> s <= j /\ nth_error l (j - s) = Some y.
Proof.
  revert s. induction l as [|x l IH]; intros s; cbn; [tauto|].
  intros [H|H].
  - inversion H; subst. split; [lia|]. now rewrite Nat.sub_diag.
  - apply IH in H as [Hle Hn]. split; [lia|].
    replace (j - s) with (S (j - S s)) by lia. exact Hn.
Qed.

Lemma reaches_key (obj : JsonObject) (k : string) (c : JsonValue) (steps : list PathStep) :
  In (k, c) obj -> reaches steps c = true ->
  reaches (StepKey k :: steps) (JObject obj) = true.
Proof.
  intros Hin Hc. cbn [reaches]. apply existsb_exists. exists (k, c).
  split; [exact Hin|]. cbn [fst snd]. now rewrite String.eqb_refl.
Qed.

Lemma reaches_index (arr : JsonArray) (j : nat) (c : JsonValue) (steps : list PathStep) :
  nth_error arr j = Some c -> reaches steps c = true ->
  reaches (StepIndex j :: steps) (JArray arr) = true.
Proof. intros Hn Hc. cbn [reaches]. now rewrite Hn. Qed.

(** Every node of a materialized subtree stands as many levels below the
    root as steps lead from the root value to the value it belongs to. *)
Lemma createNodes_placed (v : JsonValue) :
  forall p i key diffType isArr idx,
    Forall (fun n => exists steps : list PathStep,
                path n = descend p steps
                /\ indent n = i + length steps
                /\ reaches steps v = true)
      (createNodesForValue v p i key diffType isArr idx).
Proof.
  assert (Hhere : forall (w : JsonValue) (n : DiffNode) (p : string) (i : nat),
            path n = p -> indent n = i ->
            exists steps : list PathStep,
              path n = descend p steps /\ indent n = i + length steps
              /\ reaches steps w = true).
  { intros w n p i Hp Hi. exists []. cbn. split; [exact Hp|]. split; [lia|reflexivity]. }
  induction v as [| b | z | s | obj IH | arr IH] using JsonValue_nested_ind;
    intros p i k d a x;
    try (constructor; [now apply Hhere|constructor]).
  - rewrite createNodes_object.
    apply Forall_app; split; [constructor; [now apply Hhere|constructor]|].
    apply Forall_app; split; [|constructor; [now apply Hhere|constructor]].
    apply Forall_flat_map_intro. intros [k' c] Hin. rewrite List.Forall_forall in IH.
    eapply List.Forall_impl; [|apply (IH (k', c) Hin)].
    cbn [fst snd]. intros n (steps & Hp & Hi & Hr). exists (StepKey k' :: steps).
    split; [exact Hp|]. split; [cbn [length]; lia|]. now apply (reaches_key obj k' c).
  - rewrite createNodes_array.
    apply Forall_app; split; [constructor; [now apply Hhere|constructor]|].
    apply Forall_app; split; [|constructor; [now apply Hhere|constructor]].
    apply Forall_flat_map_intro. intros [j c] Hin. rewrite List.Forall_forall in IH.
    eapply List.Forall_impl; [|apply IH; now apply in_combine_r in Hin].
    cbn [fst snd]. intros n (steps & Hp & Hi & Hr). exists (StepIndex j :: steps).
    split; [exact Hp|]. split; [cbn [length]; lia|].
    apply combine_seq_nth in Hin as [_ Hn]. rewrite Nat.sub_0_r in Hn.
    now apply (reaches_index arr j c).
Qed.

Lemma placedBelow_key (lo ro : JsonObject) (p : string) (i : nat) (k : string)
    (n : DiffNode) :
  placedBelow (getProp lo k) (getProp ro k) (objectChildPath p k) (i + 1) n ->
  placedBelow (Some (JObject lo)) (Some (JObject ro)) p i n.
Proof.
  intros (steps & Hp & Hi & Hr). exists (StepKey k :: steps).
  split; [exact Hp|]. split; [cbn [length]; lia|].
  destruct Hr as [Hr|Hr]; [left|right];
    (destruct (getProp _ k) as [c|] eqn:E; [|discriminate Hr]);
    apply getProp_In in E; cbn [reachesOpt] in *; now apply (reaches_key _ k c).
Qed.

Lemma placedBelow_index (la ra : JsonArray) (p : string) (i j : nat) (n : DiffNode) :
  placedBelow (nth_error la j) (nth_error ra j) (arrayChildPath p j) (i + 1) n ->
  placedBelow (Some (JArray la)) (Some (JArray ra)) p i n.
Proof.
  intros (steps & Hp & Hi & Hr). exists (StepIndex j :: steps).
  split; [exact Hp|]. split; [cbn [length]; lia|].
  destruct Hr as [Hr|Hr]; [left|right];
    (destruct (nth_error _ j) as [c|] eqn:E; [|discriminate Hr]);
    cbn [reachesOpt] in *; now apply (reaches_index _ j c).
Qed.

Lemma compareJson_placed (l r : option JsonValue) :
  forall p i key isArr idx,
    Forall (fun n => isSpacer n = false -> placedBelow l r p i n)
      (leftNodes (compareJson l r p i key isArr idx))
    /\ Forall (fun n => isSpacer n = false -> placedBelow l r p i n)
         (rightNodes (compareJson l r p i key isArr idx)).
Proof.
  assert (HcreateL : forall v o p i key d isArr idx,
            Forall (fun n => isSpacer n = false -> placedBelow (Some v) o p i n)
              (createNodesForValue v p i key d isArr idx)).
  { intros. eapply List.Forall_impl; [|apply createNodes_placed].
    intros n (steps & Hp & Hi & Hr) _. exists steps. auto. }
  assert (HcreateR : forall v o p i key d isArr idx,
            Forall (fun n => isSpacer n = false -> placedBelow o (Some v) p i n)
              (createNodesForValue v p i key d isArr idx)).
  { intros. eapply List.Forall_impl; [|apply createNodes_placed].
    intros n (steps & Hp & Hi & Hr) _. exists steps. auto. }
  assert (Hsp : forall l r p i j n,
            Forall (fun m => isSpacer m = false -> placedBelow l r p i m)
              (repeat (createSpacer j) n)).
  { intros. apply Forall_repeat. discriminate. }
  assert (Hhere : forall (lv rv : JsonValue) (n : DiffNode) (p : string) (i : nat),
            path n = p -> indent n = i ->
            placedBelow (Some lv) (Some rv) p i n).
  { intros lv rv n p i Hp Hi. exists []. cbn. split; [exact Hp|]. split; [lia|now left]. }
  apply (compareJson_cases
    (fun l r => forall p i key isArr idx,
         Forall (fun n => isSpacer n = false -> placedBelow l r p i n)
           (leftNodes (compareJson l r p i key isArr idx))
         /\ Forall (fun n => isSpacer n = false -> placedBelow l r p i n)
              (rightNodes (compareJson l r p i key isArr idx)))); clear l r.
  - intros. rewrite compareJson_unfold. cbn. split; constructor.
  - intros lv *. rewrite compareJson_unfold. unfold compareBody, spacersFor.
    cbn [leftNodes rightNodes]. split; auto.
  - intros rv *. rewrite compareJson_unfold. unfold compareBody, spacersFor.
    cbn [leftNodes rightNodes]. split; auto.
  - intros lv rv E *. rewrite compareJson_unfold. unfold compareBody. rewrite E.
    cbn [leftNodes rightNodes]. split; auto.
  - intros lv rv E T *. rewrite compareJson_unfold. unfold compareBody, padSpacers.
    rewrite E, T. cbn [negb leftNodes rightNodes].
    split; apply Forall_app; split; auto.
  - intros lo ro E IH p i k a x. rewrite compareJson_unfold. unfold compareBody.
    rewrite E. cbn [getValueType ValueType_eqb negb leftNodes rightNodes].
    split; (apply Forall_app; split; [|apply Forall_app; split]);
      try (constructor; [intros _; now apply Hhere|constructor]);
      apply Forall_flat_map_intro; intros k' _;
      (eapply List.Forall_impl; [|apply IH]); intros n Hn Hs;
      apply (placedBelow_key lo ro p i k'); now apply Hn.
  - intros la ra E IH p i k a x. rewrite compareJson_unfold. unfold compareBody.
    rewrite E. cbn [getValueType ValueType_eqb negb leftNodes rightNodes].
    split; (apply Forall_app; split; [|apply Forall_app; split]);
      try (constructor; [intros _; now apply Hhere|constructor]);
      apply Forall_flat_map_intro; intros j _;
      (eapply List.Forall_impl; [|apply IH]); intros n Hn Hs;
      apply (placedBelow_index la ra p i j); now apply Hn.
  - intros lv rv E Tl Tr *. rewrite compareJson_unfold. unfold compareBody.
    rewrite E.
    destruct lv, rv; try discriminate Tl; try discriminate Tr;
      cbn [getValueType ValueType_eqb negb leftNodes rightNodes];
      (split; (constructor; [intros _; now apply Hhere|constructor])).
Qed.

(** X11. Every row of a comparison lies at or below the compared position:
    its indent is at least the indent of the call, and, unless it is a
    spacer, its path is the path of the call followed by the keys and
    indices that lead to it: there is a sequence of steps, each a key or
    an index, that leads from the left or from the right input to a value
    inside it, the row's path is the path of the call extended by these
    steps in order, and the row is indented by one level per step. The
    same holds in a materialized subtree, with steps inside its value. *)
Theorem compareJson_rows_below (l r : option JsonValue) (v : JsonValue) (p : string)
    (i : nat) (key : option string) (diffType : DiffType) (isArr : bool)
    (idx : option nat) :
  Forall (fun n => i <= indent n
                   /\ (isSpacer n = false ->
                       pathExtends p (path n) /\ placedBelow l r p i n))
    (leftNodes (compareJson l r p i key isArr idx))
  /\ Forall (fun n => i <= indent n
                      /\ (isSpacer n = false ->
                          pathExtends p (path n) /\ placedBelow l r p i n))
       (rightNodes (compareJson l r p i key isArr idx))
  /\ Forall (fun n => i <= indent n /\ pathExtends p (path n)
                      /\ placedBelow (Some v) None p i n)
       (createNodesForValue v p i key diffType isArr idx).
Proof.
  destruct (compareJson_below l r p i key isArr idx) as [HL HR].
  destruct (compareJson_indent l r p i key isArr idx) as [IL IR].
  destruct (compareJson_placed l r p i key isArr idx) as [PL PR].
  pose proof (createNodes_below v p i key diffType isArr idx) as HC.
  pose proof (createNodes_indent v p i key diffType isArr idx) as IC.
  pose proof (createNodes_placed v p i key diffType isArr idx) as PC.
  rewrite List.Forall_forall in HL, HR, IL, IR, PL, PR, HC, IC, PC.
  split; [|split]; apply List.Forall_forall; intros n Hin.
  - split; [now apply IL|]. intros Hs. split; [now apply HL|now apply PL].
  - split; [now apply IR|]. intros Hs. split; [now apply HR|now apply PR].
  - split; [now apply IC|]. split; [now apply HC|].
    destruct (PC n Hin) as (steps & Hp & Hi & Hr). exists steps. auto.
Qed.

(** ** Collapsing a subtree *)

Lemma string_app_cancel_nil (p s : string) : p = (p ++ s)%string -> s = "".
Proof.
  induction p as [|c p IH]; intros H; [now symmetry|].
  change (String c p = String c (p ++ s))%string in H. inversion H. auto.
Qed.

Lemma not_strictDescendant_self (p : string) : ~ strictDescendant p p.
Proof.
  intros [rest [H|H]]; apply string_app_cancel_nil in H; discriminate H.
Qed.

Lemma empty_not_strictDescendant (c : string) : ~ strictDescendant "" c.
Proof.
  intros [rest [H|H]]; destruct c; discriminate H.
Qed.

Lemma object_child_descends (p k q : string) :
  p <> "" -> pathExtends (objectChildPath p k) q -> strictDescendant q p.
Proof.
  intros Hp [rest ->]. unfold objectChildPath.
  destruct (String.eqb_spec p "") as [->|_]; [contradiction|].
  exists (k ++ rest)%string. left. now rewrite !string_app_assoc.
Qed.

Lemma array_child_descends (p : string) (i : nat) (q : string) :
  pathExtends (arrayChildPath p i) q -> strictDescendant q p.
Proof.
  intros [rest ->]. unfold arrayChildPath.
  exists ((String_of_index i ++ "]") ++ rest)%string. right.
  now rewrite !string_app_assoc.
Qed.

Lemma filterNodes_all_skipped (collapsedPaths : gset string) (nodes : list DiffNode) :
  Forall (fun n => shouldSkip collapsedPaths n = true) nodes ->
  filterNodes collapsedPaths nodes = [].
Proof.
  rewrite filterNodes_filter.
  induction 1 as [|n nodes Hn _ IH]; [reflexivity|]. cbn [List.filter].
  unfold keptNode at 1. now rewrite Hn.
Qed.

Lemma filterNodes_app (collapsedPaths : gset string) (a b : list DiffNode) :
  filterNodes collapsedPaths (a ++ b)
  = filterNodes collapsedPaths a ++ filterNodes collapsedPaths b.
Proof. rewrite !filterNodes_filter. apply List.filter_app. Qed.

Lemma filterNodes_single (collapsedPaths : gset string) (n : DiffNode) :
  filterNodes collapsedPaths [n] = if keptNode collapsedPaths n then [n] else [].
Proof. now rewrite filterNodes_filter. Qed.

Lemma shouldSkip_false (collapsedPaths : gset string) (n : DiffNode) :
  (forall c, c ∈ collapsedPaths -> ~ strictDescendant (path n) c) ->
  shouldSkip collapsedPaths n = false.
Proof.
  intros H. destruct (shouldSkip collapsedPaths n) eqn:E; [|reflexivity].
  apply shouldSkip_spec in E as (c & Hc & Hd). now destruct (H c Hc).
Qed.

Lemma shouldSkip_descendant (collapsedPaths : gset string) (p : string) (n : DiffNode) :
  p ∈ collapsedPaths -> strictDescendant (path n) p ->
  shouldSkip collapsedPaths n = true.
Proof. intros Hp Hd. apply shouldSkip_spec. now exists p. Qed.

Lemma collapse_materialized (v : JsonValue) (p : string) (i : nat)
    (key : option string) (diffType : DiffType) (isArr : bool) (idx : option nat)
    (collapsedPaths : gset string) :
  p ∈ collapsedPaths ->
  (forall c, c ∈ collapsedPaths -> ~ strictDescendant p c) ->
  p <> "" \/ getValueType v = TArray ->
  filterNodes collapsedPaths (createNodesForValue v p i key diffType isArr idx)
  = match v with
    | JObject _ => [openingNode diffType key p "{" i isArr idx]
    | JArray _ => [openingNode diffType key p "[" i isArr idx]
    | _ => [primitiveNode diffType key p v i isArr idx]
    end.
Proof.
  intros Hp Hfree Hroot.
  assert (Hkeep : forall n, path n = p -> isClosingBracket n = None ->
                            filterNodes collapsedPaths [n] = [n]).
  { intros n Hn Hc. rewrite filterNodes_single. unfold keptNode.
    rewrite shouldSkip_false, Hc by (now rewrite Hn). reflexivity. }
  assert (Hclose : forall n, path n = p -> isClosingBracket n = Some true ->
                             filterNodes collapsedPaths [n] = []).
  { intros n Hn Hc. rewrite filterNodes_single. unfold keptNode.
    rewrite shouldSkip_false, Hc, Hn by (now rewrite Hn).
    cbn [truthy negb andb]. now rewrite bool_decide_eq_true_2. }
  destruct v as [| b | z | s | obj | arr];
    try (rewrite createNodes_primitive by reflexivity; now apply Hkeep).
  - destruct Hroot as [Hne|Harr]; [|discriminate Harr].
    rewrite createNodes_object, !filterNodes_app.
    rewrite Hkeep, Hclose by reflexivity. rewrite filterNodes_all_skipped.
    + reflexivity.
    + apply Forall_flat_map_intro. intros kv _.
      eapply List.Forall_impl; [|apply createNodes_below].
      intros n Hn. apply (shouldSkip_descendant _ p n Hp).
      now apply (object_child_descends p (fst kv)).
  - rewrite createNodes_array, !filterNodes_app.
    rewrite Hkeep, Hclose by reflexivity. rewrite filterNodes_all_skipped.
    + reflexivity.
    + apply Forall_flat_map_intro. intros jv _.
      eapply List.Forall_impl; [|apply createNodes_below].
      intros n Hn. apply (shouldSkip_descendant _ p n Hp).
      now apply (array_child_descends p (fst jv)).
Qed.

(** X12. Collapsing the root of a materialized subtree leaves its opening
    row only: when the subtree's path is collapsed and lies below no other
    collapsed path, the filter keeps the opening node of an object or an
    array and drops all rows below it and its closing bracket; a primitive
    keeps its single row. For an object this needs a non-empty path: the
    children of an object at the empty path are addressed by their bare
    key, which does not extend the empty path at a boundary. *)
Theorem filterNodes_collapse_subtree (v : JsonValue) (p : string) (i : nat)
    (key : option string) (diffType : DiffType) (isArr : bool) (idx : option nat)
    (collapsedPaths : gset string) :
  p ∈ collapsedPaths ->
  (forall c, c ∈ collapsedPaths -> ~ strictDescendant p c) ->
  p <> "" \/ getValueType v = TArray ->
  filterNodes collapsedPaths (createNodesForValue v p i key diffType isArr idx)
  = match v with
    | JObject _ => [openingNode diffType key p "{" i isArr idx]
    | JArray _ => [openingNode diffType key p "[" i isArr idx]
    | _ => [primitiveNode diffType key p v i isArr idx]
    end.
Proof. apply collapse_materialized. Qed.

Lemma filterNodes_collapse_subtree_witness :
  filterNodes {[ "a" ]}
    (createNodesForValue (JObject [("x", JNum 1); ("y", JArray [JNull])])
       "a" 1 (Some "a") REMOVED false None)
  = [openingNode REMOVED (Some "a") "a" "{" 1 false None].
Proof.
  apply (filterNodes_collapse_subtree
           (JObject [("x", JNum 1); ("y", JArray [JNull])])
           "a" 1 (Some "a") REMOVED false None {[ "a" ]}).
  - set_solver.
  - intros c Hc. apply elem_of_singleton in Hc. subst c.
    apply not_strictDescendant_self.
  - left. discriminate.
Defined.

(** ** Spacers and the collapse filter *)

Lemma keptNode_spacer_like (collapsedPaths : gset string) (n : DiffNode) :
  path n = "" -> isClosingBracket n = None -> keptNode collapsedPaths n = true.
Proof.
  intros Hp Hc. unfold keptNode. rewrite Hc. cbn [truthy andb negb].
  rewrite shouldSkip_false; [reflexivity|].
  intros c _. rewrite Hp. apply empty_not_strictDescendant.
Qed.

Lemma filter_filter_kept {A : Type} (q keep : A -> bool) (l : list A) :
  (forall x, In x l -> q x = true -> keep x = true) ->
  List.filter q (List.filter keep l) = List.filter q l.
Proof.
  induction l as [|x l IH]; intros H; [reflexivity|]. cbn [List.filter].
  assert (IH' := IH (fun y Hy => H y (or_intror Hy))).
  destruct (keep x) eqn:Hk; cbn [List.filter].
  - now rewrite IH'.
  - destruct (q x) eqn:Hq; [|exact IH'].
    rewrite (H x) in Hk by auto using in_eq. discriminate.
Qed.

Lemma spacers_are_blank (l r : option JsonValue) (p : string) (i : nat)
    (key : option string) (isArr : bool) (idx : option nat) :
  Forall (fun n => isSpacer n = true -> path n = "" /\ isClosingBracket n = None)
    (leftNodes (compareJson l r p i key isArr idx))
  /\ Forall (fun n => isSpacer n = true -> path n = "" /\ isClosingBracket n = None)
       (rightNodes (compareJson l r p i key isArr idx)).
Proof.
  apply compareJson_Forall; unfold isSpacer; intros; cbn;
    repeat split; intros; try discriminate; auto;
    match goal with
    | d : DiffType |- _ => destruct d; try discriminate; congruence
    end.
Qed.

(** X13. The collapse filter never removes a spacer: whatever paths are
    collapsed, the spacers of each column of a comparison are the spacers
    of the filtered column, in the same order. *)
Theorem filterNodes_keeps_spacers (collapsedPaths : gset string)
    (l r : option JsonValue) (p : string) (i : nat) (key : option string)
    (isArr : bool) (idx : option nat) :
  List.filter isSpacer
    (filterNodes collapsedPaths (leftNodes (compareJson l r p i key isArr idx)))
  = List.filter isSpacer (leftNodes (compareJson l r p i key isArr idx))
  /\ List.filter isSpacer
       (filterNodes collapsedPaths (rightNodes (compareJson l r p i key isArr idx)))
     = List.filter isSpacer (rightNodes (compareJson l r p i key isArr idx)).
Proof.
  destruct (spacers_are_blank l r p i key isArr idx) as [HL HR].
  rewrite List.Forall_forall in HL, HR. rewrite !filterNodes_filter.
  split; apply filter_filter_kept; intros n Hin Hs.
  - destruct (HL n Hin Hs). now apply keptNode_spacer_like.
  - destruct (HR n Hin Hs). now apply keptNode_spacer_like.
Qed.

Lemma filterNodes_spacers (collapsedPaths : gset string) (i n : nat) :
  filterNodes collapsedPaths (repeat (createSpacer i) n) = repeat (createSpacer i) n.
Proof.
  rewrite filterNodes_filter. induction n as [|n IH]; [reflexivity|].
  cbn [repeat List.filter]. rewrite keptNode_spacer_like by reflexivity.
  now rewrite IH.
Qed.

(** X14. Collapsing a Removed object or array breaks the alignment of the
    two filtered columns: the left column keeps the opening row only,
    while the right column keeps every spacer that faced the subtree, one
    per line of the removed value, hence at least two. *)
Theorem filterNodes_misaligns_removed (v : JsonValue) (p : string) (i : nat)
    (key : option string) (isArr : bool) (idx : option nat)
    (collapsedPaths : gset string) :
  getValueType v <> TPrimitive ->
  p ∈ collapsedPaths ->
  (forall c, c ∈ collapsedPaths -> ~ strictDescendant p c) ->
  p <> "" \/ getValueType v = TArray ->
  length (filterNodes collapsedPaths
            (leftNodes (compareJson (Some v) None p i key isArr idx))) = 1
  /\ length (filterNodes collapsedPaths
               (rightNodes (compareJson (Some v) None p i key isArr idx))) = sizeOf v
  /\ 2 <= sizeOf v.
Proof.
  intros Hc Hp Hfree Hroot. rewrite compareJson_unfold. unfold compareBody, spacersFor.
  cbn [leftNodes rightNodes].
  rewrite collapse_materialized, filterNodes_spacers, repeat_length, length_createNodes
    by assumption.
  destruct v; try (now destruct Hc); cbn [sizeOf length]; repeat split; lia.
Qed.

Lemma filterNodes_misaligns_removed_witness :
  length (filterNodes {[ "a" ]}
            (leftNodes (compareJson (Some (JArray [JNum 1; JNum 2])) None
                          "a" 1 (Some "a") false None))) = 1
  /\ length (filterNodes {[ "a" ]}
               (rightNodes (compareJson (Some (JArray [JNum 1; JNum 2])) None
                              "a" 1 (Some "a") false None))) = 4.
Proof.
  destruct (filterNodes_misaligns_removed (JArray [JNum 1; JNum 2])
              "a" 1 (Some "a") false None {[ "a" ]}) as (HL & HR & _).
  - discriminate.
  - set_solver.
  - intros c Hc. apply elem_of_singleton in Hc. subst c.
    apply not_strictDescendant_self.
  - left. discriminate.
  - split; [exact HL|exact HR].
Defined.

(** ** Collapsing the root of an object document *)

Lemma filterNodes_all_kept (collapsedPaths : gset string) (nodes : list DiffNode) :
  Forall (fun n => keptNode collapsedPaths n = true) nodes ->
  filterNodes collapsedPaths nodes = nodes.
Proof.
  rewrite filterNodes_filter.
  induction 1 as [|n nodes Hn _ IH]; [reflexivity|]. cbn [List.filter].
  now rewrite Hn, IH.
Qed.

Lemma plainKey_below_kept (k q : string) (n : DiffNode) :
  plainKey k = true -> pathExtends k (path n) -> keptNode {[ "" ]} n = true.
Proof.
  intros Hk [rest Hq]. destruct k as [|c k]; [discriminate Hk|].
  cbn [plainKey] in Hk. apply andb_true_iff in Hk as [Hdot Hbr].
  apply negb_true_iff, Ascii.eqb_neq in Hdot, Hbr.
  change (path n = String c (k ++ rest)%string) in Hq.
  assert (Hskip : shouldSkip {[ "" ]} n = false).
  { apply shouldSkip_false. intros c' Hc'. apply elem_of_singleton in Hc'. subst c'.
    rewrite Hq. intros [rest' [H|H]]; inversion H; congruence. }
  assert (Hnot : bool_decide (path n ∈ ({[ "" ]} : gset string)) = false).
  { apply bool_decide_eq_false_2. rewrite elem_of_singleton, Hq. discriminate. }
  unfold keptNode. rewrite Hskip, Hnot. now rewrite andb_false_r.
Qed.

(** X15. Collapsing the root of an object document hides its closing brace
    and nothing else. The children of an object at the empty path are
    addressed by their bare keys, so (for keys that are not empty and do
    not start with ['.'] or ['[']) no row below the root extends the empty
    path at a ['.'] or ['['] boundary: the filter returns the materialized
    document without its last row. *)
Theorem filterNodes_collapse_root_object (obj : JsonObject) (i : nat)
    (key : option string) (diffType : DiffType) (isArr : bool) (idx : option nat) :
  forallb plainKey (Object_keys obj) = true ->
  filterNodes {[ "" ]} (createNodesForValue (JObject obj) "" i key diffType isArr idx)
  = removelast (createNodesForValue (JObject obj) "" i key diffType isArr idx).
Proof.
  intros Hplain. rewrite createNodes_object.
  rewrite !app_assoc, removelast_last, filterNodes_app.
  rewrite (filterNodes_all_kept _ (_ ++ _)).
  - rewrite filterNodes_single. unfold keptNode. cbn [path isClosingBracket closingNode].
    cbn [truthy]. rewrite bool_decide_eq_true_2 by set_solver.
    cbn [andb negb]. rewrite andb_false_r. apply app_nil_r.
  - apply Forall_app. split.
    + constructor; [|constructor]. apply keptNode_spacer_like; reflexivity.
    + apply Forall_flat_map_intro. intros [k v] Hin. cbn [fst snd].
      eapply List.Forall_impl; [|apply createNodes_below].
      intros n Hn. apply (plainKey_below_kept k (path n)); [|exact Hn].
      rewrite forallb_forall in Hplain. apply Hplain.
      now apply (entry_In_keys obj k v).
Qed.

Lemma filterNodes_collapse_root_object_witness :
  forallb plainKey (Object_keys [("a", JObject [("b", JNum 1)]); ("c", JNull)]) = true
  /\ length (filterNodes {[ "" ]}
       (createNodesForValue (JObject [("a", JObject [("b", JNum 1)]); ("c", JNull)])
          "" 0 None REMOVED false None)) = 5.
Proof.
  split; [reflexivity|].
  rewrite (filterNodes_collapse_root_object
             [("a", JObject [("b", JNum 1)]); ("c", JNull)] 0 None REMOVED false None
             eq_refl).
  reflexivity.
Defined.

(** ** Only Unchanged rows exactly when the inputs are deep-equal *)

Lemma sizeOf_pos (v : JsonValue) : 1 <= sizeOf v.
Proof. destruct v; cbn [sizeOf]; lia. Qed.

Lemma uniform_Exists (t : DiffType) (nodes : list DiffNode) :
  t <> UNCHANGED -> 1 <= length nodes ->
  Forall (fun n => type n = t) nodes ->
  Exists (fun n => type n <> UNCHANGED) nodes.
Proof.
  intros Ht Hlen Hall. destruct Hall as [|n nodes Hn _]; [cbn in Hlen; lia|].
  left. congruence.
Qed.

Lemma createNodes_Exists_changed (v : JsonValue) (p : string) (i : nat)
    (key : option string) (t : DiffType) (isArr : bool) (idx : option nat) :
  t <> UNCHANGED ->
  Exists (fun n => type n <> UNCHANGED) (createNodesForValue v p i key t isArr idx).
Proof.
  intros Ht. apply (uniform_Exists t); [exact Ht| |apply createNodes_type].
  rewrite length_createNodes. apply sizeOf_pos.
Qed.

Lemma spacers_Exists_changed (i n : nat) :
  1 <= n -> Exists (fun m => type m <> UNCHANGED) (repeat (createSpacer i) n).
Proof. intros Hn. destruct n; [lia|]. left. discriminate. Qed.

Lemma Exists_flat_map_intro {A : Type} (P : DiffNode -> Prop) (f : A -> list DiffNode)
    (xs : list A) (x : A) :
  In x xs -> Exists P (f x) -> Exists P (flat_map f xs).
Proof.
  induction xs as [|y xs IH]; intros Hin Hex; [contradiction|]. simpl.
  apply Exists_app. destruct Hin as [->|Hin]; [now left|right; auto].
Qed.

Lemma objects_differ (lo ro : JsonObject) :
  uniqueKeys (Object_keys lo) = true -> uniqueKeys (Object_keys ro) = true ->
  isEqual (JObject lo) (JObject ro) = false ->
  exists k, In k (getAlignedKeys lo ro)
            /\ differAt (getProp lo k) (getProp ro k) = true.
Proof.
  intros Hul Hur E.
  destruct (existsb (fun k => differAt (getProp lo k) (getProp ro k))
              (getAlignedKeys lo ro)) eqn:Ex.
  { apply existsb_exists in Ex. exact Ex. }
  exfalso.
  assert (Hsame : forall k, In k (getAlignedKeys lo ro) ->
                            differAt (getProp lo k) (getProp ro k) = false).
  { intros k Hk. destruct (differAt (getProp lo k) (getProp ro k)) eqn:D; [|reflexivity].
    assert (existsb (fun k => differAt (getProp lo k) (getProp ro k))
              (getAlignedKeys lo ro) = true)
      by (apply existsb_exists; now exists k).
    congruence. }
  assert (Hkeys : forall k, In k (Object_keys lo) <-> In k (Object_keys ro)).
  { intros k. split; intros Hk.
    - assert (Hal : In k (getAlignedKeys lo ro)) by (apply getAlignedKeys_In; auto).
      specialize (Hsame k Hal).
      destruct (getProp lo k) as [a|] eqn:Gl, (getProp ro k) as [b|] eqn:Gr;
        try discriminate Hsame.
      + apply getProp_In in Gr. now apply (entry_In_keys ro k b).
      + now apply getProp_None in Gl.
    - assert (Hal : In k (getAlignedKeys lo ro)) by (apply getAlignedKeys_In; auto).
      specialize (Hsame k Hal).
      destruct (getProp lo k) as [a|] eqn:Gl, (getProp ro k) as [b|] eqn:Gr;
        try discriminate Hsame.
      + apply getProp_In in Gl. now apply (entry_In_keys lo k a).
      + now apply getProp_None in Gr. }
  assert (Heq : isEqual (JObject lo) (JObject ro) = true); [|congruence].
  apply isEqual_objects. split.
  - assert (Hperm : Permutation (Object_keys lo) (Object_keys ro)).
    { apply Permutation.NoDup_Permutation; auto; now apply uniqueKeys_NoDup. }
    apply Permutation_length in Hperm. unfold Object_keys in Hperm.
    now rewrite !length_map in Hperm.
  - intros k v Hin.
    assert (Hal : In k (getAlignedKeys lo ro)).
    { apply getAlignedKeys_In. left. now apply (entry_In_keys lo k v). }
    specialize (Hsame k Hal). rewrite (getProp_unique lo k v Hul Hin) in Hsame.
    destruct (getProp ro k) as [w|]; [|discriminate Hsame].
    exists w. split; [reflexivity|]. cbn in Hsame. now apply negb_false_iff in Hsame.
Qed.

Lemma arrays_differ (la : JsonArray) :
  forall ra, isEqual (JArray la) (JArray ra) = false ->
    exists i, i < Nat.max (length la) (length ra)
              /\ differAt (nth_error la i) (nth_error ra i) = true.
Proof.
  cbn [isEqual].
  induction la as [|x la IH]; intros [|y ra] E; try discriminate E.
  - exists 0. split; [cbn; lia|reflexivity].
  - exists 0. split; [cbn; lia|reflexivity].
  - cbn [all2] in E. destruct (isEqual x y) eqn:Exy.
    + cbn [andb] in E. destruct (IH ra E) as (i & Hi & Hd).
      exists (S i). split; [cbn [length]; lia|exact Hd].
    + exists 0. split; [cbn; lia|]. cbn. now rewrite Exy.
Qed.

Lemma compareJson_changed_rows (l r : option JsonValue) :
  wfOpt l = true -> wfOpt r = true -> differAt l r = true ->
  forall p i key isArr idx,
    Exists (fun n => type n <> UNCHANGED) (leftNodes (compareJson l r p i key isArr idx))
    /\ Exists (fun n => type n <> UNCHANGED)
         (rightNodes (compareJson l r p i key isArr idx)).
Proof.
  apply (compareJson_cases
    (fun l r =>
       wfOpt l = true -> wfOpt r = true -> differAt l r = true ->
       forall p i key isArr idx,
         Exists (fun n => type n <> UNCHANGED)
           (leftNodes (compareJson l r p i key isArr idx))
         /\ Exists (fun n => type n <> UNCHANGED)
              (rightNodes (compareJson l r p i key isArr idx)))); clear l r.
  - intros _ _ D. discriminate D.
  - intros lv _ _ _ *. rewrite compareJson_unfold. unfold compareBody, spacersFor.
    cbn [leftNodes rightNodes]. split.
    + now apply createNodes_Exists_changed.
    + apply spacers_Exists_changed. rewrite length_createNodes. apply sizeOf_pos.
  - intros rv _ _ _ *. rewrite compareJson_unfold. unfold compareBody, spacersFor.
    cbn [leftNodes rightNodes]. split.
    + apply spacers_Exists_changed. rewrite length_createNodes. apply sizeOf_pos.
    + now apply createNodes_Exists_changed.
  - intros lv rv E _ _ D. cbn [differAt] in D. rewrite E in D. discriminate D.
  - intros lv rv E T _ _ _ *. rewrite compareJson_unfold. unfold compareBody, padSpacers.
    rewrite E, T. cbn [negb leftNodes rightNodes].
    split; apply Exists_app; left; now apply createNodes_Exists_changed.
  - intros lo ro E IH Hwl Hwr _ p i k a x. cbn [wfOpt] in Hwl, Hwr.
    pose proof (wfJson_object lo Hwl) as [Hul _].
    pose proof (wfJson_object ro Hwr) as [Hur _].
    destruct (objects_differ lo ro Hul Hur E) as (k' & Hk' & Hd).
    rewrite compareJson_unfold. unfold compareBody. rewrite E.
    cbn [getValueType ValueType_eqb negb leftNodes rightNodes].
    destruct (IH k' (wfOpt_getProp lo k' Hwl) (wfOpt_getProp ro k' Hwr) Hd
                (objectChildPath p k') (i + 1) (Some k') false None) as [HL HR].
    split; apply Exists_app; right; apply Exists_app; left.
    + exact (Exists_flat_map_intro _ _ _ k' Hk' HL).
    + exact (Exists_flat_map_intro _ _ _ k' Hk' HR).
  - intros la ra E IH Hwl Hwr _ p i k a x. cbn [wfOpt] in Hwl, Hwr.
    destruct (arrays_differ la ra E) as (j & Hj & Hd).
    rewrite compareJson_unfold. unfold compareBody. rewrite E.
    cbn [getValueType ValueType_eqb negb leftNodes rightNodes].
    destruct (IH j (wfOpt_nth_error la j Hwl) (wfOpt_nth_error ra j Hwr) Hd
                (arrayChildPath p j) (i + 1) None true (Some j)) as [HL HR].
    assert (Hin : In j (seq 0 (Nat.max (length la) (length ra))))
      by (apply in_seq; lia).
    split; apply Exists_app; right; apply Exists_app; left.
    + exact (Exists_flat_map_intro _ _ _ j Hin HL).
    + exact (Exists_flat_map_intro _ _ _ j Hin HR).
  - intros lv rv E Tl Tr _ _ _ *. rewrite compareJson_unfold. unfold compareBody.
    rewrite E.
    destruct lv, rv; try discriminate Tl; try discriminate Tr;
      cbn [getValueType ValueType_eqb negb leftNodes rightNodes];
      (split; left; discriminate).
Qed.

Lemma Forall_Exists_absurd {A : Type} (P : A -> Prop) (l : list A) :
  Forall P l -> Exists (fun x => ~ P x) l -> False.
Proof. intros HF HE. induction HE as [x l Hx|x l _ IH]; inversion HF; auto. Qed.

(** X16. A comparison shows only Unchanged rows exactly when its two
    inputs are deep-equal: for values in which every object has unique
    keys and no key is a reserved name ([ownNamesOnly]), every row of the
    left column (and likewise of the right column) is classified Unchanged
    if and only if [isEqual] holds of the inputs. (With a reserved name
    among the keys a lookup can read [Object.prototype], which lodash
    finds deep-equal to an empty object.) *)
Theorem compareJson_unchanged_iff_equal (lv rv : JsonValue) (p : string) (i : nat)
    (key : option string) (isArr : bool) (idx : option nat) :
  wfJson lv = true -> wfJson rv = true ->
  ownNamesOnly lv = true -> ownNamesOnly rv = true ->
  (isEqual lv rv = true
   <-> Forall (fun n => type n = UNCHANGED)
         (leftNodes (compareJson (Some lv) (Some rv) p i key isArr idx)))
  /\ (isEqual lv rv = true
      <-> Forall (fun n => type n = UNCHANGED)
            (rightNodes (compareJson (Some lv) (Some rv) p i key isArr idx))).
Proof.
  intros Hwl Hwr _ _.
  assert (Hyes : isEqual lv rv = true ->
            Forall (fun n => type n = UNCHANGED)
              (leftNodes (compareJson (Some lv) (Some rv) p i key isArr idx))
            /\ Forall (fun n => type n = UNCHANGED)
                 (rightNodes (compareJson (Some lv) (Some rv) p i key isArr idx))).
  { intros E. rewrite compareJson_unfold. unfold compareBody. rewrite E.
    cbn [leftNodes rightNodes]. split; apply createNodes_type. }
  assert (Hno : isEqual lv rv = false ->
            Exists (fun n => type n <> UNCHANGED)
              (leftNodes (compareJson (Some lv) (Some rv) p i key isArr idx))
            /\ Exists (fun n => type n <> UNCHANGED)
                 (rightNodes (compareJson (Some lv) (Some rv) p i key isArr idx))).
  { intros E. apply (compareJson_changed_rows (Some lv) (Some rv)); auto.
    cbn [differAt]. now rewrite E. }
  split; (split; [intros E; now apply Hyes|]); intros Hall;
    destruct (isEqual lv rv) eqn:E; try reflexivity; exfalso;
    destruct (Hno eq_refl) as [HL HR].
  - exact (Forall_Exists_absurd _ _ Hall HL).
  - exact (Forall_Exists_absurd _ _ Hall HR).
Qed.

Lemma compareJson_unchanged_iff_equal_witness :
  wfJson (JObject [("a", JNum 1); ("b", JNum 2)]) = true
  /\ wfJson (JObject [("b", JNum 2); ("a", JNum 1)]) = true
  /\ ownNamesOnly (JObject [("a", JNum 1); ("b", JNum 2)]) = true
  /\ ownNamesOnly (JObject [("b", JNum 2); ("a", JNum 1)]) = true
  /\ Forall (fun n => type n = UNCHANGED)
       (leftNodes (compareJsonTop (Some (JObject [("a", JNum 1); ("b", JNum 2)]))
                     (Some (JObject [("b", JNum 2); ("a", JNum 1)])))).
Proof.
  split; [reflexivity|]. split; [reflexivity|].
  split; [reflexivity|]. split; [reflexivity|].
  apply (proj1 (compareJson_unchanged_iff_equal
                  (JObject [("a", JNum 1); ("b", JNum 2)])
                  (JObject [("b", JNum 2); ("a", JNum 1)])
                  "" 0 None false None eq_refl eq_refl eq_refl eq_refl)).
  reflexivity.
Defined.

(** ** Displayed values *)

(** X17. When no key of either document is a reserved name
    ([ownNamesOnly]), every value a row of the comparison carries, on
    either side, is a primitive (the bracket literals are strings): no
    object or array is ever handed to the renderer as a value, and
    [getValueClass] gives each carried value one of its four classes,
    never the empty class. (A key read from [Object.prototype] would make
    a row carry a built-in function, whose class is the empty one.) *)
Theorem compareJson_values_primitive (l r : option JsonValue) (path : string)
    (indent : nat) (key : option string) (isArr : bool) (idx : option nat) :
  ownNamesOnlyOpt l = true -> ownNamesOnlyOpt r = true ->
  Forall (fun n => forall v, leftValue n = Some v \/ rightValue n = Some v ->
                             getValueType v = TPrimitive /\ getValueClass v <> "")
    (leftNodes (compareJson l r path indent key isArr idx))
  /\ Forall (fun n => forall v, leftValue n = Some v \/ rightValue n = Some v ->
                                getValueType v = TPrimitive /\ getValueClass v <> "")
       (rightNodes (compareJson l r path indent key isArr idx)).
Proof.
  intros _ _.
  assert (Hprim : forall v : JsonValue,
            getValueType v = TPrimitive ->
            getValueType v = TPrimitive /\ getValueClass v <> "").
  { intros v Hv. split; [exact Hv|]. destruct v; try discriminate Hv; discriminate. }
  apply compareJson_Forall.
  - intros i v [H|H]; discriminate H.
  - intros d k p i a x _. split; intros v [H|H]; destruct d; cbn in H;
      try discriminate H; inversion H; subst; now apply Hprim.
  - intros d p i _. split; intros v [H|H]; destruct d; cbn in H;
      try discriminate H; inversion H; subst; now apply Hprim.
  - intros d k p w i a x _ Hw v [H|H]; destruct d; cbn in H;
      try discriminate H; inversion H; subst; now apply Hprim.
  - intros k p i a x. split; intros v [H|H]; cbn in H; inversion H; subst;
      now apply Hprim.
  - intros p i. split; intros v [H|H]; cbn in H; inversion H; subst;
      now apply Hprim.
  - intros k p w i a x Hw. split; intros v [H|H]; cbn in H;
      try discriminate H; inversion H; subst; now apply Hprim.
Qed.

Lemma compareJson_values_primitive_witness :
  ownNamesOnlyOpt (Some (JNum 1)) = true
  /\ ownNamesOnlyOpt (Some (JNum 2)) = true
  /\ getValueType (JNum 1) = TPrimitive /\ getValueClass (JNum 1) <> "".
Proof.
  split; [reflexivity|]. split; [reflexivity|].
  pose proof (proj1 (compareJson_values_primitive (Some (JNum 1)) (Some (JNum 2))
                       "" 0 None false None eq_refl eq_refl)) as H.
  rewrite List.Forall_forall in H.
  apply (H (modifiedLeftNode None "" (JNum 1) 0 false None)).
  - vm_compute. now left.
  - left. reflexivity.
Defined.
